(** * spaceDJ: the spatial selection and label-visibility engine

    A shallow embedding of the selection core of the applet and the
    properties its specification states about it.  The modules follow the
    source files as the applet imports them, and the tree holds them as
    follows:
    - [Utils]: ./utils, [cosineDistance] (src/unnamed/part_001);
    - [Grid]: ./grid, [SpatialGrid] (src/grid.ts);
    - [Points]: ./points, [PointCloudGenerator] (src/unnamed/part_000);
    - [Selection]: ./selection, [PointSelector] (the class of that name
      in src/spaceship.ts);
    - [Labels]: ./labels, [LabelRenderer] (src/unnamed/part_003);
    - [Base64]: [btoa] and [atob] of the browser, which ./utils calls;
    - [Codec], [Throttle]: ./utils, [encode], [decode], [createBlob] and
      [throttle] (src/unnamed/part_001);
    - [Cloud]: ./points, the data [generatePointCloudData] returns and
      the class [PointCloud] (src/unnamed/part_000);
    - [Getters], [Highlight]: ./selection, the getters of [PointSelector]
      and the class [PointHighlighter] (src/spaceship.ts);
    - [LabelRuns]: the states a [LabelRenderer] goes through;
    - [Space]: ./space, [updateAndRenderHighlights] and
      [haveWeightsChanged] of the component (src/space.ts);
    - [Three]: the operations of three.js the applet calls.

    Numbers.  A JavaScript [number] is modelled by a real; the value NaN,
    which the code can produce by reading past the end of an array, is the
    [None] of [num].  Rounding, overflow and the infinities of IEEE doubles
    are outside the model: a division is the real division and is only
    meaningful where the divisor is not zero.  The 32-bit integer
    operations of the seeded generator are written on [Z] with their
    wrap-around.

    Objects.  A THREE.Mesh is compared by reference in the code; a mesh
    carries its address [mesh_ref].  An array that the code compares with
    [===] carries its address too ([JsArray]).  A plain object used as a
    map from labels to weights is a [gmap string R]; labels are taken not
    to be names of members of [Object.prototype].  A [Map] whose order of
    iteration matters is a list of entries in insertion order ([JsMap]).

    State.  The fields of [PointSelector] and [LabelRenderer] are records;
    an operation takes the record and returns the new one. *)

From Stdlib Require Import Reals Lra Lia ZArith List Permutation Sorted Ascii.
From Stdlib Require Strings.Byte.
From stdpp Require Import gmap strings pretty list.

#[global] Instance R_eq_dec : EqDecision R := Req_dec_T.
#[global] Instance Rlt_decision : RelDecision Rlt := Rlt_dec.
#[global] Instance Rle_decision : RelDecision Rle := Rle_dec.
#[global] Instance Rgt_decision : RelDecision Rgt := Rgt_dec.

(** ** JavaScript values *)

Module Js.

(** A number that may be NaN. *)
Definition num : Type := option R.

(** [Array.prototype.reduce] with the callback's index argument. *)
Fixpoint reduce_from {A B : Type} (f : B -> A -> nat -> B)
    (i : nat) (l : list A) (acc : B) : B :=
  match l with
  | [] => acc
  | a :: l' => reduce_from f (S i) l' (f acc a i)
  end.

Definition reduce {A B : Type} (f : B -> A -> nat -> B)
    (l : list A) (init : B) : B :=
  reduce_from f 0 l init.

(** An array with the identity that [===] compares. *)
Record JsArray (A : Type) : Type := mkArray { ref : nat; elems : list A }.
Arguments mkArray {A} _ _.
Arguments ref {A} _.
Arguments elems {A} _.

Definition same_object {A : Type} (x y : JsArray A) : bool :=
  Nat.eqb (ref x) (ref y).

(** [Map<number, V>]: entries in insertion order, one per key; [set] on
    a key that is present keeps the key's place. *)
Definition JsMap (V : Type) : Type := list (nat * V).

Fixpoint map_get {V : Type} (k : nat) (m : JsMap V) : option V :=
  match m with
  | [] => None
  | (k', v) :: m' => if Nat.eqb k k' then Some v else map_get k m'
  end.

Fixpoint map_set {V : Type} (k : nat) (v : V) (m : JsMap V) : JsMap V :=
  match m with
  | [] => [(k, v)]
  | (k', v') :: m' =>
      if Nat.eqb k k' then (k, v) :: m' else (k', v') :: map_set k v m'
  end.

(** [array.entries()] *)
Definition entries {A : Type} (l : list A) : list (nat * A) :=
  imap (fun i x => (i, x)) l.

End Js.

(** ** utils.ts *)

Module Utils.
Import Js.
Local Open Scope R_scope.

(** [vecA.reduce((sum, a, i) => sum + a * vecB[i], 0)]: reading [vecB]
    past its end yields [undefined] and the sum becomes NaN. *)
Definition dotProduct (vecA vecB : list R) : num :=
  reduce (fun (sum : num) (a : R) (i : nat) =>
            s ← sum; b ← vecB !! i; Some (s + a * b))
         vecA (Some 0).

(** [Math.sqrt(vec.reduce((sum, a) => sum + a * a, 0))] *)
Definition magnitude (vec : list R) : R :=
  sqrt (reduce (fun (sum : R) (a : R) (_ : nat) => sum + a * a) vec 0).

Definition cosineDistance (vecA vecB : list R) : num :=
  let dotProduct := dotProduct vecA vecB in
  let magnitudeA := magnitude vecA in
  let magnitudeB := magnitude vecB in
  if decide (magnitudeA = 0 \/ magnitudeB = 0) then Some 1
  else
    similarity ← (d ← dotProduct; Some (d / (magnitudeA * magnitudeB)));
    Some (1 - similarity).

(** The plain sums the [reduce] calls compute, for the statements. *)
Fixpoint sum_products (a b : list R) : R :=
  match a, b with
  | x :: a', y :: b' => x * y + sum_products a' b'
  | _, _ => 0
  end.

Definition sum_squares (a : list R) : R := sum_products a a.

End Utils.

(** ** three.js: the vector and ray operations the engine calls

    The applet takes these from the three.js library; they are written
    here as the library defines them. *)

Module Three.
Local Open Scope R_scope.

Record Vector3 : Type := mkVector3 { x : R; y : R; z : R }.

Definition sub (a b : Vector3) : Vector3 :=
  mkVector3 (x a - x b) (y a - y b) (z a - z b).

Definition dot (a b : Vector3) : R := x a * x b + y a * y b + z a * z b.

Definition lengthSq (a : Vector3) : R := x a * x a + y a * y a + z a * z a.

Definition length (a : Vector3) : R := sqrt (lengthSq a).

Definition distanceToSquared (a b : Vector3) : R :=
  let dx := x a - x b in
  let dy := y a - y b in
  let dz := z a - z b in
  dx * dx + dy * dy + dz * dz.

Definition distanceTo (a b : Vector3) : R := sqrt (distanceToSquared a b).

(** [v.addScaledVector(d, s)] *)
Definition addScaledVector (v d : Vector3) (s : R) : Vector3 :=
  mkVector3 (x v + x d * s) (y v + y d * s) (z v + z d * s).

(** [v.normalize()] is [v.divideScalar(v.length() || 1)]: the zero vector
    stays the zero vector. *)
Definition normalize (v : Vector3) : Vector3 :=
  let l := if decide (length v = 0) then 1 else length v in
  mkVector3 (x v / l) (y v / l) (z v / l).

Record Ray : Type := mkRay { origin : Vector3; direction : Vector3 }.

(** [Ray.distanceSqToPoint]: the distance to the origin when the point
    lies behind the ray, to the foot of the perpendicular otherwise. *)
Definition distanceSqToPoint (ray : Ray) (point : Vector3) : R :=
  let directionDistance := dot (sub point (origin ray)) (direction ray) in
  if decide (directionDistance < 0) then distanceToSquared (origin ray) point
  else
    distanceToSquared
      (addScaledVector (origin ray) (direction ray) directionDistance) point.

End Three.

(** ** The meshes of the point cloud (points.ts, [createMeshes]) *)

Module Scene.
Import Js Three.

(** The [THREE.Object3D] a point mesh hangs under; it holds the point's
    position.  The points group and the scene above it are never moved,
    rotated or scaled in the applet, so the world position of a point
    object is its position. *)
Record Object3D : Type := mkObject3D { position : Vector3 }.

Definition getWorldPosition (o : Object3D) : Vector3 := position o.

(** A point mesh: its identity, its parent (absent once detached) and its
    [userData]. *)
Record Mesh : Type := mkMesh {
  mesh_ref : nat;
  parent : option Object3D;
  label : string;
  vector : JsArray R;
  index : nat
}.

End Scene.

(** ** grid.ts *)

Module Grid.
Import Js Three Scene.
Local Open Scope R_scope.

Definition GRID_SIZE : R := 5.

(** [Math.floor] *)
Definition floor (v : R) : Z := Zfloor v.

(** The key of a cell, [`${i}_${j}_${k}`]: the three cell coordinates in
    decimal, joined by underscores. *)
Abbreviation Key := string.

Definition keyOf (i j k : Z) : Key :=
  pretty i +:+ "_" +:+ pretty j +:+ "_" +:+ pretty k.

Definition getKey (position : Vector3) : Key :=
  let gridX := floor (x position / GRID_SIZE) in
  let gridY := floor (y position / GRID_SIZE) in
  let gridZ := floor (z position / GRID_SIZE) in
  keyOf gridX gridY gridZ.

(** One iteration of the loop of [build]. *)
Definition addMesh (grid : gmap Key (list Mesh)) (pointMesh : Mesh)
    : gmap Key (list Mesh) :=
  match parent pointMesh with
  | None => grid
  | Some pointObject =>
      let key := getKey (position pointObject) in
      let grid :=
        if decide (is_Some (grid !! key)) then grid else <[key := []]> grid in
      alter (fun cell => cell ++ [pointMesh]) key grid
  end.

(** [build] clears the grid first. *)
Definition build (pointMeshes : list Mesh) : gmap Key (list Mesh) :=
  foldl addMesh ∅ pointMeshes.

(** The values of [for (let i = lo; i <= hi; i++)]. *)
Definition cells (lo hi : Z) : list Z := seqZ lo (hi - lo + 1).

(** The innermost loop of [query], over the meshes of one cell. *)
Definition scanCell (position : Vector3) (radiusSq : R)
    (nearbyMeshes : list Mesh) (cell : list Mesh) : list Mesh :=
  foldl (fun nearbyMeshes mesh =>
           match parent mesh with
           | None => nearbyMeshes
           | Some pointObject =>
               let worldPosition := getWorldPosition pointObject in
               if decide (distanceToSquared position worldPosition < radiusSq)
               then nearbyMeshes ++ [mesh]
               else nearbyMeshes
           end) nearbyMeshes cell.

Definition query (grid : gmap Key (list Mesh)) (position : Vector3)
    (radius : R) : list Mesh :=
  let radiusSq := radius * radius in
  let minX := floor ((x position - radius) / GRID_SIZE) in
  let maxX := floor ((x position + radius) / GRID_SIZE) in
  let minY := floor ((y position - radius) / GRID_SIZE) in
  let maxY := floor ((y position + radius) / GRID_SIZE) in
  let minZ := floor ((z position - radius) / GRID_SIZE) in
  let maxZ := floor ((z position + radius) / GRID_SIZE) in
  foldl (fun nearbyMeshes i =>
    foldl (fun nearbyMeshes j =>
      foldl (fun nearbyMeshes k =>
               let key := keyOf i j k in
               match grid !! key with
               | Some cell => scanCell position radiusSq nearbyMeshes cell
               | None => nearbyMeshes
               end)
            nearbyMeshes (cells minZ maxZ))
      nearbyMeshes (cells minY maxY))
    [] (cells minX maxX).

(** An item lies within [radius] of [position]: it has a position and its
    Euclidean distance to [position] is strictly less than [radius]. *)
Definition withinRadius (position : Vector3) (radius : R) (mesh : Mesh) : Prop :=
  match parent mesh with
  | None => False
  | Some pointObject =>
      distanceTo position (getWorldPosition pointObject) < radius
  end.

#[global] Instance withinRadius_dec (position : Vector3) (radius : R)
    (mesh : Mesh) : Decision (withinRadius position radius mesh).
Proof. unfold withinRadius. destruct (parent mesh); apply _. Defined.

(** The test [query] applies to a mesh, on squared distances. *)
Definition passesTest (position : Vector3) (radiusSq : R) (mesh : Mesh) : Prop :=
  match parent mesh with
  | None => False
  | Some pointObject =>
      distanceToSquared position (getWorldPosition pointObject) < radiusSq
  end.

#[global] Instance passesTest_dec (position : Vector3) (radiusSq : R)
    (mesh : Mesh) : Decision (passesTest position radiusSq mesh).
Proof. unfold passesTest. destruct (parent mesh); apply _. Defined.

(** The cell an item is filed under, if it has a position. *)
Definition meshKey (mesh : Mesh) : option Key :=
  (fun pointObject => getKey (position pointObject)) <$> parent mesh.

(** The meshes [build] files under [key], in their order of arrival. *)
Definition filedUnder (key : Key) (pointMeshes : list Mesh) : list Mesh :=
  filter (fun mesh => meshKey mesh = Some key) pointMeshes.

(** The character occurs in the string. *)
Fixpoint occurs (c : ascii) (s : string) : Prop :=
  match s with
  | EmptyString => False
  | String c' s' => c = c' \/ occurs c s'
  end.

(** The keys [query] visits, in the order of its three loops. *)
Definition visitedKeys (position : Vector3) (radius : R) : list Key :=
  flat_map (fun i =>
    flat_map (fun j =>
      map (fun k => keyOf i j k)
          (cells (floor ((z position - radius) / GRID_SIZE))
                 (floor ((z position + radius) / GRID_SIZE))))
      (cells (floor ((y position - radius) / GRID_SIZE))
             (floor ((y position + radius) / GRID_SIZE))))
    (cells (floor ((x position - radius) / GRID_SIZE))
           (floor ((x position + radius) / GRID_SIZE))).

(** What [query] collects from the cell of one key. *)
Definition cellHits (grid : gmap Key (list Mesh)) (position : Vector3)
    (radiusSq : R) (key : Key) : list Mesh :=
  match grid !! key with
  | Some cell => filter (passesTest position radiusSq) cell
  | None => []
  end.

(** The two items of the scenario of the specification. *)
Definition itemJazz : Mesh :=
  mkMesh 100 (Some (mkObject3D (mkVector3 0 0 0))) "jazz" (mkArray 10 [1; 0]) 0.
Definition itemRock : Mesh :=
  mkMesh 101 (Some (mkObject3D (mkVector3 3 0 0))) "rock" (mkArray 11 [0; 1]) 1.

End Grid.

(** ** points.ts: the high-dimensional neighbour search *)

Module Points.
Import Js Utils.
Local Open Scope R_scope.

(** A high-dimensional vector is a [number[]]; the neighbour search
    compares vectors, and the two lists of vectors, by reference. *)
Definition Vector : Type := JsArray R.

(** The body of the inner loop for one primary vector and one entry
    [[i, pointVector]] of [allVectors.entries()]. *)
Definition visitCandidate (primaryVectors allVectors : JsArray Vector)
    (neighborRadius : R) (primaryVector : Vector)
    (neighborDistances : JsMap R) (entry : nat * Vector) : JsMap R :=
  let '(i, pointVector) := entry in
  if same_object primaryVectors allVectors
     && same_object primaryVector pointVector
  then neighborDistances
  else
    match cosineDistance (elems primaryVector) (elems pointVector) with
    | None => neighborDistances
    | Some distance =>
        if decide (distance <= neighborRadius) then
          match map_get i neighborDistances with
          | None => map_set i distance neighborDistances
          | Some existingDistance =>
              if decide (distance < existingDistance)
              then map_set i distance neighborDistances
              else neighborDistances
          end
        else neighborDistances
    end.

Definition findHighDimensionalNeighbors
    (primaryVectors allVectors : JsArray Vector) (neighborRadius : R)
    : JsMap R :=
  foldl (fun neighborDistances primaryVector =>
           foldl (visitCandidate primaryVectors allVectors neighborRadius
                                 primaryVector)
                 neighborDistances (entries (elems allVectors)))
        [] (elems primaryVectors).

(** The primary vectors a candidate is compared with: all of them,
    except the candidate itself when a list is searched against itself. *)
Definition comparedWith (primaryVectors allVectors : JsArray Vector)
    (pointVector : Vector) : list Vector :=
  filter (fun primaryVector =>
            negb (same_object primaryVectors allVectors
                  && same_object primaryVector pointVector) = true)
         (elems primaryVectors).

(** The distance one comparison contributes: nothing when it is NaN or
    beyond the radius. *)
Definition distanceWithin (neighborRadius : R) (pointVector primaryVector : Vector)
    : option R :=
  distance ← cosineDistance (elems primaryVector) (elems pointVector);
  if decide (distance <= neighborRadius) then Some distance else None.

(** The running minimum the map keeps per index. *)
Definition keepSmaller (existing : option R) (distance : R) : option R :=
  match existing with
  | None => Some distance
  | Some existingDistance =>
      if decide (distance < existingDistance) then Some distance
      else Some existingDistance
  end.

(** The value the map reports for a candidate: the smallest of the
    distances within the radius from the primary vectors it is compared
    with, none when there is no such distance. *)
Definition reported (primaryVectors allVectors : JsArray Vector)
    (neighborRadius : R) (pointVector : Vector) : option R :=
  foldl keepSmaller None
    (omap (distanceWithin neighborRadius pointVector)
          (comparedWith primaryVectors allVectors pointVector)).

(** What the visit of [entry] for [primaryVector] contributes to the
    map entry of index [k]. *)
Definition contribution (primaryVectors allVectors : JsArray Vector)
    (neighborRadius : R) (k : nat) (primaryVector : Vector)
    (entry : nat * Vector) : option R :=
  if decide (fst entry = k) then
    if same_object primaryVectors allVectors
       && same_object primaryVector (snd entry)
    then None
    else distanceWithin neighborRadius (snd entry) primaryVector
  else None.

(** Two orthogonal unit vectors, as two distinct array objects, and the
    list holding both: the input of a search of a list against itself. *)
Definition unitX : Vector := mkArray 10 [1; 0].
Definition unitY : Vector := mkArray 11 [0; 1].
Definition bothUnits : JsArray Vector := mkArray 1 [unitX; unitY].
(** A copy of the list, as [Array.prototype.map] makes one. *)
Definition bothUnitsCopy : JsArray Vector := mkArray 2 [unitX; unitY].

Definition foldContributions (primaryVectors allVectors : JsArray Vector)
    (neighborRadius : R) (k : nat) (primaryVector : Vector)
    (acc : option R) (es : list (nat * Vector)) : option R :=
  foldl (fun acc entry =>
           match contribution primaryVectors allVectors neighborRadius
                              k primaryVector entry with
           | None => acc
           | Some distance => keepSmaller acc distance
           end) acc es.

(** *** The seeded generator and the choice of the embeddings

    The 32-bit operations of [mulberry32] on integers: [ToInt32] and
    [ToUint32] wrap a number into 32 bits, the bit operations work on the
    wrapped values.  The seed itself is a plain number that grows by a
    constant at every call (it stays an exact integer far beyond any run
    of the applet). *)

Local Open Scope Z_scope.

Definition toUint32 (v : Z) : Z := v mod 2 ^ 32.

Definition toInt32 (v : Z) : Z := (v + 2 ^ 31) mod 2 ^ 32 - 2 ^ 31.

(** [a >>> n] *)
Definition ushr (a n : Z) : Z := Z.shiftr (toUint32 a) n.

(** [a ^ b] *)
Definition xor32 (a b : Z) : Z := Z.lxor (toInt32 a) (toInt32 b).

(** [a | b] *)
Definition or32 (a b : Z) : Z := Z.lor (toInt32 a) (toInt32 b).

(** [Math.imul(a, b)] *)
Definition imul (a b : Z) : Z := toInt32 (toInt32 a * toInt32 b).

(** One call of the function [mulberry32(seed)] returns: the new value of
    the captured [seed] and the 32-bit numerator [u] of the result
    [u / 4294967296]. *)
Definition mulberry32 (seed : Z) : Z * Z :=
  let seed := seed + 0x6D2B79F5 in
  let t := seed in
  let t := imul (xor32 t (ushr t 15)) (or32 t 1) in
  let t := xor32 t (t + imul (xor32 t (ushr t 7)) (or32 t 61)) in
  (seed, ushr (xor32 t (ushr t 14)) 0).

(** [[e[i], e[j]] = [e[j], e[i]]] *)
Definition swap {A : Type} (i j : nat) (embeddings : list A) : list A :=
  match embeddings !! i, embeddings !! j with
  | Some ei, Some ej => <[j := ei]> (<[i := ej]> embeddings)
  | _, _ => embeddings
  end.

(** The loop of [shuffleEmbeddings], from index [i] down to 1;
    [Math.floor(rngFn() * (i + 1))] is [u * (i + 1) / 2^32] rounded down
    (the product is exact for arrays of fewer than 2^21 entries). *)
Fixpoint shuffleLoop {A : Type} (i : nat) (seed : Z) (embeddings : list A)
    : Z * list A :=
  match i with
  | O => (seed, embeddings)
  | S i' =>
      let '(seed, u) := mulberry32 seed in
      let j := Z.to_nat (u * Z.of_nat (i + 1)%nat / 2 ^ 32) in
      shuffleLoop i' seed (swap i j embeddings)
  end.

Definition shuffleEmbeddings {A : Type} (seed : Z) (embeddings : list A)
    : Z * list A :=
  shuffleLoop (length embeddings - 1)%nat seed embeddings.

(** An entry of the embeddings cache: [[label, vector]]. *)
Definition Embedding : Type := string * Vector.

(** [generatePointCloudData], up to the projection: the value it returns
    as [selectedEmbeddings], with the seed the generator is left with.
    [embeddingsCache] is the cache in the order of its entries. *)
Definition generatePointCloudData_selectedEmbeddings (seed : Z)
    (embeddingsCache : list Embedding) (pointCount : nat)
    (currentSelectedEmbeddings : list Embedding) : Z * list Embedding :=
  let allEmbeddings := embeddingsCache in
  let selectedEmbeddings := currentSelectedEmbeddings in
  let '(seed, allEmbeddings, selectedEmbeddings) :=
    if decide (length selectedEmbeddings = 0%nat) then
      let '(seed, allEmbeddings) := shuffleEmbeddings seed allEmbeddings in
      (seed, allEmbeddings, take pointCount allEmbeddings)
    else (seed, allEmbeddings, selectedEmbeddings) in
  if decide (pointCount < length selectedEmbeddings)%nat then
    (seed, take pointCount selectedEmbeddings)
  else if decide (length selectedEmbeddings < pointCount)%nat then
    let selectedLabels := map fst selectedEmbeddings in
    let newEmbeddings :=
      take (pointCount - length selectedEmbeddings)%nat
           (filter (fun entry => fst entry ∉ selectedLabels) allEmbeddings) in
    let '(seed, newEmbeddings) := shuffleEmbeddings seed newEmbeddings in
    (seed, selectedEmbeddings ++ newEmbeddings)
  else (seed, selectedEmbeddings).

(** The entries of the cache whose labels are not selected yet. *)
Definition unusedPool (embeddingsCache currentSelectedEmbeddings : list Embedding)
    : list Embedding :=
  filter (fun entry => fst entry ∉ map fst currentSelectedEmbeddings)
         embeddingsCache.

End Points.

(** ** selection.ts: [PointSelector] *)

Module Selection.
Import Js Three Scene Grid Points.
Local Open Scope R_scope.

(** The point cloud as the selector sees it: [getPointMeshes()] and the
    spatial grid built over the meshes when the cloud is created. *)
Record PointCloud : Type := mkPointCloud { pointMeshes : list Mesh }.

Definition querySpatialGrid (pointCloud : PointCloud) (position : Vector3)
    (radius : R) : list Mesh :=
  query (build (pointMeshes pointCloud)) position radius.

(** What a raycast reports as [intersects[i].object]: a point mesh, or an
    object that is no [THREE.Mesh] with a [userData.vector]. *)
Inductive SceneObject : Type :=
| PointMesh (mesh : Mesh)
| OtherObject.

Record ManualSelectionState : Type := mkManualSelectionState {
  primaryMeshes : list Mesh;
  selectionWeights : gmap string R;
  directlyClickedMesh : option Mesh;
  neighborDistances : JsMap R
}.

Record PreservedManualSelection : Type := mkPreservedManualSelection {
  primaryLabels : list string;
  clickedLabel : option string;
  weights : gmap string R
}.

Record Options : Type := mkOptions {
  threeDClickRadius : R;
  cameraProximityRadius : R;
  neighborRadius : R;
  includeHighDimensionalNeighbors : bool
}.

(** The fields of a [PointSelector].  The getter [getPointCloud] is not a
    field: every operation takes the point cloud the getter returns at the
    time of the call, [None] for [null]. *)
Record PointSelector : Type := mkPointSelector {
  manualSelectionState : option ManualSelectionState;
  proximityMeshes : list Mesh;
  proximityWeights : gmap string R;
  options : Options
}.

Definition newPointSelector (options : Options) : PointSelector :=
  mkPointSelector None [] ∅ options.

(** [Partial<Options>]: the options a caller wants changed. *)
Record PartialOptions : Type := mkPartialOptions {
  newThreeDClickRadius : option R;
  newCameraProximityRadius : option R;
  newNeighborRadius : option R;
  newIncludeHighDimensionalNeighbors : option bool
}.

(** [Object.assign(this.options, newOptions)] *)
Definition updateOptions (this : PointSelector) (newOptions : PartialOptions)
    : PointSelector :=
  mkPointSelector (manualSelectionState this) (proximityMeshes this)
    (proximityWeights this)
    (mkOptions
       (default (threeDClickRadius (options this))
                (newThreeDClickRadius newOptions))
       (default (cameraProximityRadius (options this))
                (newCameraProximityRadius newOptions))
       (default (neighborRadius (options this))
                (newNeighborRadius newOptions))
       (default (includeHighDimensionalNeighbors (options this))
                (newIncludeHighDimensionalNeighbors newOptions))).

(** [1 - Math.min(distance, radius) / radius] *)
Definition normalizedWeight (distance radius : R) : R :=
  1 - Rmin distance radius / radius.

(** The arrays [primaryMeshes.map(m => m.userData.vector)] and
    [getPointMeshes().map(m => m.userData.vector)]: two new array objects,
    hence distinct ones. *)
Definition primaryVectorsOf (meshes : list Mesh) : JsArray Vector :=
  mkArray 0 (map vector meshes).
Definition allVectorsOf (meshes : list Mesh) : JsArray Vector :=
  mkArray 1 (map vector meshes).

Definition addNeighborsToWeights (options : Options)
    (pointCloud : option PointCloud) (neighborDistances : JsMap R)
    (selectionWeights : gmap string R) : gmap string R :=
  if negb (includeHighDimensionalNeighbors options) then selectionWeights
  else
    match pointCloud with
    | None => selectionWeights
    | Some pointCloud =>
        foldl (fun selectionWeights '(index, distance) =>
                 match pointMeshes pointCloud !! index with
                 | Some neighborMesh =>
                     if decide (is_Some (selectionWeights !! label neighborMesh))
                     then selectionWeights
                     else
                       let normalizedWeight :=
                         1 - Rmin distance (neighborRadius options)
                             / neighborRadius options in
                       <[label neighborMesh := normalizedWeight]> selectionWeights
                 | None => selectionWeights
                 end)
              selectionWeights neighborDistances
    end.

(** The loop both branches of [selectByClick] run over the point meshes,
    for the ray of the branch. *)
Definition collectAlongRay (searchRay : Ray) (radius : R)
    (meshes : list Mesh) : list Mesh * gmap string R :=
  let radiusSq := radius * radius in
  foldl (fun '(primaryMeshes, selectionWeights) mesh =>
           match parent mesh with
           | None => (primaryMeshes, selectionWeights)
           | Some pointObject =>
               let worldPosition := getWorldPosition pointObject in
               let distanceToRaySq := distanceSqToPoint searchRay worldPosition in
               if decide (distanceToRaySq < radiusSq) then
                 let distance := sqrt distanceToRaySq in
                 (primaryMeshes ++ [mesh],
                  <[label mesh := normalizedWeight distance radius]>
                    selectionWeights)
               else (primaryMeshes, selectionWeights)
           end)
        ([], ∅) meshes.

(** The ray the meshes are measured against and the directly clicked mesh:
    through the mesh that was hit, or the clicked ray when nothing was. *)
Definition searchRayOf (intersects : list SceneObject) (clickedRay : Ray)
    (cameraPosition : Vector3) : option Ray :=
  match intersects with
  | [] => Some clickedRay
  | PointMesh targetMesh :: _ =>
      match parent targetMesh with
      | Some centerPointObject =>
          let centerPosition := getWorldPosition centerPointObject in
          Some (mkRay cameraPosition
                      (normalize (sub centerPosition cameraPosition)))
      | None => None
      end
  | OtherObject :: _ => None
  end.

Definition selectByClick (this : PointSelector)
    (pointCloud : option PointCloud) (intersects : list SceneObject)
    (clickedRay : Ray) (cameraPosition : Vector3) : PointSelector :=
  match pointCloud with
  | None => this
  | Some cloud =>
      let radius := threeDClickRadius (options this) in
      let directlyClickedMesh :=
        match intersects with
        | PointMesh targetMesh :: _ => Some targetMesh
        | _ => None
        end in
      let '(primaryMeshes, selectionWeights) :=
        match intersects with
        | [] => collectAlongRay clickedRay radius (pointMeshes cloud)
        | PointMesh targetMesh :: _ =>
            match parent targetMesh with
            | Some centerPointObject =>
                let centerPosition := getWorldPosition centerPointObject in
                let searchRay :=
                  mkRay cameraPosition
                        (normalize (sub centerPosition cameraPosition)) in
                collectAlongRay searchRay radius (pointMeshes cloud)
            | None => ([], ∅)
            end
        | OtherObject :: _ => ([], ∅)
        end in
      match primaryMeshes with
      | [] =>
          mkPointSelector None (proximityMeshes this) (proximityWeights this)
                          (options this)
      | _ :: _ =>
          let '(neighborDistances, selectionWeights) :=
            if includeHighDimensionalNeighbors (options this) then
              let neighborDistances :=
                findHighDimensionalNeighbors
                  (primaryVectorsOf primaryMeshes)
                  (allVectorsOf (pointMeshes cloud))
                  (neighborRadius (options this)) in
              (neighborDistances,
               addNeighborsToWeights (options this) pointCloud
                                     neighborDistances selectionWeights)
            else ([], selectionWeights) in
          mkPointSelector
            (Some (mkManualSelectionState primaryMeshes selectionWeights
                     directlyClickedMesh neighborDistances))
            (proximityMeshes this) (proximityWeights this) (options this)
      end
  end.

(** The loop of [updateProximitySelection]; a mesh without a parent ends
    the whole update ([return]). *)
Fixpoint proximityLoop (position : Vector3) (radius : R)
    (nearbyMeshes : list Mesh) (proximityMeshes : list Mesh)
    (proximityWeights : gmap string R) : list Mesh * gmap string R :=
  match nearbyMeshes with
  | [] => (proximityMeshes, proximityWeights)
  | mesh :: rest =>
      match parent mesh with
      | None => (proximityMeshes, proximityWeights)
      | Some pointObject =>
          let worldPosition := getWorldPosition pointObject in
          let distanceSq := distanceToSquared position worldPosition in
          if decide (distanceSq < radius * radius) then
            let distance := sqrt distanceSq in
            proximityLoop position radius rest (proximityMeshes ++ [mesh])
              (<[label mesh := normalizedWeight distance radius]>
                 proximityWeights)
          else
            proximityLoop position radius rest proximityMeshes proximityWeights
      end
  end.

Definition updateProximitySelection (this : PointSelector)
    (pointCloud : option PointCloud) (position : Vector3) : PointSelector :=
  let radius := cameraProximityRadius (options this) in
  match pointCloud with
  | None => mkPointSelector (manualSelectionState this) [] ∅ (options this)
  | Some cloud =>
      let nearbyMeshes := querySpatialGrid cloud position radius in
      let '(proximityMeshes, proximityWeights) :=
        proximityLoop position radius nearbyMeshes [] ∅ in
      mkPointSelector (manualSelectionState this) proximityMeshes
                      proximityWeights (options this)
  end.

(** The body of the [for ... in] loop of [getCombinedWeights]. *)
Definition mergeManualWeight (label : string) (manualWeight : R)
    (combinedWeights : gmap string R) : gmap string R :=
  match combinedWeights !! label with
  | None => <[label := manualWeight]> combinedWeights
  | Some current =>
      if decide (manualWeight > current)
      then <[label := manualWeight]> combinedWeights
      else combinedWeights
  end.

Definition getCombinedWeights (this : PointSelector)
    (pointCloud : option PointCloud) : gmap string R :=
  let combinedWeights := proximityWeights this in
  match manualSelectionState this with
  | None => combinedWeights
  | Some state =>
      let combinedWeights :=
        map_fold mergeManualWeight combinedWeights (selectionWeights state) in
      if includeHighDimensionalNeighbors (options this) then
        addNeighborsToWeights (options this) pointCloud
                              (neighborDistances state) combinedWeights
      else combinedWeights
  end.

Definition recalculateNeighbors (this : PointSelector)
    (pointCloud : option PointCloud) : PointSelector :=
  match manualSelectionState this with
  | None => this
  | Some state =>
      if negb (includeHighDimensionalNeighbors (options this)) then
        mkPointSelector
          (Some (mkManualSelectionState (primaryMeshes state)
                   (selectionWeights state) (directlyClickedMesh state) []))
          (proximityMeshes this) (proximityWeights this) (options this)
      else
        match pointCloud with
        | None => this
        | Some cloud =>
            mkPointSelector
              (Some (mkManualSelectionState (primaryMeshes state)
                       (selectionWeights state) (directlyClickedMesh state)
                       (findHighDimensionalNeighbors
                          (primaryVectorsOf (primaryMeshes state))
                          (allVectorsOf (pointMeshes cloud))
                          (neighborRadius (options this)))))
              (proximityMeshes this) (proximityWeights this) (options this)
        end
  end.

Definition getManualPrimaryMeshes (this : PointSelector) : list Mesh :=
  match manualSelectionState this with
  | Some state => primaryMeshes state
  | None => []
  end.

Definition getDirectlyClickedMesh (this : PointSelector) : option Mesh :=
  match manualSelectionState this with
  | Some state => directlyClickedMesh state
  | None => None
  end.

Definition hasManualSelection (this : PointSelector) : bool :=
  match manualSelectionState this with
  | Some _ => true
  | None => false
  end.

Definition getPreservedManualSelection (this : PointSelector)
    : option PreservedManualSelection :=
  match manualSelectionState this with
  | Some state =>
      Some (mkPreservedManualSelection
              (map label (primaryMeshes state))
              (label <$> directlyClickedMesh state)
              (selectionWeights state))
  | None => None
  end.

(** The loop of [restoreManualSelection] over the meshes of the new cloud. *)
Definition matchLabels (preserved : PreservedManualSelection)
    (meshes : list Mesh) : list Mesh * option Mesh :=
  foldl (fun '(newPrimaryMeshes, newClickedMesh) mesh =>
           let newPrimaryMeshes :=
             if decide (label mesh ∈ primaryLabels preserved)
             then newPrimaryMeshes ++ [mesh] else newPrimaryMeshes in
           let newClickedMesh :=
             if decide (Some (label mesh) = clickedLabel preserved)
             then Some mesh else newClickedMesh in
           (newPrimaryMeshes, newClickedMesh))
        ([], None) meshes.

Definition restoreManualSelection (this : PointSelector)
    (preserved : option PreservedManualSelection) (pointCloud : PointCloud)
    : PointSelector :=
  match preserved with
  | None => this
  | Some preserved =>
      let '(newPrimaryMeshes, newClickedMesh) :=
        matchLabels preserved (pointMeshes pointCloud) in
      match newPrimaryMeshes with
      | [] => this
      | _ :: _ =>
          let neighborDistances :=
            if includeHighDimensionalNeighbors (options this) then
              findHighDimensionalNeighbors
                (primaryVectorsOf newPrimaryMeshes)
                (allVectorsOf (pointMeshes pointCloud))
                (neighborRadius (options this))
            else [] in
          mkPointSelector
            (Some (mkManualSelectionState newPrimaryMeshes
                     (weights preserved) newClickedMesh neighborDistances))
            (proximityMeshes this) (proximityWeights this) (options this)
      end
  end.

(** *** Statements about the manual selection *)

(** The test of [selectByClick] for one mesh, on squared distances. *)
Definition nearRay (searchRay : Ray) (radius : R) (mesh : Mesh) : Prop :=
  match parent mesh with
  | None => False
  | Some pointObject =>
      distanceSqToPoint searchRay (getWorldPosition pointObject)
      < radius * radius
  end.

#[global] Instance nearRay_dec (searchRay : Ray) (radius : R) (mesh : Mesh)
  : Decision (nearRay searchRay radius mesh).
Proof. unfold nearRay. destruct (parent mesh); apply _. Defined.

(** The items a call can see: those of the point cloud, none without one. *)
Definition itemsOf (pointCloud : option PointCloud) : list Mesh :=
  match pointCloud with
  | Some cloud => pointMeshes cloud
  | None => []
  end.

(** No item falls within the click radius of the search ray. *)
Definition nothingNear (this : PointSelector) (pointCloud : option PointCloud)
    (intersects : list SceneObject) (clickedRay : Ray)
    (cameraPosition : Vector3) : Prop :=
  forall searchRay mesh,
    searchRayOf intersects clickedRay cameraPosition = Some searchRay ->
    mesh ∈ itemsOf pointCloud ->
    ~ nearRay searchRay (threeDClickRadius (options this)) mesh.


(** A raycast against the points group reports point meshes of the cloud:
    [intersectObjects] is called on the children of the group the meshes
    of [getPointMeshes()] hang under. *)
Definition hitsAreItems (pointCloud : option PointCloud)
    (intersects : list SceneObject) : Prop :=
  forall mesh, PointMesh mesh ∈ intersects -> mesh ∈ itemsOf pointCloud.

(** The states a selector goes through: created with no selection, then
    driven by its operations; [restoreManualSelection] receives what
    [getPreservedManualSelection] returned for a selector state. *)
Inductive Reachable : PointSelector -> Prop :=
| reach_new (options : Options) :
    Reachable (newPointSelector options)
| reach_updateOptions (this : PointSelector) (newOptions : PartialOptions) :
    Reachable this -> Reachable (updateOptions this newOptions)
| reach_selectByClick (this : PointSelector) (pointCloud : option PointCloud)
    (intersects : list SceneObject) (clickedRay : Ray)
    (cameraPosition : Vector3) :
    Reachable this ->
    hitsAreItems pointCloud intersects ->
    Reachable (selectByClick this pointCloud intersects clickedRay
                             cameraPosition)
| reach_updateProximitySelection (this : PointSelector)
    (pointCloud : option PointCloud) (position : Vector3) :
    Reachable this ->
    Reachable (updateProximitySelection this pointCloud position)
| reach_recalculateNeighbors (this : PointSelector)
    (pointCloud : option PointCloud) :
    Reachable this -> Reachable (recalculateNeighbors this pointCloud)
| reach_restoreManualSelection (this source : PointSelector)
    (pointCloud : PointCloud) :
    Reachable this -> Reachable source ->
    Reachable (restoreManualSelection this
                 (getPreservedManualSelection source) pointCloud).

(** The primary meshes and the directly clicked mesh a click determines. *)
Definition primariesOf (this : PointSelector) (cloud : PointCloud)
    (intersects : list SceneObject) (clickedRay : Ray)
    (cameraPosition : Vector3) : list Mesh :=
  match searchRayOf intersects clickedRay cameraPosition with
  | Some searchRay =>
      filter (nearRay searchRay (threeDClickRadius (options this)))
             (pointMeshes cloud)
  | None => []
  end.

Definition clickedOf (intersects : list SceneObject) : option Mesh :=
  match intersects with
  | PointMesh targetMesh :: _ => Some targetMesh
  | _ => None
  end.

(** A ray that passes far from both items of [twoItems]. *)
Definition farRay : Ray := mkRay (mkVector3 0 10 0) (mkVector3 0 0 1).

(** Turning the neighbours off, and nothing else. *)
Definition neighborsOff : PartialOptions :=
  mkPartialOptions None None None (Some false).

(** A re-projection that kept only "jazz": a new mesh, at a new position,
    for the same entry of the embeddings cache. *)
Definition itemJazzAgain : Mesh :=
  mkMesh 200 (Some (mkObject3D (mkVector3 1 2 3))) "jazz" (mkArray 10 [1; 0]) 0.

Definition onlyJazz : PointCloud := mkPointCloud [itemJazzAgain].

(** The labels of the primary meshes of the manual selection. *)
Definition primaryLabelsOf (this : PointSelector) : list string :=
  map label (getManualPrimaryMeshes this).

(** *** The combined weight of a label, source by source *)

(** The larger of the proximity weight and the manual weight, among those
    that are present. *)
Definition strongerOf (proximityWeight manualWeight : option R) : option R :=
  match proximityWeight, manualWeight with
  | Some p, Some m => Some (Rmax p m)
  | Some p, None => Some p
  | None, Some m => Some m
  | None, None => None
  end.

(** The weight derived from the first entry of the neighbour map whose
    mesh carries the label. *)
Fixpoint neighborWeightOf (options : Options) (meshes : list Mesh)
    (neighborDistances : JsMap R) (l : string) : option R :=
  match neighborDistances with
  | [] => None
  | (index, distance) :: rest =>
      match meshes !! index with
      | Some neighborMesh =>
          if decide (label neighborMesh = l)
          then Some (1 - Rmin distance (neighborRadius options)
                         / neighborRadius options)
          else neighborWeightOf options meshes rest l
      | None => neighborWeightOf options meshes rest l
      end
  end.

(** The three sources of [getCombinedWeights] for a label: the proximity
    weight, the manual weight, and the neighbour-derived weight (when
    neighbours are included). *)
Definition proximitySource (this : PointSelector) (l : string) : option R :=
  proximityWeights this !! l.

Definition manualSource (this : PointSelector) (l : string) : option R :=
  state ← manualSelectionState this; selectionWeights state !! l.

Definition neighborSource (this : PointSelector)
    (pointCloud : option PointCloud) (l : string) : option R :=
  state ← manualSelectionState this;
  cloud ← pointCloud;
  if includeHighDimensionalNeighbors (options this)
  then neighborWeightOf (options this) (pointMeshes cloud)
                        (neighborDistances state) l
  else None.

(** The combined weight as the specification words it: the maximum of the
    three weights, a source that does not mention the label counting as 0,
    and no entry when no source mentions the label. *)
Definition specifiedCombinedWeight (this : PointSelector)
    (pointCloud : option PointCloud) (l : string) : option R :=
  match proximitySource this l, manualSource this l,
        neighborSource this pointCloud l with
  | None, None, None => None
  | proximityWeight, manualWeight, neighborWeight =>
      Some (Rmax (Rmax (default 0 proximityWeight) (default 0 manualWeight))
                 (default 0 neighborWeight))
  end.

(** A selector state reached by: a click that hits [itemRock] (click
    radius 1, neighbours off); a proximity update at (0, 0, 4) with
    radius 5; turning neighbours on with radius 2; [recalculateNeighbors]. *)
Definition weightsOptions : Options := mkOptions 1 5 2 true.

Definition twoItems : PointCloud := mkPointCloud [itemJazz; itemRock].

Definition rockClicked : PointSelector :=
  mkPointSelector
    (Some (mkManualSelectionState [itemRock] {["rock" := 1]} (Some itemRock)
             [(0%nat, 1); (1%nat, 0)]))
    [itemJazz] {["jazz" := 1 / 5]} weightsOptions.

(** The squared distance of a mesh to the ray (0 without a position). *)
Definition distanceSqToRay (searchRay : Ray) (mesh : Mesh) : R :=
  match parent mesh with
  | Some pointObject =>
      distanceSqToPoint searchRay (getWorldPosition pointObject)
  | None => 0
  end.

(** The weights a click gives to its primary meshes. *)
Definition weightsAlongRay (searchRay : Ray) (radius : R)
    (primaryMeshes : list Mesh) : gmap string R :=
  foldl (fun selectionWeights mesh =>
           <[label mesh :=
               normalizedWeight (sqrt (distanceSqToRay searchRay mesh)) radius]>
             selectionWeights)
        ∅ primaryMeshes.

(** The ray from (3, 0, 10) straight down to [itemRock]. *)
Definition downRay : Ray := mkRay (mkVector3 3 0 10) (mkVector3 0 0 (-1)).

(** The run that leads to [rockClicked]: the selector is created with the
    neighbours off; a click from (3, 0, 10) hits [itemRock]; the ship is
    at (0, 0, 4) for a proximity update; the neighbours are turned on with
    radius 2; the neighbours are recalculated. *)
Definition startOptions : Options := mkOptions 1 5 (1 / 4) false.

Definition neighborsOn : PartialOptions :=
  mkPartialOptions None None (Some 2) (Some true).

Definition rockClickedRun : PointSelector :=
  let created := newPointSelector startOptions in
  let clicked :=
    selectByClick created (Some twoItems) [PointMesh itemRock] downRay
      (mkVector3 3 0 10) in
  let near :=
    updateProximitySelection clicked (Some twoItems) (mkVector3 0 0 4) in
  recalculateNeighbors (updateOptions near neighborsOn) (Some twoItems).

End Selection.

(** ** labels.ts: [LabelRenderer] *)

Module Labels.
Import Js Three Scene.
Local Open Scope R_scope.

(** What one call of [updateLabelVisibilities] reads from the camera, the
    spaceship and the occlusion hull: the frustum test of the camera
    ([frustum.containsPoint]), the camera position, the world position and
    the world direction of the spaceship, and the raycast against the
    hull, which gives the distance of the first intersection of a ray, if
    there is one. *)
Record View : Type := mkView {
  frustumContainsPoint : Vector3 -> bool;
  cameraPosition : Vector3;
  coneApex : Vector3;
  coneAxis : Vector3;
  firstIntersection : Vector3 -> Vector3 -> option R
}.

(** The renderer: the point meshes, the set of the points whose label is
    shown (a [Set], in insertion order) and, per mesh, the
    [style.visibility] the renderer last gave to its label ([true] for
    ['visible'], [false] for ['hidden'], nothing while the style sheet
    decides, which hides the label). *)
Record LabelRenderer : Type := mkLabelRenderer {
  pointMeshes : list Mesh;
  pointsWithVisibleLabels : list Mesh;
  labelVisibility : gmap nat bool
}.

Definition newLabelRenderer (pointMeshes : list Mesh) : LabelRenderer :=
  mkLabelRenderer pointMeshes [] ∅.

(** Meshes are compared by reference. *)
Definition sameMesh (a b : Mesh) : bool := Nat.eqb (mesh_ref a) (mesh_ref b).

(** [array.includes(mesh)] and [set.has(mesh)] *)
Definition includes (meshes : list Mesh) (mesh : Mesh) : bool :=
  existsb (sameMesh mesh) meshes.

(** [new Set(meshes)]: the first occurrence of every mesh, in order. *)
Definition newSet (meshes : list Mesh) : list Mesh :=
  foldl (fun set mesh => if includes set mesh then set else set ++ [mesh])
        [] meshes.

Definition isOccluded (view : View) (mesh : Mesh) : bool :=
  match parent mesh with
  | None => true
  | Some pointObject =>
      let worldPosition := getWorldPosition pointObject in
      let distanceToCamera := distanceTo worldPosition (cameraPosition view) in
      let direction := normalize (sub worldPosition (cameraPosition view)) in
      match firstIntersection view (cameraPosition view) direction with
      | Some distance => bool_decide (distance < distanceToCamera - 5 / 100)
      | None => false
      end
  end.

(** [getLabel(mesh)]: the label object hangs under the parent of the mesh. *)
Definition hasLabel (mesh : Mesh) : bool :=
  match parent mesh with
  | Some _ => true
  | None => false
  end.

(** [THREE.MathUtils.degToRad] *)
Definition degToRad (degrees : R) : R := degrees * (PI / 180).

(** A candidate: [{mesh, distance}]. *)
Definition Candidate : Type := (Mesh * R)%type.

(** One iteration of the loop that collects the candidates. *)
Definition visitMesh (view : View) (highlightedObjects : list Mesh)
    (labelSelectionAngleTan labelSelectionConeHeight : R)
    (candidates : list Candidate) (mesh : Mesh) : list Candidate :=
  if includes highlightedObjects mesh then candidates
  else
    match parent mesh with
    | None => candidates
    | Some pointObject =>
        let worldPosition := getWorldPosition pointObject in
        if negb (frustumContainsPoint view worldPosition) then candidates
        else
          let toPoint := sub worldPosition (coneApex view) in
          let projection := dot toPoint (coneAxis view) in
          if decide (projection > 0 /\ projection < labelSelectionConeHeight)
          then
            let radiusAtProjection := projection * labelSelectionAngleTan in
            let distanceToAxisSq := lengthSq toPoint - projection * projection in
            if decide (distanceToAxisSq
                       < radiusAtProjection * radiusAtProjection)
            then
              let distanceToCamera :=
                distanceTo worldPosition (cameraPosition view) in
              if negb (isOccluded view mesh)
              then candidates ++ [(mesh, distanceToCamera)]
              else candidates
            else candidates
          else candidates
    end.

(** [candidates.sort((a, b) => a.distance - b.distance)]: the sort is
    stable and the comparison is a total preorder, so the result is the
    stable arrangement by distance, which insertion from the right builds. *)
Fixpoint insertByDistance (candidate : Candidate) (sorted : list Candidate)
    : list Candidate :=
  match sorted with
  | [] => [candidate]
  | first :: rest =>
      if decide (snd first < snd candidate)
      then first :: insertByDistance candidate rest
      else candidate :: sorted
  end.

Definition sortByDistance (candidates : list Candidate) : list Candidate :=
  foldr insertByDistance [] candidates.

(** The loop that hides the labels that leave the visible set. *)
Definition hideLeaving (newVisibleMeshes : list Mesh)
    (visibleBefore : list Mesh) (labelVisibility : gmap nat bool)
    : gmap nat bool :=
  foldl (fun labelVisibility mesh =>
           if negb (includes newVisibleMeshes mesh) && hasLabel mesh
           then <[mesh_ref mesh := false]> labelVisibility
           else labelVisibility)
        labelVisibility visibleBefore.

(** The loop that shows the labels of the visible set. *)
Definition showVisible (newVisibleMeshes : list Mesh)
    (labelVisibility : gmap nat bool) : gmap nat bool :=
  foldl (fun labelVisibility mesh =>
           if hasLabel mesh
           then <[mesh_ref mesh := true]> labelVisibility
           else labelVisibility)
        labelVisibility newVisibleMeshes.

(** The run is skipped: [!force && frameCount % labelUpdateThrottle !== 0]
    (with a throttle of 0 the remainder is NaN, which is not 0). *)
Definition throttled (frameCount labelUpdateThrottle : nat) (force : bool)
    : bool :=
  negb force
  && (Nat.eqb labelUpdateThrottle 0
      || negb (Nat.eqb (frameCount mod labelUpdateThrottle) 0)).

Definition collectCandidates (this : LabelRenderer) (view : View)
    (highlightedObjects : list Mesh)
    (labelSelectionConeDegrees labelSelectionConeHeight : R)
    : list Candidate :=
  let labelSelectionAngleTan := tan (degToRad labelSelectionConeDegrees) in
  foldl (visitMesh view highlightedObjects labelSelectionAngleTan
                   labelSelectionConeHeight)
        [] (pointMeshes this).

Definition updateLabelVisibilities (this : LabelRenderer) (view : View)
    (highlightedObjects : list Mesh) (frameCount labelUpdateThrottle : nat)
    (labelSelectionConeDegrees labelSelectionConeHeight : R)
    (maxInViewLabels : nat) (force : bool) : LabelRenderer :=
  if throttled frameCount labelUpdateThrottle force then this
  else
    let candidates :=
      collectCandidates this view highlightedObjects
                        labelSelectionConeDegrees labelSelectionConeHeight in
    let candidates := sortByDistance candidates in
    let inViewMeshes := newSet (map fst (take maxInViewLabels candidates)) in
    let highlightedObjectsNotOccluded :=
      filter (fun mesh => isOccluded view mesh = false) highlightedObjects in
    let newVisibleMeshes :=
      newSet (inViewMeshes ++ highlightedObjectsNotOccluded) in
    let labelVisibility :=
      hideLeaving newVisibleMeshes (pointsWithVisibleLabels this)
                  (labelVisibility this) in
    let labelVisibility := showVisible newVisibleMeshes labelVisibility in
    mkLabelRenderer (pointMeshes this) newVisibleMeshes labelVisibility.

(** *** Statements *)

(** The tests a mesh that is not highlighted passes to become a
    candidate: it has a position, inside the frustum, inside the forward
    cone of the spaceship, and it is not occluded. *)
Definition inFrustum (view : View) (mesh : Mesh) : Prop :=
  exists pointObject,
    parent mesh = Some pointObject
    /\ frustumContainsPoint view (getWorldPosition pointObject) = true.

Definition inCone (view : View)
    (labelSelectionConeDegrees labelSelectionConeHeight : R) (mesh : Mesh)
    : Prop :=
  exists pointObject,
    parent mesh = Some pointObject
    /\ let toPoint := sub (getWorldPosition pointObject) (coneApex view) in
       let projection := dot toPoint (coneAxis view) in
       0 < projection < labelSelectionConeHeight
       /\ lengthSq toPoint - projection * projection
          < (projection * tan (degToRad labelSelectionConeDegrees))
            * (projection * tan (degToRad labelSelectionConeDegrees)).

(** The distance of a mesh to the camera (0 for a mesh without position,
    which is never a candidate). *)
Definition distanceToCamera (view : View) (mesh : Mesh) : R :=
  match parent mesh with
  | Some pointObject =>
      distanceTo (getWorldPosition pointObject) (cameraPosition view)
  | None => 0
  end.

Definition isCandidate (view : View) (highlightedObjects : list Mesh)
    (labelSelectionConeDegrees labelSelectionConeHeight : R) (mesh : Mesh)
    : Prop :=
  includes highlightedObjects mesh = false
  /\ inFrustum view mesh
  /\ inCone view labelSelectionConeDegrees labelSelectionConeHeight mesh
  /\ isOccluded view mesh = false.

#[global] Instance isCandidate_dec (view : View)
    (highlightedObjects : list Mesh)
    (labelSelectionConeDegrees labelSelectionConeHeight : R) (mesh : Mesh) :
  Decision (isCandidate view highlightedObjects labelSelectionConeDegrees
                        labelSelectionConeHeight mesh).
Proof.
  unfold isCandidate, inFrustum, inCone.
  destruct (parent mesh) as [pointObject|].
  - destruct (decide (includes highlightedObjects mesh = false));
      [|right; tauto].
    destruct (decide (frustumContainsPoint view
                        (getWorldPosition pointObject) = true));
      [|right; intros (_ & (o & [= <-] & ?) & _); contradiction].
    destruct (decide (isOccluded view mesh = false)); [|right; tauto].
    assert (Hdec : Decision
      (let toPoint := sub (getWorldPosition pointObject) (coneApex view) in
       let projection := dot toPoint (coneAxis view) in
       0 < projection < labelSelectionConeHeight
       /\ lengthSq toPoint - projection * projection
          < (projection * tan (degToRad labelSelectionConeDegrees))
            * (projection * tan (degToRad labelSelectionConeDegrees))))
      by (cbv zeta; apply _).
    destruct Hdec as [Hcone|Hcone].
    + left. repeat split; eauto.
    + right. intros (_ & _ & (o & [= <-] & ?) & _). contradiction.
  - right. intros (_ & (o & ? & _) & _). discriminate.
Defined.

(** The two items of the scenario of the specification. *)
Definition itemJazzLabel : Mesh := Grid.itemJazz.
Definition itemRockLabel : Mesh := Grid.itemRock.

(** A view in which everything is inside the frustum and nothing hides
    anything, with camera and spaceship at (0, 0, 10) looking down the
    z axis. *)
Definition openView : View :=
  mkView (fun _ => true) (mkVector3 0 0 10) (mkVector3 0 0 10)
         (mkVector3 0 0 (-1)) (fun _ _ => None).

(** The run is not skipped. *)
Definition runs (frameCount labelUpdateThrottle : nat) (force : bool) : Prop :=
  force = true
  \/ (labelUpdateThrottle <> 0%nat
      /\ (frameCount mod labelUpdateThrottle)%nat = 0%nat).

End Labels.

(** ** The base64 functions of the browser

    [btoa] and [atob] as the HTML standard defines them (forgiving-base64
    encode and decode).  A binary string is the list of its code units; a
    base64 text is a string of 8-bit characters (a character above 255 is
    refused by [atob] like every character outside the alphabet).  A call
    that throws returns [None]. *)

Module Base64.
Import Js.
Local Open Scope N_scope.

Definition alphabet : list ascii :=
  String.list_ascii_of_string
    "ABCDEFGHIJKLMNOPQRSTUVWXYZabcdefghijklmnopqrstuvwxyz0123456789+/".

(** The character of a 6-bit number. *)
Definition char (sextet : N) : ascii := nth (N.to_nat sextet) alphabet "A"%char.

Fixpoint indexOf (c : ascii) (l : list ascii) : option N :=
  match l with
  | [] => None
  | c' :: l' => if Ascii.eqb c c' then Some 0 else N.succ <$> indexOf c l'
  end.

(** The 6-bit number of a character of the alphabet. *)
Definition sextet (c : ascii) : option N := indexOf c alphabet.

(** Three bytes give four characters; one or two bytes left at the end
    give two or three characters and padding. *)
Fixpoint encodeGroups (bytes : list N) : list ascii :=
  match bytes with
  | [] => []
  | [a] => [char (a / 4); char (a mod 4 * 16); "="%char; "="%char]
  | [a; b] =>
      [char (a / 4); char (a mod 4 * 16 + b / 16); char (b mod 16 * 4);
       "="%char]
  | a :: b :: c :: rest =>
      char (a / 4) :: char (a mod 4 * 16 + b / 16)
      :: char (b mod 16 * 4 + c / 64) :: char (c mod 64)
      :: encodeGroups rest
  end.

(** [btoa(binary)]: throws when a code unit is above 255. *)
Definition btoa (binary : list N) : option string :=
  if forallb (fun c => c <=? 255) binary
  then Some (String.string_of_list_ascii (encodeGroups binary))
  else None.

(** ASCII whitespace: tab, line feed, form feed, carriage return, space. *)
Definition isWhitespace (c : ascii) : bool :=
  let n := N_of_ascii c in
  (n =? 9) || (n =? 10) || (n =? 12) || (n =? 13) || (n =? 32).

Definition isEquals (c : ascii) : bool := Ascii.eqb c "="%char.

(** "If data ends with one or two U+003D (=) code points, remove them." *)
Fixpoint removeTrailingEquals (data : list ascii) : list ascii :=
  match data with
  | [] => []
  | c :: rest =>
      if isEquals c
         && match rest with
            | [] => true
            | [d] => isEquals d
            | _ => false
            end
      then []
      else c :: removeTrailingEquals rest
  end.

Fixpoint toSextets (data : list ascii) : option (list N) :=
  match data with
  | [] => Some []
  | c :: rest => s ← sextet c; r ← toSextets rest; Some (s :: r)
  end.

(** Four 6-bit numbers give three bytes; of two or three left at the end,
    the last four or two bits are dropped. *)
Fixpoint decodeGroups (sextets : list N) : list N :=
  match sextets with
  | a :: b :: c :: d :: rest =>
      (a * 4 + b / 16) :: (b mod 16 * 16 + c / 4) :: (c mod 4 * 64 + d)
      :: decodeGroups rest
  | [a; b; c] => [a * 4 + b / 16; b mod 16 * 16 + c / 4]
  | [a; b] => [a * 4 + b / 16]
  | _ => []
  end.

(** [atob(data)]: throws when, whitespace and padding removed, the length
    leaves remainder 1 on division by 4 or a character is not in the
    alphabet. *)
Definition atob (data : string) : option (list N) :=
  let data :=
    filter (fun c => isWhitespace c = false) (String.list_ascii_of_string data) in
  let data :=
    if (N.of_nat (length data) mod 4 =? 0) then removeTrailingEquals data
    else data in
  if (N.of_nat (length data) mod 4 =? 1) then None
  else sextets ← toSextets data; Some (decodeGroups sextets).

(** The 6-bit numbers of a byte sequence, without the padding. *)
Fixpoint sextetsOf (bytes : list N) : list N :=
  match bytes with
  | [] => []
  | [a] => [a / 4; a mod 4 * 16]
  | [a; b] => [a / 4; a mod 4 * 16 + b / 16; b mod 16 * 4]
  | a :: b :: c :: rest =>
      a / 4 :: (a mod 4 * 16 + b / 16) :: (b mod 16 * 4 + c / 64)
      :: c mod 64 :: sextetsOf rest
  end.

End Base64.

(** ** utils.ts: [encode], [decode], [createBlob] *)

Module Codec.
Import Js Base64.

(** A [Uint8Array]. *)
Definition Uint8Array : Type := list Byte.byte.

(** Storing a number into a [Uint8Array]: modulo 256. *)
Definition toUint8 (n : N) : Byte.byte :=
  default Byte.x00 (Byte.of_N (n mod 256)%N).

Definition encode (bytes : Uint8Array) : option string :=
  let binary :=
    foldl (fun binary byte => binary ++ [Byte.to_N byte]) [] bytes in
  btoa binary.

Definition decode (base64 : string) : option Uint8Array :=
  binaryString ← atob base64;
  Some (map toUint8 binaryString).

(** [Math.trunc] on a real: towards zero. *)
Definition truncate (v : R) : Z :=
  if decide (0 <= v)%R then Zfloor v else Zceil v.

(** Storing a number into an [Int16Array]: NaN gives 0; any other number
    is truncated and wrapped into 16 bits. *)
Definition toInt16 (v : num) : Z :=
  match v with
  | None => 0
  | Some r => (truncate r + 2 ^ 15) mod 2 ^ 16 - 2 ^ 15
  end%Z.

(** The array [int16] the loop of [createBlob] fills; a sample of the
    [Float32Array] may be NaN. *)
Definition createBlob_int16 (data : list num) : list Z :=
  map (fun sample : num => toInt16 (r ← sample; Some (r * 32768)%R)) data.

(** [new Uint8Array(int16.buffer)]: two bytes per sample, the low byte
    first (typed arrays have the byte order of the platform, which is
    little-endian wherever browsers run). *)
Definition bytesOfInt16 (sample : Z) : Uint8Array :=
  let unsigned := Z.to_N (sample mod 2 ^ 16) in
  [toUint8 (unsigned mod 256)%N; toUint8 (unsigned / 256)%N].

Record Blob : Type := mkBlob { data : string; mimeType : string }.

Definition createBlob (data : list num) : option Blob :=
  let int16 := createBlob_int16 data in
  encoded ← encode (flat_map bytesOfInt16 int16);
  Some (mkBlob encoded "audio/pcm;rate=16000").

(** The 16-bit number two bytes of the buffer hold. *)
Definition int16OfBytes (low high : Byte.byte) : Z :=
  let unsigned := (Z.of_N (Byte.to_N low) + 256 * Z.of_N (Byte.to_N high))%Z in
  (if decide (unsigned < 2 ^ 15)%Z then unsigned else unsigned - 2 ^ 16)%Z.

End Codec.

(** ** utils.ts: [throttle] *)

Module Throttle.
Local Open Scope R_scope.

(** The state of one throttled function: the variable [lastCall] of the
    closure, and the calls of [func] that are still awaited, each with
    the [now] it was started at, the oldest first. *)
Record Throttled : Type := mkThrottled {
  lastCall : R;
  awaited : list R
}.

(** [throttle(func, delay)] returns a function whose [lastCall] is 0. *)
Definition throttle : Throttled := mkThrottled 0 [].

(** What happens to a throttled function: it is called while [Date.now()]
    is [now]; the promise of the awaited call number [i] resolves, and the
    assignment [lastCall = now] after the [await] runs; or that promise
    rejects, and the assignment is skipped. *)
Inductive Event : Type :=
| Call (now : R)
| Resolved (i : nat)
| Rejected (i : nat).

(** One event: the new state, and whether [func] was called. *)
Definition step (delay : R) (this : Throttled) (event : Event)
    : Throttled * bool :=
  match event with
  | Call now =>
      let timeSinceLastCall := now - lastCall this in
      if decide (timeSinceLastCall >= delay)
      then (mkThrottled (lastCall this) (awaited this ++ [now]), true)
      else (this, false)
  | Resolved i =>
      match awaited this !! i with
      | Some now => (mkThrottled now (delete i (awaited this)), false)
      | None => (this, false)
      end
  | Rejected i => (mkThrottled (lastCall this) (delete i (awaited this)), false)
  end.

(** A run of events: the state at the end and the times at which [func]
    was called, in order. *)
Fixpoint run (delay : R) (this : Throttled) (events : list Event)
    : Throttled * list R :=
  match events with
  | [] => (this, [])
  | event :: rest =>
      let '(next, called) := step delay this event in
      let '(final, times) := run delay next rest in
      (final,
       match event, called with
       | Call now, true => now :: times
       | _, _ => times
       end)
  end.

(** Calls one after the other: every call of [func] has resolved before
    the throttled function is called again. *)
Fixpoint oneAtATime (times : list R) : list Event :=
  match times with
  | [] => []
  | now :: rest => Call now :: Resolved 0 :: oneAtATime rest
  end.

(** Consecutive times are at least [delay] apart. *)
Fixpoint spaced (delay : R) (times : list R) : Prop :=
  match times with
  | first :: (second :: _) as rest =>
      second - first >= delay /\ spaced delay rest
  | _ => True
  end.

End Throttle.

(** ** points.ts: the point cloud data and the meshes made from it *)

Module Cloud.
Import Js Three Scene Grid Points Selection.
Local Open Scope R_scope.

Record PointCloudData : Type := mkPointCloudData {
  position : Vector3;
  label : string;
  highDimVector : Vector;
  index : nat
}.

Section Projection.

(** [umap.fit(highDimData)] with [nComponents: 3]: rows of three
    numbers.  The projection itself is the library's. *)
Variable fit : list Vector -> list (R * R * R).

(** The array [randomEmbedding] built for the selected embedding number
    [k], of [embeddingDimensions] numbers from [Math.random]. *)
Variable randomEmbedding : nat -> nat -> Vector.

(** The callback of [embeddings3D.map]: the entry for row [i].  Where
    [labels[i]] or [highDimData[i]] is undefined the entry is no
    [PointCloudData], and the result is [None]. *)
Definition pointAt (labels : list string) (highDimData : list Vector)
    (i : nat) (pos : R * R * R) : option PointCloudData :=
  label ← labels !! i;
  highDimVector ← highDimData !! i;
  let '(p0, p1, p2) := pos in
  Some (mkPointCloudData (mkVector3 (p0 * 10) (p1 * 10) (p2 * 10))
                         label highDimVector i).

Fixpoint pointsFrom (labels : list string) (highDimData : list Vector)
    (i : nat) (embeddings3D : list (R * R * R))
    : option (list PointCloudData) :=
  match embeddings3D with
  | [] => Some []
  | pos :: rest =>
      point ← pointAt labels highDimData i pos;
      points ← pointsFrom labels highDimData (S i) rest;
      Some (point :: points)
  end.

(** [generatePointCloudData], from the selected embeddings on: the value
    it returns as [data]. *)
Definition pointCloudDataOf (embeddingDimensions : nat)
    (randomizeEmbeddings : bool) (selectedEmbeddings : list Embedding)
    : option (list PointCloudData) :=
  let highDimData :=
    imap (fun k (selected : Embedding) =>
            if randomizeEmbeddings
            then randomEmbedding k embeddingDimensions
            else snd selected)
         selectedEmbeddings in
  let labels := map fst selectedEmbeddings in
  let embeddings3D := fit highDimData in
  pointsFrom labels highDimData 0 embeddings3D.

End Projection.

(** [createMeshes]: one mesh per entry of the data, under a point object
    of its own at the position of the entry; [firstRef] is the first
    address that is free for the new meshes. *)
Definition createMeshes (firstRef : nat) (pointCloudData : list PointCloudData)
    : list Mesh :=
  imap (fun i pointData =>
          mkMesh (firstRef + i)
                 (Some (mkObject3D (position pointData)))
                 (label pointData) (highDimVector pointData) i)
       pointCloudData.

(** [new PointCloud(pointCloudData)] *)
Definition newPointCloud (firstRef : nat)
    (pointCloudData : list PointCloudData) : PointCloud :=
  mkPointCloud (createMeshes firstRef pointCloudData).

End Cloud.

(** ** selection.ts: the getters of [PointSelector] *)

Module Getters.
Import Js Three Scene Grid Points Selection.
Local Open Scope R_scope.

Definition getProximityMeshes (this : PointSelector) : list Mesh :=
  proximityMeshes this.

(** [new Set(neighborDistances.keys())], in the order of the map. *)
Definition getNeighborIndices (this : PointSelector) : list nat :=
  match manualSelectionState this with
  | Some state =>
      if includeHighDimensionalNeighbors (options this)
      then map fst (neighborDistances state)
      else []
  | None => []
  end.

Definition getProximityWeights (this : PointSelector) : gmap string R :=
  proximityWeights this.

Definition getManualSelectionWeights (this : PointSelector) : gmap string R :=
  match manualSelectionState this with
  | Some state => selectionWeights state
  | None => ∅
  end.


End Getters.

(** ** selection.ts: [PointHighlighter] *)

Module Highlight.
Import Js Three Scene Grid Points Selection Labels.
Local Open Scope R_scope.

(** The colours, as the numbers [THREE.Color] is made from. *)
Definition DEFAULT_COLOR : Z := 0x6e6e78.
Definition SELECTED_COLOR : Z := 0xc590df.
Definition PROXIMITY_COLOR : Z := 0xffffff.
Definition DIRECTLY_SELECTED_COLOR : Z := 0xac61d1.
Definition NEIGHBOR_COLOR : Z := 0xdec0ed.
Definition DEFAULT_INTENSITY : R := 1 / 10.
Definition NEIGHBOR_INTENSITY : R := 5 / 100.
Definition PROXIMITY_INTENSITY : R := 75 / 1000.
Definition SELECTED_INTENSITY : R := 8 / 10.

(** What the highlighter writes of a [MeshStandardMaterial]; the
    intensity is NaN when it is computed from a weight that is missing. *)
Record Material : Type := mkMaterial {
  color : Z;
  emissive : Z;
  emissiveIntensity : num
}.

#[global] Instance Material_eq_dec : EqDecision Material.
Proof. solve_decision. Defined.

(** The material [createMeshes] gives to every point mesh. *)
Definition defaultMaterial : Material :=
  mkMaterial DEFAULT_COLOR DEFAULT_COLOR (Some DEFAULT_INTENSITY).

(** The highlighter, with the materials of the meshes it has written to:
    every mesh has a material of its own, a mesh without an entry has the
    material it was created with. *)
Record PointHighlighter : Type := mkPointHighlighter {
  highlightedObjects : list Mesh;
  materials : gmap nat Material
}.

Definition newPointHighlighter : PointHighlighter := mkPointHighlighter [] ∅.

Definition materialOf (this : PointHighlighter) (mesh : Mesh) : Material :=
  default defaultMaterial (materials this !! mesh_ref mesh).

(** [material.color.set(c); material.emissive.set(c);
    material.emissiveIntensity = i] *)
Definition paint (mesh : Mesh) (c : Z) (i : num)
    (materials : gmap nat Material) : gmap nat Material :=
  <[mesh_ref mesh := mkMaterial c c i]> materials.

Definition resetHighlights (this : PointHighlighter) : PointHighlighter :=
  mkPointHighlighter []
    (foldl (fun materials mesh =>
              paint mesh DEFAULT_COLOR (Some DEFAULT_INTENSITY) materials)
           (materials this) (highlightedObjects this)).

Definition getHighlightedObjects (this : PointHighlighter) : list Mesh :=
  highlightedObjects this.

Definition highlightNeighbors (pointCloud : PointCloud)
    (neighborIndices primaryGroupIndices : list nat)
    (this : PointHighlighter) : PointHighlighter :=
  foldl (fun this index =>
           if decide (index ∈ primaryGroupIndices) then this
           else
             match Selection.pointMeshes pointCloud !! index with
             | Some neighborMesh =>
                 mkPointHighlighter
                   (highlightedObjects this ++ [neighborMesh])
                   (paint neighborMesh NEIGHBOR_COLOR (Some NEIGHBOR_INTENSITY)
                          (materials this))
             | None => this
             end)
        this neighborIndices.

(** [mesh === directlyClickedMesh] *)
Definition isClicked (directlyClickedMesh : option Mesh) (mesh : Mesh) : bool :=
  match directlyClickedMesh with
  | Some clicked => sameMesh mesh clicked
  | None => false
  end.

(** [a > b] on weights that may be missing: false when one is. *)
Definition heavier (a b : option R) : bool :=
  match a, b with
  | Some a, Some b => bool_decide (a > b)
  | _, _ => false
  end.

(** The colour and the intensity the loop of [highlightPrimary] computes
    for a mesh. *)
Definition primaryLook (proximityMeshes manualPrimaryMeshes : list Mesh)
    (directlyClickedMesh : option Mesh)
    (proximityWeights manualSelectionWeights : gmap string R) (mesh : Mesh)
    : Z * num :=
  let label := Scene.label mesh in
  let isManual := includes manualPrimaryMeshes mesh in
  let isProximity := includes proximityMeshes mesh in
  if isManual && isProximity then
    let manualWeight := manualSelectionWeights !! label in
    let proximityWeight := proximityWeights !! label in
    if heavier proximityWeight manualWeight then
      (PROXIMITY_COLOR,
       w ← proximityWeight; Some (PROXIMITY_INTENSITY * w))
    else
      (if isClicked directlyClickedMesh mesh
       then DIRECTLY_SELECTED_COLOR else SELECTED_COLOR,
       w ← manualWeight; Some (SELECTED_INTENSITY * w))
  else if isManual then
    let manualWeight := manualSelectionWeights !! label in
    (if isClicked directlyClickedMesh mesh
     then DIRECTLY_SELECTED_COLOR else SELECTED_COLOR,
     w ← manualWeight; Some (SELECTED_INTENSITY * w))
  else
    let proximityWeight := proximityWeights !! label in
    (PROXIMITY_COLOR, w ← proximityWeight; Some (PROXIMITY_INTENSITY * w)).

Definition highlightPrimary (proximityMeshes manualPrimaryMeshes : list Mesh)
    (directlyClickedMesh : option Mesh)
    (proximityWeights manualSelectionWeights : gmap string R)
    (this : PointHighlighter) : PointHighlighter :=
  let allPrimaryMeshes := newSet (proximityMeshes ++ manualPrimaryMeshes) in
  foldl (fun this mesh =>
           let '(color, intensity) :=
             primaryLook proximityMeshes manualPrimaryMeshes
               directlyClickedMesh proximityWeights manualSelectionWeights
               mesh in
           mkPointHighlighter (highlightedObjects this ++ [mesh])
                              (paint mesh color intensity (materials this)))
        this allPrimaryMeshes.

Definition highlightSelection (pointCloud : option PointCloud)
    (proximityMeshes manualPrimaryMeshes : list Mesh)
    (neighborIndices : list nat) (directlyClickedMesh : option Mesh)
    (proximityWeights manualSelectionWeights : gmap string R)
    (this : PointHighlighter) : PointHighlighter :=
  match pointCloud with
  | None => this
  | Some pointCloud =>
      let this := resetHighlights this in
      let allPrimaryMeshes := newSet (proximityMeshes ++ manualPrimaryMeshes) in
      let primaryGroupIndices := map index allPrimaryMeshes in
      let this :=
        highlightNeighbors pointCloud neighborIndices primaryGroupIndices
                           this in
      highlightPrimary proximityMeshes manualPrimaryMeshes directlyClickedMesh
                       proximityWeights manualSelectionWeights this
  end.

(** *** Statements *)

(** Every mesh whose material differs from the one it was created with is
    in the list of the highlighted objects. *)
Definition changedAreListed (this : PointHighlighter) : Prop :=
  forall (r : nat) (material : Material),
    materials this !! r = Some material ->
    material <> defaultMaterial ->
    exists mesh, mesh ∈ highlightedObjects this /\ mesh_ref mesh = r.

(** Every mesh has the material it was created with. *)
Definition allDefault (this : PointHighlighter) : Prop :=
  forall mesh : Mesh, materialOf this mesh = defaultMaterial.

(** The meshes [highlightNeighbors] paints: those of the neighbour
    indices that are not indices of primary meshes and are indices of the
    point cloud. *)
Definition neighborMeshesOf (pointCloud : PointCloud)
    (neighborIndices primaryGroupIndices : list nat) : list Mesh :=
  omap (fun index =>
          if decide (index ∈ primaryGroupIndices) then None
          else Selection.pointMeshes pointCloud !! index)
       neighborIndices.

(** The material of a colour and an intensity. *)
Definition look (painted : Z * num) : Material :=
  mkMaterial (fst painted) (fst painted) (snd painted).

End Highlight.

(** ** space.ts: the weights the component dispatches *)

Module Space.
Import Js Three Scene Grid Points Selection Labels Getters Highlight.
Local Open Scope R_scope.

Definition MAX_PROMPTS : nat := 10.
Definition MIN_PROMPT_WEIGHT : R := 1 / 10.
Definition HIGHLIGHT_UPDATE_THROTTLE : nat := 3.

(** [entries.sort((a, b) => b[1] - a[1])]: the stable arrangement by
    weight, the largest first, which insertion from the right builds. *)
Fixpoint insertByWeight (entry : string * R) (sorted : list (string * R))
    : list (string * R) :=
  match sorted with
  | [] => [entry]
  | first :: rest =>
      if decide (snd first > snd entry)
      then first :: insertByWeight entry rest
      else entry :: sorted
  end.

Definition sortByWeight (entries : list (string * R)) : list (string * R) :=
  foldr insertByWeight [] entries.

(** The entries of [filteredWeights], before [Object.fromEntries], from
    the entries of the combined weights in the order [Object.entries]
    lists them. *)
Definition filteredEntries (entries : list (string * R))
    : list (string * R) :=
  take MAX_PROMPTS
    (sortByWeight (filter (fun entry => snd entry >= MIN_PROMPT_WEIGHT) entries)).

(** [Object.fromEntries]: the entries are set one after the other. *)
Definition fromEntries (entries : list (string * R)) : gmap string R :=
  foldl (fun object entry => <[fst entry := snd entry]> object) ∅ entries.

Definition haveWeightsChanged (oldWeights : option (gmap string R))
    (newWeights : gmap string R) : bool :=
  match oldWeights with
  | None => bool_decide (0 < size newWeights)%nat
  | Some oldWeights =>
      if bool_decide (size oldWeights <> size newWeights) then true
      else
        negb (bool_decide
                (map_Forall (fun key weight => oldWeights !! key = Some weight)
                            newWeights))
  end.

(** The part of the component [updateAndRenderHighlights] reads and
    writes; [sceneReady] stands for [this.sceneRenderer && this.spaceship],
    [spaceshipPosition] for the position of the spaceship mesh. *)
Record SpaceComponent : Type := mkSpaceComponent {
  sceneReady : bool;
  frameCount : nat;
  spaceshipPosition : Vector3;
  pointCloud : option PointCloud;
  pointSelector : PointSelector;
  pointHighlighter : PointHighlighter;
  lastDispatchedWeights : option (gmap string R)
}.

Section Dispatch.

(** [Object.entries] lists the entries of an object in the order its keys
    were added; a map of weights does not record that order, so the order
    is a parameter. *)
Variable objectEntries : gmap string R -> list (string * R).

Definition filteredWeights (combinedWeights : gmap string R)
    : gmap string R :=
  fromEntries (filteredEntries (objectEntries combinedWeights)).

(** [updateAndRenderHighlights(force)]: the component afterwards and the
    [promptWeights] of the 'prompts-selected' events it dispatched. *)
Definition updateAndRenderHighlights (this : SpaceComponent) (force : bool)
    : SpaceComponent * list (gmap string R) :=
  if negb (sceneReady this) then (this, [])
  else if negb force
          && negb (Nat.eqb (frameCount this mod HIGHLIGHT_UPDATE_THROTTLE) 0)
  then (this, [])
  else
    let pointSelector :=
      updateProximitySelection (pointSelector this) (pointCloud this)
                               (spaceshipPosition this) in
    let combinedWeights := getCombinedWeights pointSelector (pointCloud this) in
    if Nat.eqb (size combinedWeights) 0
       && negb (hasManualSelection pointSelector)
    then
      let pointHighlighter :=
        if Nat.ltb 0 (List.length (getHighlightedObjects (pointHighlighter this)))
        then resetHighlights (pointHighlighter this)
        else pointHighlighter this in
      match lastDispatchedWeights this with
      | Some weights =>
          if Nat.ltb 0 (size weights) then
            (mkSpaceComponent (sceneReady this) (frameCount this)
               (spaceshipPosition this) (pointCloud this) pointSelector
               pointHighlighter (Some ∅),
             [∅])
          else
            (mkSpaceComponent (sceneReady this) (frameCount this)
               (spaceshipPosition this) (pointCloud this) pointSelector
               pointHighlighter (lastDispatchedWeights this),
             [])
      | None =>
          (mkSpaceComponent (sceneReady this) (frameCount this)
             (spaceshipPosition this) (pointCloud this) pointSelector
             pointHighlighter (lastDispatchedWeights this),
           [])
      end
    else
      let pointHighlighter :=
        highlightSelection (pointCloud this)
          (getProximityMeshes pointSelector)
          (getManualPrimaryMeshes pointSelector)
          (getNeighborIndices pointSelector)
          (getDirectlyClickedMesh pointSelector)
          (getProximityWeights pointSelector)
          (getManualSelectionWeights pointSelector)
          (pointHighlighter this) in
      let filteredWeights := filteredWeights combinedWeights in
      if haveWeightsChanged (lastDispatchedWeights this) filteredWeights then
        (mkSpaceComponent (sceneReady this) (frameCount this)
           (spaceshipPosition this) (pointCloud this) pointSelector
           pointHighlighter (Some filteredWeights),
         [filteredWeights])
      else
        (mkSpaceComponent (sceneReady this) (frameCount this)
           (spaceshipPosition this) (pointCloud this) pointSelector
           pointHighlighter (lastDispatchedWeights this),
         []).

(** The life of a component: it starts with nothing dispatched;
    [updateAndRenderHighlights] runs, with or without [force]; anything
    else that happens leaves [lastDispatchedWeights] alone (no other
    method writes it).  The list holds what was dispatched so far. *)
Inductive Dispatched : SpaceComponent -> list (gmap string R) -> Prop :=
| dispatched_start (this : SpaceComponent) :
    lastDispatchedWeights this = None -> Dispatched this []
| dispatched_update (this : SpaceComponent) (events : list (gmap string R))
    (force : bool) :
    Dispatched this events ->
    Dispatched (fst (updateAndRenderHighlights this force))
               (events ++ snd (updateAndRenderHighlights this force))
| dispatched_other (this other : SpaceComponent)
    (events : list (gmap string R)) :
    Dispatched this events ->
    lastDispatchedWeights other = lastDispatchedWeights this ->
    Dispatched other events.

End Dispatch.

(** No two events in a row carry the same weights. *)
Fixpoint noRepeat (events : list (gmap string R)) : Prop :=
  match events with
  | first :: (second :: _) as rest => first <> second /\ noRepeat rest
  | _ => True
  end.

End Space.

(** ** labels.ts: the renderer over its life *)

Module LabelRuns.
Import Js Three Scene Labels.
Local Open Scope R_scope.

(** The states of a renderer: made for point meshes that are distinct
    objects, then updated with highlighted objects that are meshes of the
    point cloud (the highlighter lists meshes of the cloud). *)
Inductive Rendered : LabelRenderer -> Prop :=
| rendered_new (pointMeshes : list Mesh) :
    NoDup (map mesh_ref pointMeshes) ->
    Rendered (newLabelRenderer pointMeshes)
| rendered_update (this : LabelRenderer) (view : View)
    (highlightedObjects : list Mesh) (frameCount labelUpdateThrottle : nat)
    (labelSelectionConeDegrees labelSelectionConeHeight : R)
    (maxInViewLabels : nat) (force : bool) :
    Rendered this ->
    (forall mesh, mesh ∈ highlightedObjects -> mesh ∈ pointMeshes this) ->
    Rendered (updateLabelVisibilities this view highlightedObjects frameCount
                labelUpdateThrottle labelSelectionConeDegrees
                labelSelectionConeHeight maxInViewLabels force).

End LabelRuns.

(** ** Inputs the properties are run on *)

Module Examples.
Import Js Three Scene Grid Utils Points Selection Labels.
Import Getters Highlight Space LabelRuns Codec.
Local Open Scope R_scope.

(** A cache of three embeddings. *)
Definition smallCache : list Embedding :=
  [("jazz", unitX); ("rock", unitY); ("folk", mkArray 12 [1; 1])].


(** A component that is ready, with the ship at (0, 0, 4) near "jazz". *)
Definition shipNearJazz : SpaceComponent :=
  mkSpaceComponent true 0 (mkVector3 0 0 4) (Some twoItems)
    (newPointSelector startOptions) newPointHighlighter None.

(** A projection that puts every point at the origin. *)
Definition flatFit (highDimData : list Vector) : list (R * R * R) :=
  map (fun _ => (0, 0, 0)) highDimData.

End Examples.

(* ================================================================== *)
(** * Properties *)
(* ================================================================== *)

(** ** JavaScript maps *)

Module JsFacts.
Import Js.

Lemma map_get_set_eq {V : Type} (k : nat) (v : V) (m : JsMap V) :
  map_get k (map_set k v m) = Some v.
Proof.
  induction m as [|[k' v'] m IH]; simpl.
  - rewrite Nat.eqb_refl. reflexivity.
  - destruct (Nat.eqb k k') eqn:E; simpl; rewrite ?Nat.eqb_refl, ?E; auto.
Qed.

Lemma map_get_set_ne {V : Type} (k k' : nat) (v : V) (m : JsMap V) :
  k <> k' -> map_get k' (map_set k v m) = map_get k' m.
Proof.
  intros Hne. induction m as [|[k0 v0] m IH]; simpl.
  - destruct (Nat.eqb_spec k' k); [congruence | reflexivity].
  - destruct (Nat.eqb_spec k k0) as [->|Hk]; simpl.
    + destruct (Nat.eqb_spec k' k0); [congruence | reflexivity].
    + destruct (Nat.eqb_spec k' k0); [reflexivity | apply IH].
Qed.

Lemma map_get_set {V : Type} (k k' : nat) (v : V) (m : JsMap V) :
  map_get k' (map_set k v m) = if decide (k = k') then Some v else map_get k' m.
Proof.
  destruct (decide (k = k')) as [->|Hne].
  - apply map_get_set_eq.
  - apply map_get_set_ne; assumption.
Qed.

Lemma elem_of_entries {A : Type} (l : list A) (i : nat) (x : A) :
  (i, x) ∈ entries l <-> l !! i = Some x.
Proof.
  unfold entries. rewrite elem_of_lookup_imap. split.
  - intros (j & y & Heq & Hy). inversion Heq; subst. assumption.
  - intros H. exists i, x. auto.
Qed.

End JsFacts.

(** ** Cosine distance *)

Module UtilsFacts.
Import Js Utils.
Local Open Scope R_scope.

Lemma reduce_squares_from (vec : list R) : forall (i : nat) (acc : R),
  reduce_from (fun (sum : R) (a : R) (_ : nat) => sum + a * a) i vec acc
  = acc + sum_squares vec.
Proof.
  induction vec as [|x vec IH]; intros i acc; simpl.
  - unfold sum_squares; simpl; lra.
  - rewrite IH. unfold sum_squares; simpl; lra.
Qed.

Lemma magnitude_sum_squares (vec : list R) :
  magnitude vec = sqrt (sum_squares vec).
Proof.
  unfold magnitude, reduce. rewrite reduce_squares_from. f_equal; lra.
Qed.

Lemma reduce_dot_from (vecA : list R) : forall (vecB : list R) (i : nat) (acc : R),
  length vecA = length (drop i vecB) ->
  reduce_from (fun (sum : num) (a : R) (i : nat) =>
                 s ← sum; b ← vecB !! i; Some (s + a * b))
              i vecA (Some acc)
  = Some (acc + sum_products vecA (drop i vecB)).
Proof.
  induction vecA as [|x vecA IH]; intros vecB i acc Hlen; simpl.
  - destruct (drop i vecB); simpl; f_equal; lra.
  - destruct (drop i vecB) as [|y rest] eqn:Hd; [discriminate|].
    assert (Hi : vecB !! i = Some y).
    { pose proof (lookup_drop vecB i 0) as E.
      rewrite Hd, Nat.add_0_r in E. symmetry; exact E. }
    assert (Hrest : drop (S i) vecB = rest).
    { replace (S i) with (1 + i)%nat by lia.
      rewrite Nat.add_comm, <- drop_drop, Hd. reflexivity. }
    rewrite Hi. simpl. rewrite IH.
    + rewrite Hrest. f_equal; lra.
    + rewrite Hrest. simpl in Hlen. lia.
Qed.

Lemma dotProduct_sum (vecA vecB : list R) :
  length vecA = length vecB ->
  dotProduct vecA vecB = Some (sum_products vecA vecB).
Proof.
  intros Hlen. unfold dotProduct, reduce.
  rewrite reduce_dot_from; rewrite drop_0; [f_equal; lra | exact Hlen].
Qed.

Lemma sum_products_comm (a : list R) : forall b : list R,
  sum_products a b = sum_products b a.
Proof.
  induction a as [|x a IH]; intros [|y b]; simpl; try reflexivity.
  rewrite IH. lra.
Qed.

Lemma sum_squares_nonneg (a : list R) : 0 <= sum_squares a.
Proof.
  unfold sum_squares. induction a as [|x a IH]; simpl; [lra|]. nra.
Qed.




Lemma magnitude_sqr (a : list R) :
  magnitude a * magnitude a = sum_squares a.
Proof.
  rewrite magnitude_sum_squares. apply sqrt_sqrt, sum_squares_nonneg.
Qed.


Lemma cosineDistance_zero_magnitude (vecA vecB : list R) :
  magnitude vecA = 0 \/ magnitude vecB = 0 ->
  cosineDistance vecA vecB = Some 1.
Proof.
  intros H. unfold cosineDistance.
  destruct (decide _) as [_|n]; [reflexivity | contradiction].
Qed.

Lemma cosineDistance_value (vecA vecB : list R) :
  length vecA = length vecB ->
  magnitude vecA <> 0 -> magnitude vecB <> 0 ->
  cosineDistance vecA vecB
  = Some (1 - sum_products vecA vecB / (magnitude vecA * magnitude vecB)).
Proof.
  intros Hlen HA HB. unfold cosineDistance.
  destruct (decide _) as [[H|H]|_]; [contradiction..|].
  rewrite dotProduct_sum by assumption. reflexivity.
Qed.

Lemma cosineDistance_sym (vecA vecB : list R) :
  length vecA = length vecB ->
  cosineDistance vecA vecB = cosineDistance vecB vecA.
Proof.
  intros Hlen.
  destruct (Req_dec_T (magnitude vecA) 0) as [HA|HA].
  { rewrite !cosineDistance_zero_magnitude; auto. }
  destruct (Req_dec_T (magnitude vecB) 0) as [HB|HB].
  { rewrite !cosineDistance_zero_magnitude; auto. }
  rewrite !cosineDistance_value by auto.
  rewrite (sum_products_comm vecB vecA).
  rewrite (Rmult_comm (magnitude vecB)). reflexivity.
Qed.

Lemma cosineDistance_self (vecA : list R) :
  magnitude vecA <> 0 -> cosineDistance vecA vecA = Some 0.
Proof.
  intros HA. rewrite cosineDistance_value by auto.
  fold (sum_squares vecA). rewrite <- magnitude_sqr.
  f_equal. field. assumption.
Qed.





End UtilsFacts.

(** ** High-dimensional neighbours *)

Module PointsFacts.
Import Js Utils Points JsFacts UtilsFacts.
Local Open Scope R_scope.

Section Search.
Variables primaryVectors allVectors : JsArray Vector.
Variable neighborRadius : R.

Local Abbreviation contribution :=
  (Points.contribution primaryVectors allVectors neighborRadius).
Local Abbreviation foldContributions :=
  (Points.foldContributions primaryVectors allVectors neighborRadius).

Lemma contribution_other (k : nat) (primaryVector : Vector)
    (entry : nat * Vector) :
  fst entry <> k -> contribution k primaryVector entry = None.
Proof.
  intros Hne. unfold Points.contribution.
  destruct (decide (fst entry = k)); [contradiction | reflexivity].
Qed.

Lemma visitCandidate_get (primaryVector : Vector) (nd : JsMap R)
    (entry : nat * Vector) (k : nat) :
  map_get k (visitCandidate primaryVectors allVectors neighborRadius
                            primaryVector nd entry)
  = match contribution k primaryVector entry with
    | None => map_get k nd
    | Some distance => keepSmaller (map_get k nd) distance
    end.
Proof.
  destruct entry as [i pointVector].
  unfold visitCandidate, Points.contribution, distanceWithin; simpl.
  destruct (same_object primaryVectors allVectors
            && same_object primaryVector pointVector).
  { destruct (decide (i = k)); reflexivity. }
  destruct (cosineDistance _ _) as [distance|]; simpl.
  2: { destruct (decide (i = k)); reflexivity. }
  destruct (decide (distance <= neighborRadius)).
  2: { destruct (decide (i = k)); reflexivity. }
  destruct (decide (i = k)) as [->|Hne].
  - unfold keepSmaller.
    destruct (map_get k nd) as [e|] eqn:Hget.
    + destruct (decide (distance < e)).
      * apply map_get_set_eq.
      * assumption.
    + apply map_get_set_eq.
  - destruct (map_get i nd) as [e|].
    + destruct (decide (distance < e)); [|reflexivity].
      apply map_get_set_ne; assumption.
    + apply map_get_set_ne; assumption.
Qed.

Lemma inner_loop_get (primaryVector : Vector) (k : nat)
    (es : list (nat * Vector)) : forall nd : JsMap R,
  map_get k (foldl (visitCandidate primaryVectors allVectors
                      neighborRadius primaryVector) nd es)
  = foldContributions k primaryVector (map_get k nd) es.
Proof.
  unfold Points.foldContributions.
  induction es as [|e es IH]; intros nd; simpl; [reflexivity|].
  rewrite IH, visitCandidate_get. reflexivity.
Qed.

(** Among the entries of an array only the one at index [k] counts. *)
Lemma foldContributions_entries (primaryVector : Vector) (k : nat)
    (acc : option R) (l : list Vector) :
  foldContributions k primaryVector acc (entries l)
  = match l !! k with
    | None => acc
    | Some pointVector =>
        match contribution k primaryVector (k, pointVector) with
        | None => acc
        | Some distance => keepSmaller acc distance
        end
    end.
Proof.
  unfold Points.foldContributions, entries.
  assert (G : forall (l : list Vector) (off : nat) (acc : option R),
    foldl (fun acc entry =>
             match contribution k primaryVector entry with
             | None => acc
             | Some distance => keepSmaller acc distance
             end) acc (imap (fun i x => (off + i, x)%nat) l)
    = match (if decide (off <= k)%nat then l !! (k - off)%nat else None) with
      | None => acc
      | Some pointVector =>
          match contribution k primaryVector (k, pointVector) with
          | None => acc
          | Some distance => keepSmaller acc distance
          end
      end).
  { clear l acc. induction l as [|x l IH]; intros off acc; simpl.
    - destruct (decide (off <= k)%nat); reflexivity.
    - rewrite (imap_ext _ (fun i x => (S off + i, x)%nat) l)
        by (intros; simpl; f_equal; lia).
      rewrite IH. rewrite Nat.add_0_r.
      destruct (decide (off = k)) as [E|E].
      + subst off.
        destruct (decide (S k <= k)%nat); [lia|].
        destruct (decide (k <= k)%nat); [|lia].
        rewrite Nat.sub_diag. reflexivity.
      + rewrite (contribution_other k primaryVector (off, x)) by exact E.
        destruct (decide (S off <= k)%nat) as [L|L].
        * destruct (decide (off <= k)%nat); [|lia].
          replace (k - off)%nat with (S (k - S off)) by lia.
          reflexivity.
        * destruct (decide (off <= k)%nat); [lia|]. reflexivity. }
  specialize (G l 0%nat acc). simpl in G.
  rewrite Nat.sub_0_r in G.
  destruct (decide (0 <= k)%nat); [|lia]. exact G.
Qed.

Lemma outer_loop_get (k : nat) (ps : list Vector) : forall nd : JsMap R,
  map_get k (foldl (fun nd primaryVector =>
                      foldl (visitCandidate primaryVectors allVectors
                               neighborRadius primaryVector)
                            nd (entries (elems allVectors))) nd ps)
  = foldl (fun acc primaryVector =>
             foldContributions k primaryVector acc (entries (elems allVectors)))
          (map_get k nd) ps.
Proof.
  induction ps as [|primaryVector ps IH]; intros nd; simpl; [reflexivity|].
  rewrite IH, inner_loop_get. reflexivity.
Qed.

Lemma foldl_unchanged {A B : Type} (f : A -> B -> A) (l : list B) (a : A) :
  (forall a x, f a x = a) -> foldl f a l = a.
Proof.
  intros Hf. revert a. induction l as [|x l IH]; intros a; simpl; [reflexivity|].
  rewrite Hf. apply IH.
Qed.

Lemma contributions_compared (k : nat) (pointVector : Vector)
    (ps : list Vector) : forall acc : option R,
  foldl (fun acc primaryVector =>
           match contribution k primaryVector (k, pointVector) with
           | None => acc
           | Some distance => keepSmaller acc distance
           end) acc ps
  = foldl keepSmaller acc
      (omap (distanceWithin neighborRadius pointVector)
         (filter (fun primaryVector =>
                    negb (same_object primaryVectors allVectors
                          && same_object primaryVector pointVector) = true)
                 ps)).
Proof.
  induction ps as [|primaryVector ps IH]; intros acc; simpl; [reflexivity|].
  rewrite IH. unfold Points.contribution; simpl.
  destruct (decide (k = k)); [|congruence].
  rewrite filter_cons.
  destruct (same_object primaryVectors allVectors
            && same_object primaryVector pointVector); simpl.
  - destruct (decide (false = true)); [discriminate | reflexivity].
  - destruct (decide (true = true)); [|congruence]. simpl.
    destruct (distanceWithin neighborRadius pointVector primaryVector);
      reflexivity.
Qed.

(** The map the search returns, entry by entry. *)
Lemma findHighDimensionalNeighbors_get (k : nat) :
  map_get k (findHighDimensionalNeighbors primaryVectors allVectors
               neighborRadius)
  = match elems allVectors !! k with
    | None => None
    | Some pointVector =>
        reported primaryVectors allVectors neighborRadius pointVector
    end.
Proof.
  unfold findHighDimensionalNeighbors. rewrite outer_loop_get. simpl.
  destruct (elems allVectors !! k) as [pointVector|] eqn:Hk.
  - unfold reported, comparedWith. rewrite <- (contributions_compared k).
    generalize (@None R) as acc.
    induction (elems primaryVectors) as [|primaryVector ps IH]; intros acc;
      simpl; [reflexivity|].
    rewrite foldContributions_entries, Hk. apply IH.
  - apply foldl_unchanged. intros acc primaryVector.
    rewrite foldContributions_entries, Hk. reflexivity.
Qed.

End Search.

Lemma foldl_keepSmaller_spec (ds : list R) : forall acc : option R,
  match foldl keepSmaller acc ds with
  | None => acc = None /\ ds = []
  | Some m =>
      (acc = Some m \/ m ∈ ds)
      /\ (forall e, acc = Some e -> m <= e)
      /\ (forall d, d ∈ ds -> m <= d)
  end.
Proof.
  induction ds as [|d ds IH]; intros acc; simpl.
  - destruct acc as [e|]; [|split; reflexivity].
    split; [left; reflexivity|]. split.
    + intros e' [= <-]. lra.
    + intros d Hd. inversion Hd.
  - specialize (IH (keepSmaller acc d)).
    destruct (foldl keepSmaller (keepSmaller acc d) ds) as [m|].
    + destruct IH as (Hin & Hacc & Hds).
      unfold keepSmaller in Hin, Hacc.
      destruct acc as [e|].
      * destruct (decide (d < e)) as [Hlt|Hge].
        -- split; [|split].
           ++ right. destruct Hin as [[= <-]|Hin];
                [apply list_elem_of_here | apply list_elem_of_further, Hin].
           ++ intros e' [= <-]. specialize (Hacc d eq_refl). lra.
           ++ intros d' Hd'. apply elem_of_cons in Hd' as [->|Hd'];
                [apply Hacc; reflexivity | apply Hds, Hd'].
        -- split; [|split].
           ++ destruct Hin as [[= <-]|Hin];
                [left; reflexivity | right; apply list_elem_of_further, Hin].
           ++ intros e' [= <-]. apply Hacc; reflexivity.
           ++ intros d' Hd'. apply elem_of_cons in Hd' as [->|Hd'];
                [specialize (Hacc e eq_refl); lra | apply Hds, Hd'].
      * split; [|split].
        -- right. destruct Hin as [[= <-]|Hin];
             [apply list_elem_of_here | apply list_elem_of_further, Hin].
        -- intros e [=].
        -- intros d' Hd'. apply elem_of_cons in Hd' as [->|Hd'];
             [apply Hacc; reflexivity | apply Hds, Hd'].
    + destruct IH as [Hk _]. unfold keepSmaller in Hk.
      destruct acc as [e|]; [destruct (decide (d < e))|]; discriminate.
Qed.

Lemma distanceWithin_Some (neighborRadius : R) (pointVector primaryVector : Vector)
    (d : R) :
  distanceWithin neighborRadius pointVector primaryVector = Some d
  <-> cosineDistance (elems primaryVector) (elems pointVector) = Some d
      /\ d <= neighborRadius.
Proof.
  unfold distanceWithin.
  destruct (cosineDistance _ _) as [d'|]; simpl.
  - destruct (decide (d' <= neighborRadius)); split.
    + intros [= <-]. auto.
    + intros [[= <-] _]. reflexivity.
    + discriminate.
    + intros [[= <-] ?]. contradiction.
  - split; [discriminate | intros [? _]; discriminate].
Qed.

Lemma elem_of_comparedWith (primaryVectors allVectors : JsArray Vector)
    (pointVector primaryVector : Vector) :
  primaryVector ∈ comparedWith primaryVectors allVectors pointVector
  <-> primaryVector ∈ elems primaryVectors
      /\ ~ (ref primaryVectors = ref allVectors
            /\ ref primaryVector = ref pointVector).
Proof.
  unfold comparedWith. rewrite list_elem_of_filter.
  unfold same_object.
  destruct (Nat.eqb_spec (ref primaryVectors) (ref allVectors));
    destruct (Nat.eqb_spec (ref primaryVector) (ref pointVector)); simpl;
    intuition congruence.
Qed.

(** The reported value is a distance to a compared primary vector, within
    the radius, and no compared primary vector is closer. *)
Lemma reported_Some (primaryVectors allVectors : JsArray Vector)
    (neighborRadius : R) (pointVector : Vector) (d : R) :
  reported primaryVectors allVectors neighborRadius pointVector = Some d ->
  d <= neighborRadius
  /\ (exists primaryVector,
        primaryVector ∈ comparedWith primaryVectors allVectors pointVector
        /\ cosineDistance (elems primaryVector) (elems pointVector) = Some d)
  /\ (forall primaryVector d',
        primaryVector ∈ comparedWith primaryVectors allVectors pointVector ->
        cosineDistance (elems primaryVector) (elems pointVector) = Some d' ->
        d <= d').
Proof.
  unfold reported. intros Hrep.
  pose proof (foldl_keepSmaller_spec
    (omap (distanceWithin neighborRadius pointVector)
          (comparedWith primaryVectors allVectors pointVector)) None) as Hspec.
  rewrite Hrep in Hspec. destruct Hspec as ([Habs|Hin] & _ & Hmin);
    [discriminate|].
  apply list_elem_of_omap in Hin as (primaryVector & Hp & Hw).
  apply distanceWithin_Some in Hw as [Hcos Hle].
  split; [assumption|]. split; [exists primaryVector; auto|].
  intros q d' Hq Hd'.
  destruct (Rle_dec d' neighborRadius) as [Hin'|Hout]; [|lra].
  apply Hmin. apply list_elem_of_omap. exists q. split; [assumption|].
  apply distanceWithin_Some. auto.
Qed.

Lemma reported_None (primaryVectors allVectors : JsArray Vector)
    (neighborRadius : R) (pointVector : Vector) :
  reported primaryVectors allVectors neighborRadius pointVector = None
  <-> (forall primaryVector d',
         primaryVector ∈ comparedWith primaryVectors allVectors pointVector ->
         cosineDistance (elems primaryVector) (elems pointVector) = Some d' ->
         ~ d' <= neighborRadius).
Proof.
  unfold reported.
  pose proof (foldl_keepSmaller_spec
    (omap (distanceWithin neighborRadius pointVector)
          (comparedWith primaryVectors allVectors pointVector)) None) as Hspec.
  split.
  - intros Hrep q d' Hq Hd' Hle. rewrite Hrep in Hspec.
    destruct Hspec as [_ Hnil].
    assert (Hin : d' ∈ omap (distanceWithin neighborRadius pointVector)
                    (comparedWith primaryVectors allVectors pointVector)).
    { apply list_elem_of_omap. exists q. split; [assumption|].
      apply distanceWithin_Some. auto. }
    rewrite Hnil in Hin. inversion Hin.
  - intros Hall.
    destruct (foldl keepSmaller None _) as [m|]; [|reflexivity].
    destruct Hspec as ([Habs|Hin] & _); [discriminate|].
    apply list_elem_of_omap in Hin as (q & Hq & Hw).
    apply distanceWithin_Some in Hw as [Hcos Hle].
    exfalso. exact (Hall q m Hq Hcos Hle).
Qed.

(** *** Concrete distances *)

Lemma magnitude_unitX : magnitude [1; 0] = 1.
Proof.
  rewrite magnitude_sum_squares. unfold sum_squares; simpl.
  replace (1 * 1 + (0 * 0 + 0)) with 1 by lra. apply sqrt_1.
Qed.

Lemma magnitude_unitY : magnitude [0; 1] = 1.
Proof.
  rewrite magnitude_sum_squares. unfold sum_squares; simpl.
  replace (0 * 0 + (1 * 1 + 0)) with 1 by lra. apply sqrt_1.
Qed.

Lemma cosineDistance_unitY_unitX : cosineDistance [0; 1] [1; 0] = Some 1.
Proof.
  rewrite cosineDistance_value;
    rewrite ?magnitude_unitX, ?magnitude_unitY; try lra; [|reflexivity].
  simpl. f_equal. field.
Qed.

Lemma cosineDistance_unitX_unitY : cosineDistance [1; 0] [0; 1] = Some 1.
Proof.
  rewrite cosineDistance_sym by reflexivity. apply cosineDistance_unitY_unitX.
Qed.

Lemma cosineDistance_unitX_unitX : cosineDistance [1; 0] [1; 0] = Some 0.
Proof. apply cosineDistance_self. rewrite magnitude_unitX. lra. Qed.

Lemma cosineDistance_unitY_unitY : cosineDistance [0; 1] [0; 1] = Some 0.
Proof. apply cosineDistance_self. rewrite magnitude_unitY. lra. Qed.

(** Searching [bothUnits] against itself with radius 2 reports distance 1
    for index 0: the comparison of [unitX] with itself is skipped. *)
Lemma self_search_reports_one :
  map_get 0 (findHighDimensionalNeighbors bothUnits bothUnits 2) = Some 1.
Proof.
  rewrite findHighDimensionalNeighbors_get. simpl.
  unfold reported, comparedWith. simpl.
  unfold distanceWithin. simpl.
  rewrite cosineDistance_unitY_unitX. simpl.
  destruct (decide (1 <= 2)); [reflexivity | lra].
Qed.

(** C4, as stated, fails for a search of a list against itself: the value
    reported for index 0 is 1, yet the primary vector [unitX] is at
    distance 0 from the candidate at index 0. *)
Lemma self_search_not_minimum_over_all_primaries :
  ~ (forall (i : nat) (pointVector : Vector) (d : R),
       elems bothUnits !! i = Some pointVector ->
       map_get i (findHighDimensionalNeighbors bothUnits bothUnits 2) = Some d ->
       forall (primaryVector : Vector) (d' : R),
         primaryVector ∈ elems bothUnits ->
         cosineDistance (elems primaryVector) (elems pointVector) = Some d' ->
         d <= d').
Proof.
  intros Hclaim.
  specialize (Hclaim 0%nat unitX 1 eq_refl self_search_reports_one unitX 0).
  assert (1 <= 0); [|lra].
  apply Hclaim.
  - apply list_elem_of_here.
  - apply cosineDistance_unitX_unitX.
Qed.

(** C4 (amended).  Every reported distance is at most the radius; the
    value reported for a candidate index is the minimum cosine distance
    from the primary vectors the candidate is compared with; an index is
    absent exactly when no compared primary vector is within the radius;
    and a primary vector is left out of the comparison only when the two
    lists are the same object and it is the same object as the candidate. *)
Theorem findHighDimensionalNeighbors_minimum_over_compared
    (primaryVectors allVectors : JsArray Vector) (neighborRadius : R) (i : nat) :
  (forall d : R,
     map_get i (findHighDimensionalNeighbors primaryVectors allVectors
                  neighborRadius) = Some d ->
     d <= neighborRadius
     /\ exists pointVector,
          elems allVectors !! i = Some pointVector
          /\ (exists primaryVector,
                primaryVector ∈ comparedWith primaryVectors allVectors pointVector
                /\ cosineDistance (elems primaryVector) (elems pointVector)
                   = Some d)
          /\ (forall primaryVector d',
                primaryVector ∈ comparedWith primaryVectors allVectors pointVector ->
                cosineDistance (elems primaryVector) (elems pointVector)
                = Some d' ->
                d <= d'))
  /\ (forall pointVector,
        elems allVectors !! i = Some pointVector ->
        (map_get i (findHighDimensionalNeighbors primaryVectors allVectors
                      neighborRadius) = None
         <-> forall primaryVector d',
               primaryVector ∈ comparedWith primaryVectors allVectors pointVector ->
               cosineDistance (elems primaryVector) (elems pointVector)
               = Some d' ->
               ~ d' <= neighborRadius))
  /\ (forall pointVector primaryVector,
        primaryVector ∈ comparedWith primaryVectors allVectors pointVector
        <-> primaryVector ∈ elems primaryVectors
            /\ ~ (ref primaryVectors = ref allVectors
                  /\ ref primaryVector = ref pointVector)).
Proof.
  split; [|split].
  - intros d Hget. rewrite findHighDimensionalNeighbors_get in Hget.
    destruct (elems allVectors !! i) as [pointVector|]; [|discriminate].
    apply reported_Some in Hget as (Hle & Hex & Hmin).
    split; [assumption|]. exists pointVector. auto.
  - intros pointVector Hi. rewrite findHighDimensionalNeighbors_get, Hi.
    apply reported_None.
  - intros pointVector primaryVector. apply elem_of_comparedWith.
Qed.

End PointsFacts.

(** ** The choice of the embeddings to show *)

Module GeneratorFacts.
Import Js Points.



Lemma swap_perm {A : Type} (i j : nat) (l : list A) : swap i j l ≡ₚ l.
Proof.
  unfold swap.
  destruct (l !! i) as [ei|] eqn:Hi; [|reflexivity].
  destruct (l !! j) as [ej|] eqn:Hj; [|reflexivity].
  apply Permutation_insert_swap; assumption.
Qed.

Lemma shuffleLoop_perm {A : Type} (i : nat) :
  forall (seed : Z) (l : list A), snd (shuffleLoop i seed l) ≡ₚ l.
Proof.
  induction i as [|i IH]; intros seed l; simpl; [reflexivity|].
  destruct (mulberry32 seed) as [seed' u].
  rewrite IH. apply swap_perm.
Qed.

Lemma shuffleEmbeddings_perm {A : Type} (seed : Z) (l : list A) :
  snd (shuffleEmbeddings seed l) ≡ₚ l.
Proof. apply shuffleLoop_perm. Qed.

Lemma shuffleEmbeddings_nil {A : Type} (seed : Z) :
  shuffleEmbeddings seed (@nil A) = (seed, []).
Proof. reflexivity. Qed.

Lemma unused_after_all (l : list Embedding) :
  filter (fun entry : Embedding => fst entry ∉ map fst l) l = [].
Proof.
  assert (G : forall k : list Embedding, (forall e, e ∈ k -> e ∈ l) ->
    filter (fun entry : Embedding => fst entry ∉ map fst l) k = []).
  { induction k as [|e k IH]; intros Hsub; [reflexivity|].
    rewrite filter_cons, decide_False.
    - apply IH. intros e' He'. apply Hsub, list_elem_of_further, He'.
    - intros Hnot. apply Hnot. apply list_elem_of_fmap.
      exists e. split; [reflexivity|]. apply Hsub, list_elem_of_here. }
  apply G. auto.
Qed.

(** The selection when a previous selection is supplied. *)
Lemma selection_from_previous (seed : Z) (embeddingsCache : list Embedding)
    (pointCount : nat) (current : list Embedding) :
  current <> [] ->
  generatePointCloudData_selectedEmbeddings seed embeddingsCache pointCount
    current
  = if decide (pointCount < length current)%nat
    then (seed, take pointCount current)
    else if decide (length current < pointCount)%nat
    then
      let drawn := take (pointCount - length current)
                        (unusedPool embeddingsCache current) in
      (fst (shuffleEmbeddings seed drawn),
       current ++ snd (shuffleEmbeddings seed drawn))
    else (seed, current).
Proof.
  intros Hne. unfold generatePointCloudData_selectedEmbeddings, unusedPool.
  cbv zeta.
  destruct (decide (length current = 0%nat)) as [Hzero|_].
  { destruct current; [contradiction | discriminate]. }
  destruct (decide (pointCount < length current)%nat); [reflexivity|].
  destruct (decide (length current < pointCount)%nat); [|reflexivity].
  destruct (shuffleEmbeddings seed _) as [seed' new]. reflexivity.
Qed.

(** The selection when no previous selection is supplied. *)
Lemma selection_from_scratch (seed : Z) (embeddingsCache : list Embedding)
    (pointCount : nat) :
  generatePointCloudData_selectedEmbeddings seed embeddingsCache pointCount []
  = (fst (shuffleEmbeddings seed embeddingsCache),
     take pointCount (snd (shuffleEmbeddings seed embeddingsCache))).
Proof.
  unfold generatePointCloudData_selectedEmbeddings. cbv zeta.
  destruct (decide (length (@nil Embedding) = 0%nat)) as [_|Hne];
    [|contradiction Hne; reflexivity].
  destruct (shuffleEmbeddings seed embeddingsCache) as [seed' shuffled].
  simpl fst. simpl snd.
  destruct (decide (pointCount < length (take pointCount shuffled))%nat)
    as [Hlt|_].
  { rewrite length_take in Hlt. lia. }
  destruct (decide (length (take pointCount shuffled) < pointCount)%nat)
    as [Hshort|_]; [|reflexivity].
  rewrite length_take in Hshort.
  assert (Hall : take pointCount shuffled = shuffled)
    by (apply take_ge; lia).
  rewrite Hall, unused_after_all. rewrite take_nil.
  rewrite shuffleEmbeddings_nil, app_nil_r. reflexivity.
Qed.


End GeneratorFacts.

(** ** The spatial grid *)

Module GridFacts.
Import Js Three Scene Grid.
Local Open Scope R_scope.

(** *** The loops of [query] as a concatenation *)

Lemma foldl_append {A B : Type} (f : list B -> A -> list B) (g : A -> list B)
    (l : list A) :
  (forall acc a, f acc a = acc ++ g a) ->
  forall acc, foldl f acc l = acc ++ flat_map g l.
Proof.
  intros Hf. induction l as [|a l IH]; intros acc; simpl.
  - rewrite app_nil_r. reflexivity.
  - rewrite IH, Hf, app_assoc. reflexivity.
Qed.

Lemma scanCell_filter (position : Vector3) (radiusSq : R) (cell : list Mesh) :
  forall nearbyMeshes,
  scanCell position radiusSq nearbyMeshes cell
  = nearbyMeshes ++ filter (passesTest position radiusSq) cell.
Proof.
  unfold scanCell.
  induction cell as [|mesh cell IH]; intros nearbyMeshes; simpl.
  - rewrite app_nil_r. reflexivity.
  - rewrite IH, filter_cons.
    destruct (parent mesh) as [pointObject|] eqn:Hp.
    + destruct (decide (distanceToSquared position
                          (getWorldPosition pointObject) < radiusSq)) as [H|H].
      * rewrite decide_True by (unfold passesTest; rewrite Hp; exact H).
        rewrite <- app_assoc. reflexivity.
      * rewrite decide_False by (unfold passesTest; rewrite Hp; exact H).
        reflexivity.
    + rewrite decide_False by (unfold passesTest; rewrite Hp; tauto).
      reflexivity.
Qed.

Lemma flat_map_flat_map {A B C : Type} (f : A -> list B) (g : B -> list C)
    (l : list A) :
  flat_map g (flat_map f l) = flat_map (fun a => flat_map g (f a)) l.
Proof.
  induction l as [|a l IH]; simpl; [reflexivity|].
  rewrite flat_map_app, IH. reflexivity.
Qed.

Lemma flat_map_map {A B C : Type} (f : A -> B) (g : B -> list C) (l : list A) :
  flat_map g (map f l) = flat_map (fun a => g (f a)) l.
Proof.
  induction l as [|a l IH]; simpl; [reflexivity|]. rewrite IH. reflexivity.
Qed.

Lemma query_visits (grid : gmap Key (list Mesh)) (position : Vector3)
    (radius : R) :
  query grid position radius
  = flat_map (cellHits grid position (radius * radius))
             (visitedKeys position radius).
Proof.
  unfold query, visitedKeys.
  rewrite (foldl_append _
    (fun i => flat_map (cellHits grid position (radius * radius))
      (flat_map (fun j =>
         map (fun k => keyOf i j k)
           (cells (floor ((z position - radius) / GRID_SIZE))
                  (floor ((z position + radius) / GRID_SIZE))))
         (cells (floor ((y position - radius) / GRID_SIZE))
                (floor ((y position + radius) / GRID_SIZE)))))).
  - simpl. rewrite flat_map_flat_map. reflexivity.
  - intros acc i.
    rewrite (foldl_append _
      (fun j => flat_map (cellHits grid position (radius * radius))
         (map (fun k => keyOf i j k)
            (cells (floor ((z position - radius) / GRID_SIZE))
                   (floor ((z position + radius) / GRID_SIZE)))))).
    + rewrite flat_map_flat_map. reflexivity.
    + intros acc' j.
      rewrite (foldl_append _
        (fun k => cellHits grid position (radius * radius) (keyOf i j k))).
      * rewrite flat_map_map. reflexivity.
      * intros acc'' k. unfold cellHits. cbv beta.
        destruct (grid !! keyOf i j k) as [cell|] eqn:Hcell.
        -- apply scanCell_filter.
        -- rewrite app_nil_r. reflexivity.
Qed.

(** *** What [build] files under a key *)

Lemma addMesh_lookup (grid : gmap Key (list Mesh)) (pointMesh : Mesh)
    (key : Key) :
  default [] (addMesh grid pointMesh !! key)
  = default [] (grid !! key) ++ filedUnder key [pointMesh].
Proof.
  unfold addMesh, filedUnder. rewrite filter_cons, filter_nil.
  destruct (parent pointMesh) as [pointObject|] eqn:Hp.
  2: { rewrite decide_False by (unfold meshKey; rewrite Hp; discriminate).
       rewrite app_nil_r. reflexivity. }
  assert (Hkey : meshKey pointMesh = Some (getKey (position pointObject))).
  { unfold meshKey. rewrite Hp. reflexivity. }
  rewrite Hkey. cbv zeta.
  generalize (getKey (position pointObject)) as key0. intros key0.
  destruct (decide (Some key0 = Some key)) as [Heq|Hne].
  - injection Heq as ->.
    rewrite lookup_alter_eq.
    destruct (decide (is_Some (grid !! key))) as [[cell Hcell]|Hnone].
    + rewrite Hcell. reflexivity.
    + rewrite lookup_insert_eq.
      destruct (grid !! key) as [cell|] eqn:Hg; [exfalso; apply Hnone; eauto|].
      reflexivity.
  - assert (key0 <> key) by congruence.
    rewrite lookup_alter_ne by assumption.
    destruct (decide (is_Some (grid !! key0))).
    + rewrite app_nil_r. reflexivity.
    + rewrite lookup_insert_ne by assumption. rewrite app_nil_r. reflexivity.
Qed.

Lemma build_from (pointMeshes : list Mesh) (key : Key) :
  forall grid : gmap Key (list Mesh),
  default [] (foldl addMesh grid pointMeshes !! key)
  = default [] (grid !! key) ++ filedUnder key pointMeshes.
Proof.
  induction pointMeshes as [|pointMesh pointMeshes IH]; intros grid; simpl.
  - unfold filedUnder. rewrite filter_nil, app_nil_r. reflexivity.
  - rewrite IH, addMesh_lookup. unfold filedUnder.
    rewrite (filter_cons _ pointMesh pointMeshes), filter_cons, filter_nil.
    destruct (decide (meshKey pointMesh = Some key));
      rewrite <- app_assoc; reflexivity.
Qed.

Lemma build_lookup (pointMeshes : list Mesh) (key : Key) :
  default [] (build pointMeshes !! key) = filedUnder key pointMeshes.
Proof. unfold build. rewrite build_from, lookup_empty. reflexivity. Qed.

Lemma cellHits_build (pointMeshes : list Mesh) (position : Vector3)
    (radiusSq : R) (key : Key) :
  cellHits (build pointMeshes) position radiusSq key
  = filter (passesTest position radiusSq) (filedUnder key pointMeshes).
Proof.
  unfold cellHits. rewrite <- build_lookup.
  destruct (build pointMeshes !! key); reflexivity.
Qed.

(** *** Every item is collected from exactly one visited cell *)

Lemma flat_map_app_perm {A B : Type} (a b : A -> list B) (l : list A) :
  flat_map (fun k => a k ++ b k) l ≡ₚ flat_map a l ++ flat_map b l.
Proof.
  induction l as [|k l IH]; simpl; [reflexivity|].
  rewrite IH. rewrite <- !app_assoc. apply Permutation_app_head.
  rewrite !app_assoc. apply Permutation_app_tail, Permutation_app_comm.
Qed.

Lemma flat_map_nothing {A B : Type} (l : list A) :
  flat_map (fun _ : A => @nil B) l = [].
Proof. induction l; simpl; auto. Qed.

Lemma flat_map_single (mesh : Mesh) (key0 : Key) (keys : list Key) :
  NoDup keys ->
  flat_map (fun key => if decide (Some key0 = Some key) then [mesh] else []) keys
  = if decide (key0 ∈ keys) then [mesh] else [].
Proof.
  induction keys as [|key keys IH]; intros Hnd; simpl.
  - destruct (decide (key0 ∈ [])) as [H|_]; [inversion H | reflexivity].
  - apply NoDup_cons in Hnd as [Hnotin Hnd]. rewrite IH by assumption.
    destruct (decide (Some key0 = Some key)) as [[= ->]|Hne].
    + rewrite decide_False by assumption.
      rewrite decide_True by apply list_elem_of_here. reflexivity.
    + destruct (decide (key0 ∈ keys)) as [Hin|Hout].
      * rewrite decide_True by (apply list_elem_of_further; assumption).
        reflexivity.
      * rewrite decide_False; [reflexivity|].
        intros [->|H]%elem_of_cons; [congruence | contradiction].
Qed.

Lemma collected_once (P : Mesh -> Prop) `{!forall m, Decision (P m)}
    (keys : list Key) (pointMeshes : list Mesh) :
  NoDup keys ->
  (forall mesh, mesh ∈ pointMeshes -> P mesh ->
     exists key, key ∈ keys /\ meshKey mesh = Some key) ->
  flat_map (fun key => filter P (filedUnder key pointMeshes)) keys
  ≡ₚ filter P pointMeshes.
Proof.
  intros Hnd. induction pointMeshes as [|mesh pointMeshes IH]; intros Hcov.
  - rewrite (flat_map_ext _ (fun _ => [])) by reflexivity.
    rewrite flat_map_nothing. reflexivity.
  - rewrite (flat_map_ext _
      (fun key => (if decide (P mesh) then
                     if decide (meshKey mesh = Some key) then [mesh] else []
                   else [])
                  ++ filter P (filedUnder key pointMeshes))).
    2: { intros key. unfold filedUnder. rewrite filter_cons.
         destruct (decide (meshKey mesh = Some key)).
         - rewrite filter_cons. destruct (decide (P mesh)); reflexivity.
         - destruct (decide (P mesh)); reflexivity. }
    rewrite flat_map_app_perm, IH.
    2: { intros m Hm. apply Hcov. apply list_elem_of_further; assumption. }
    rewrite filter_cons. destruct (decide (P mesh)) as [HP|HnP].
    + destruct (Hcov mesh (list_elem_of_here _ _) HP) as (key0 & Hin & Hkey).
      rewrite Hkey, flat_map_single by assumption.
      rewrite decide_True by assumption. reflexivity.
    + rewrite flat_map_nothing. reflexivity.
Qed.

(** *** The visited keys *)

Lemma elem_of_cells (lo hi k : Z) : k ∈ cells lo hi <-> (lo <= k <= hi)%Z.
Proof. unfold cells. rewrite elem_of_seqZ. lia. Qed.

Lemma elem_of_flat_map {A B : Type} (f : A -> list B) (l : list A) (b : B) :
  b ∈ flat_map f l <-> exists a, a ∈ l /\ b ∈ f a.
Proof.
  rewrite list_elem_of_In, in_flat_map.
  split; intros (a & Ha & Hb); exists a;
    rewrite ?list_elem_of_In in *; auto.
Qed.

Lemma NoDup_flat_map {A B : Type} (f : A -> list B) (l : list A) :
  NoDup l ->
  (forall a, a ∈ l -> NoDup (f a)) ->
  (forall a a' b, a ∈ l -> a' ∈ l -> b ∈ f a -> b ∈ f a' -> a = a') ->
  NoDup (flat_map f l).
Proof.
  induction l as [|a l IH]; intros Hnd Hf Hdisj; simpl; [constructor|].
  apply NoDup_cons in Hnd as [Hnotin Hnd].
  apply NoDup_app. split; [|split].
  - apply Hf, list_elem_of_here.
  - intros b Hb Hb'. apply elem_of_flat_map in Hb' as (a' & Ha' & Hb').
    assert (a = a').
    { apply (Hdisj a a' b); auto using list_elem_of_here, list_elem_of_further. }
    subst. contradiction.
  - apply IH; [assumption| |].
    + intros a' Ha'. apply Hf, list_elem_of_further, Ha'.
    + intros a1 a2 b H1 H2. apply Hdisj; apply list_elem_of_further; assumption.
Qed.

(** A key determines its three cell coordinates: the decimal form of an
    integer holds no underscore, so the key splits at its underscores. *)
Lemma occurs_app (c : ascii) (s t : string) :
  occurs c (s +:+ t) <-> occurs c s \/ occurs c t.
Proof. induction s as [|c' s IH]; simpl; [tauto|]. rewrite IH. tauto. Qed.

Lemma pretty_N_go_no_underscore (n : N) : forall s : string,
  ~ occurs "_" s -> ~ occurs "_" (pretty_N_go n s).
Proof.
  induction (N.lt_wf_0 n) as [n _ IH]; intros s Hs.
  assert (n = 0 \/ 0 < n)%N as [->|Hpos] by lia.
  - rewrite pretty_N_go_0. assumption.
  - rewrite pretty_N_go_step by assumption. apply IH.
    + apply N.div_lt; [assumption | reflexivity].
    + simpl. intros [Hc|Hin]; [|contradiction].
      unfold pretty_N_char in Hc.
      destruct (n `mod` 10)%N as [|p]; [discriminate|].
      do 4 (destruct p as [p|p|]; try discriminate).
Qed.

Lemma pretty_Z_no_underscore (i : Z) : ~ occurs "_" (pretty i).
Proof.
  assert (HN : forall n : N, ~ occurs "_" (pretty n)).
  { intros n. unfold pretty, pretty_N.
    destruct (decide (n = 0%N)).
    - simpl. intros [H|H]; [discriminate | contradiction].
    - apply pretty_N_go_no_underscore. simpl. tauto. }
  unfold pretty, pretty_Z. destruct i as [|p|p].
  - simpl. intros [H|H]; [discriminate | contradiction].
  - apply HN.
  - rewrite occurs_app. intros [H|H]; [|exact (HN _ H)].
    simpl in H. destruct H as [H|H]; [discriminate | contradiction].
Qed.

Lemma split_at_underscore (s1 : string) : forall s2 r1 r2 : string,
  ~ occurs "_" s1 -> ~ occurs "_" s2 ->
  s1 +:+ String "_" r1 = s2 +:+ String "_" r2 -> s1 = s2 /\ r1 = r2.
Proof.
  induction s1 as [|c1 s1 IH]; intros [|c2 s2] r1 r2 H1 H2 Heq; simpl in *.
  - injection Heq as ->. auto.
  - injection Heq as <- _. exfalso. apply H2. auto.
  - injection Heq as -> _. exfalso. apply H1. auto.
  - injection Heq as -> Heq.
    destruct (IH s2 r1 r2) as [-> ->]; auto.
Qed.

Lemma keyOf_inj (i j k i' j' k' : Z) :
  keyOf i j k = keyOf i' j' k' -> i = i' /\ j = j' /\ k = k'.
Proof.
  unfold keyOf. intros Heq.
  apply split_at_underscore in Heq as [Hi Heq];
    [|apply pretty_Z_no_underscore..].
  apply split_at_underscore in Heq as [Hj Hk];
    [|apply pretty_Z_no_underscore..].
  repeat split; apply (inj pretty); assumption.
Qed.

Example keyOf_example : keyOf (-1) 0 12 = "-1_0_12".
Proof. reflexivity. Qed.

Lemma elem_of_visitedKeys (position : Vector3) (radius : R) (i j k : Z) :
  keyOf i j k ∈ visitedKeys position radius
  <-> (floor ((x position - radius) / GRID_SIZE) <= i
         <= floor ((x position + radius) / GRID_SIZE))%Z
      /\ (floor ((y position - radius) / GRID_SIZE) <= j
         <= floor ((y position + radius) / GRID_SIZE))%Z
      /\ (floor ((z position - radius) / GRID_SIZE) <= k
         <= floor ((z position + radius) / GRID_SIZE))%Z.
Proof.
  unfold visitedKeys. rewrite elem_of_flat_map. split.
  - intros (i' & Hi & H). apply elem_of_flat_map in H as (j' & Hj & H).
    apply list_elem_of_fmap in H as (k' & Heq & Hk).
    apply keyOf_inj in Heq as (-> & -> & ->).
    rewrite elem_of_cells in Hi, Hj, Hk. auto.
  - intros (Hi & Hj & Hk). exists i. rewrite elem_of_cells. split; [assumption|].
    apply elem_of_flat_map. exists j. rewrite elem_of_cells. split; [assumption|].
    apply list_elem_of_fmap. exists k. rewrite elem_of_cells. auto.
Qed.

Lemma NoDup_visitedKeys (position : Vector3) (radius : R) :
  NoDup (visitedKeys position radius).
Proof.
  unfold visitedKeys. apply NoDup_flat_map.
  - apply NoDup_seqZ.
  - intros i _. apply NoDup_flat_map.
    + apply NoDup_seqZ.
    + intros j _. apply NoDup_fmap_2; [|apply NoDup_seqZ].
      intros k k' Heq. apply keyOf_inj in Heq. tauto.
    + intros j j' key _ _ H1 H2.
      apply list_elem_of_fmap in H1 as (k1 & -> & _).
      apply list_elem_of_fmap in H2 as (k2 & Heq & _).
      apply keyOf_inj in Heq. tauto.
  - intros i i' key _ _ H1 H2.
    apply elem_of_flat_map in H1 as (j1 & _ & H1).
    apply elem_of_flat_map in H2 as (j2 & _ & H2).
    apply list_elem_of_fmap in H1 as (k1 & -> & _).
    apply list_elem_of_fmap in H2 as (k2 & Heq & _).
    apply keyOf_inj in Heq. tauto.
Qed.

(** *** Geometry: an item within the radius lies in a visited cell *)

Lemma axis_in_range (p q radius : R) :
  (p - q) * (p - q) < radius * radius -> 0 <= radius ->
  (floor ((p - radius) / GRID_SIZE) <= floor (q / GRID_SIZE)
     <= floor ((p + radius) / GRID_SIZE))%Z.
Proof.
  intros Hsq Hr. unfold floor, GRID_SIZE.
  assert (p - radius < q < p + radius) as [Hlo Hhi] by (split; nra).
  split; apply Zfloor_le; lra.
Qed.

Lemma passesTest_visited (position : Vector3) (radius : R) (mesh : Mesh) :
  0 <= radius ->
  passesTest position (radius * radius) mesh ->
  exists key, key ∈ visitedKeys position radius /\ meshKey mesh = Some key.
Proof.
  intros Hr. unfold passesTest, meshKey.
  destruct (parent mesh) as [pointObject|]; [|contradiction].
  unfold getWorldPosition, distanceToSquared. intros Hd.
  exists (getKey (Scene.position pointObject)). split; [|reflexivity].
  unfold getKey. apply elem_of_visitedKeys.
  set (dx := x position - x (Scene.position pointObject)) in *.
  set (dy := y position - y (Scene.position pointObject)) in *.
  set (dz := z position - z (Scene.position pointObject)) in *.
  repeat split; apply axis_in_range; try assumption;
    fold dx; fold dy; fold dz; nra.
Qed.

(** *** Distances and squared distances *)

Lemma distanceToSquared_nonneg (a b : Vector3) : 0 <= distanceToSquared a b.
Proof.
  unfold distanceToSquared. cbv zeta.
  generalize (x a - x b), (y a - y b), (z a - z b). intros dx dy dz. nra.
Qed.

Lemma distance_lt_iff (a b : Vector3) (radius : R) :
  0 <= radius ->
  distanceTo a b < radius <-> distanceToSquared a b < radius * radius.
Proof.
  intros Hr. unfold distanceTo.
  pose proof (distanceToSquared_nonneg a b) as Hd.
  pose proof (sqrt_pos (distanceToSquared a b)) as Hs.
  pose proof (sqrt_sqrt _ Hd) as Hss.
  split; intros H; [nra|].
  destruct (Rlt_dec (sqrt (distanceToSquared a b)) radius); [assumption|].
  nra.
Qed.

Lemma withinRadius_passesTest (position : Vector3) (radius : R) (mesh : Mesh) :
  0 <= radius ->
  withinRadius position radius mesh
  <-> passesTest position (radius * radius) mesh.
Proof.
  intros Hr. unfold withinRadius, passesTest.
  destruct (parent mesh); [|tauto]. apply distance_lt_iff; assumption.
Qed.

Lemma query_build_perm (pointMeshes : list Mesh) (position : Vector3)
    (radius : R) :
  0 <= radius ->
  query (build pointMeshes) position radius
  ≡ₚ filter (withinRadius position radius) pointMeshes.
Proof.
  intros Hr. rewrite query_visits.
  rewrite (flat_map_ext _
    (fun key => filter (passesTest position (radius * radius))
                       (filedUnder key pointMeshes)))
    by (intros key; apply cellHits_build).
  rewrite collected_once.
  - rewrite (list_filter_iff _ (withinRadius position radius)); [reflexivity|].
    intros mesh. symmetry. apply withinRadius_passesTest; assumption.
  - apply NoDup_visitedKeys.
  - intros mesh _ Hm. apply passesTest_visited; assumption.
Qed.



(** The scenario of the specification: the query of radius 4 around the
    origin returns both items, the query of radius 2 only "jazz". *)
Lemma sqrt_9 : sqrt 9 = 3.
Proof. replace 9 with (3 * 3) by lra. apply sqrt_square. lra. Qed.

Lemma distance_origin_jazz :
  distanceTo (mkVector3 0 0 0) (mkVector3 0 0 0) = 0.
Proof.
  unfold distanceTo, distanceToSquared. simpl.
  replace ((0 - 0) * (0 - 0) + (0 - 0) * (0 - 0) + (0 - 0) * (0 - 0)) with 0
    by lra.
  apply sqrt_0.
Qed.

Lemma distance_origin_rock :
  distanceTo (mkVector3 0 0 0) (mkVector3 3 0 0) = 3.
Proof.
  unfold distanceTo, distanceToSquared. simpl.
  replace ((0 - 3) * (0 - 3) + (0 - 0) * (0 - 0) + (0 - 0) * (0 - 0)) with 9
    by lra.
  apply sqrt_9.
Qed.

Example query_radius_4 :
  query (build [itemJazz; itemRock]) (mkVector3 0 0 0) 4
  ≡ₚ [itemJazz; itemRock].
Proof.
  rewrite query_build_perm by lra.
  rewrite !filter_cons, filter_nil.
  rewrite decide_True
    by (unfold withinRadius; simpl; unfold getWorldPosition; simpl;
        rewrite distance_origin_jazz; lra).
  rewrite decide_True
    by (unfold withinRadius; simpl; unfold getWorldPosition; simpl;
        rewrite distance_origin_rock; lra).
  reflexivity.
Qed.

Example query_radius_2 :
  query (build [itemJazz; itemRock]) (mkVector3 0 0 0) 2 = [itemJazz].
Proof.
  apply Permutation_length_1_inv. symmetry.
  rewrite query_build_perm by lra.
  rewrite !filter_cons, filter_nil.
  rewrite decide_True
    by (unfold withinRadius; simpl; unfold getWorldPosition; simpl;
        rewrite distance_origin_jazz; lra).
  rewrite decide_False
    by (unfold withinRadius; simpl; unfold getWorldPosition; simpl;
        rewrite distance_origin_rock; lra).
  reflexivity.
Qed.

End GridFacts.

(** ** The point selector *)

Module SelectionFacts.
Import Js Three Scene Grid Utils Points Selection.
Import JsFacts UtilsFacts PointsFacts GridFacts.
Local Open Scope R_scope.

(** *** Combined weights *)

Lemma mergeManualWeight_lookup (l l' : string) (manualWeight : R)
    (combinedWeights : gmap string R) :
  mergeManualWeight l manualWeight combinedWeights !! l'
  = if decide (l = l')
    then strongerOf (combinedWeights !! l) (Some manualWeight)
    else combinedWeights !! l'.
Proof.
  unfold mergeManualWeight, strongerOf.
  destruct (decide (l = l')) as [<-|Hne].
  - destruct (combinedWeights !! l) as [current|] eqn:Hc.
    + destruct (decide (manualWeight > current)) as [Hgt|Hle].
      * rewrite lookup_insert_eq. f_equal. rewrite Rmax_right; lra.
      * rewrite Hc. f_equal. rewrite Rmax_left; lra.
    + apply lookup_insert_eq.
  - destruct (combinedWeights !! l) as [current|].
    + destruct (decide (manualWeight > current)); [|reflexivity].
      apply lookup_insert_ne; assumption.
    + apply lookup_insert_ne; assumption.
Qed.

Lemma merged_lookup (proximityWeights selectionWeights : gmap string R)
    (l : string) :
  map_fold mergeManualWeight proximityWeights selectionWeights !! l
  = strongerOf (proximityWeights !! l) (selectionWeights !! l).
Proof.
  revert l.
  apply (map_fold_weak_ind
    (fun (r : gmap string R) (m : gmap string R) =>
       forall l, r !! l = strongerOf (proximityWeights !! l) (m !! l))).
  - intros l. rewrite lookup_empty. unfold strongerOf.
    destruct (proximityWeights !! l); reflexivity.
  - intros l0 manualWeight m r Hnone IH l.
    rewrite mergeManualWeight_lookup.
    destruct (decide (l0 = l)) as [<-|Hne].
    + rewrite lookup_insert_eq, IH, Hnone. unfold strongerOf.
      destruct (proximityWeights !! l0); reflexivity.
    + rewrite lookup_insert_ne by assumption. apply IH.
Qed.

Lemma addNeighborsToWeights_lookup (options : Options) (cloud : PointCloud)
    (neighborDistances : JsMap R) (l : string) :
  includeHighDimensionalNeighbors options = true ->
  forall selectionWeights : gmap string R,
  addNeighborsToWeights options (Some cloud) neighborDistances
                        selectionWeights !! l
  = match selectionWeights !! l with
    | Some w => Some w
    | None => neighborWeightOf options (pointMeshes cloud) neighborDistances l
    end.
Proof.
  intros Hinc. unfold addNeighborsToWeights. rewrite Hinc. simpl.
  induction neighborDistances as [|[index distance] rest IH];
    intros selectionWeights; simpl.
  - destruct (selectionWeights !! l); reflexivity.
  - rewrite IH. clear IH.
    destruct (pointMeshes cloud !! index) as [neighborMesh|]; [|reflexivity].
    destruct (decide (is_Some (selectionWeights !! label neighborMesh)))
      as [[w Hw]|Hnone].
    + destruct (decide (label neighborMesh = l)) as [<-|Hne]; [|reflexivity].
      rewrite Hw. reflexivity.
    + destruct (decide (label neighborMesh = l)) as [<-|Hne].
      * rewrite lookup_insert_eq.
        destruct (selectionWeights !! label neighborMesh) as [w|] eqn:Hw;
          [exfalso; apply Hnone; eauto | reflexivity].
      * rewrite lookup_insert_ne by assumption. reflexivity.
Qed.

Lemma addNeighborsToWeights_off (options : Options)
    (pointCloud : option PointCloud) (neighborDistances : JsMap R)
    (selectionWeights : gmap string R) :
  includeHighDimensionalNeighbors options = false \/ pointCloud = None ->
  addNeighborsToWeights options pointCloud neighborDistances selectionWeights
  = selectionWeights.
Proof.
  unfold addNeighborsToWeights. intros [->| ->]; simpl; [reflexivity|].
  destruct (negb _); reflexivity.
Qed.

(** The combined weight of a label: the larger of the proximity and manual
    weights when one of them is present, else the neighbour-derived
    weight, else nothing. *)
Lemma getCombinedWeights_sources (this : PointSelector)
    (pointCloud : option PointCloud) (l : string) :
  getCombinedWeights this pointCloud !! l
  = match strongerOf (proximitySource this l) (manualSource this l) with
    | Some w => Some w
    | None => neighborSource this pointCloud l
    end.
Proof.
  unfold getCombinedWeights, proximitySource, manualSource, neighborSource.
  destruct (manualSelectionState this) as [state|]; simpl.
  2: { destruct (proximityWeights this !! l); reflexivity. }
  destruct (includeHighDimensionalNeighbors (options this)) eqn:Hinc.
  - destruct pointCloud as [cloud|]; simpl.
    + rewrite addNeighborsToWeights_lookup by assumption.
      rewrite merged_lookup. reflexivity.
    + rewrite addNeighborsToWeights_off by auto.
      rewrite merged_lookup.
      destruct (strongerOf _ _); reflexivity.
  - rewrite merged_lookup.
    destruct (strongerOf _ _); [reflexivity|].
    destruct pointCloud; reflexivity.
Qed.

(** The sources of the label "jazz" in the state [rockClicked]. *)
Lemma rockClicked_sources :
  proximitySource rockClicked "jazz" = Some (1 / 5)
  /\ manualSource rockClicked "jazz" = None
  /\ neighborSource rockClicked (Some twoItems) "jazz" = Some (1 / 2).
Proof.
  unfold proximitySource, manualSource, neighborSource. simpl.
  split; [|split].
  - apply lookup_singleton_eq.
  - apply lookup_singleton_ne. discriminate.
  - destruct (decide ("jazz" = "jazz")) as [_|Hne]; [|congruence].
    f_equal. rewrite Rmin_left by lra. lra.
Qed.

(** C1, as stated, fails: in [rockClicked] the label "jazz" has proximity
    weight 1/5 and neighbour-derived weight 1/2, and the combined map
    gives it 1/5, not the maximum 1/2. *)
Lemma combined_weight_is_not_the_maximum :
  getCombinedWeights rockClicked (Some twoItems) !! "jazz" = Some (1 / 5)
  /\ specifiedCombinedWeight rockClicked (Some twoItems) "jazz" = Some (1 / 2)
  /\ getCombinedWeights rockClicked (Some twoItems) !! "jazz"
     <> specifiedCombinedWeight rockClicked (Some twoItems) "jazz".
Proof.
  destruct rockClicked_sources as (Hp & Hm & Hn).
  assert (Hc : getCombinedWeights rockClicked (Some twoItems) !! "jazz"
               = Some (1 / 5)).
  { rewrite getCombinedWeights_sources, Hp, Hm. reflexivity. }
  assert (Hs : specifiedCombinedWeight rockClicked (Some twoItems) "jazz"
               = Some (1 / 2)).
  { unfold specifiedCombinedWeight. rewrite Hp, Hm, Hn. simpl. f_equal.
    rewrite (Rmax_left (1 / 5) 0) by lra. rewrite Rmax_right; lra. }
  split; [assumption|]. split; [assumption|].
  rewrite Hc, Hs. intros [= H]. lra.
Qed.

(** C1 (amended).  For every label the combined map holds: the maximum of
    the proximity weight and the manual weight, over those of the two that
    are present; when neither is present and neighbours are included, the
    weight derived from the label's entry in the neighbour map; and no
    entry when no source mentions the label.  A neighbour-derived weight
    never replaces a proximity or manual weight. *)
Theorem getCombinedWeights_max_then_neighbor_fill (this : PointSelector)
    (pointCloud : option PointCloud) (l : string) :
  getCombinedWeights this pointCloud !! l
  = match proximitySource this l, manualSource this l with
    | Some p, Some m => Some (Rmax p m)
    | Some p, None => Some p
    | None, Some m => Some m
    | None, None => neighborSource this pointCloud l
    end.
Proof.
  rewrite getCombinedWeights_sources. unfold strongerOf.
  destruct (proximitySource this l), (manualSource this l); reflexivity.
Qed.

(** *** [selectByClick] *)

Lemma collectAlongRay_from (searchRay : Ray) (radius : R) (meshes : list Mesh) :
  forall (primaryMeshes : list Mesh) (selectionWeights : gmap string R),
  fst (foldl (fun '(primaryMeshes, selectionWeights) mesh =>
           match parent mesh with
           | None => (primaryMeshes, selectionWeights)
           | Some pointObject =>
               let worldPosition := getWorldPosition pointObject in
               let distanceToRaySq := distanceSqToPoint searchRay worldPosition in
               if decide (distanceToRaySq < radius * radius) then
                 let distance := sqrt distanceToRaySq in
                 (primaryMeshes ++ [mesh],
                  <[label mesh := normalizedWeight distance radius]>
                    selectionWeights)
               else (primaryMeshes, selectionWeights)
           end)
        (primaryMeshes, selectionWeights) meshes)
  = primaryMeshes ++ filter (nearRay searchRay radius) meshes.
Proof.
  induction meshes as [|mesh meshes IH]; intros primaryMeshes selectionWeights;
    simpl.
  - rewrite app_nil_r. reflexivity.
  - rewrite filter_cons.
    destruct (parent mesh) as [pointObject|] eqn:Hp.
    + destruct (decide (distanceSqToPoint searchRay
                          (getWorldPosition pointObject) < radius * radius))
        as [Hnear|Hfar].
      * rewrite IH. rewrite decide_True by (unfold nearRay; rewrite Hp; exact Hnear).
        rewrite <- app_assoc. reflexivity.
      * rewrite IH. rewrite decide_False by (unfold nearRay; rewrite Hp; exact Hfar).
        reflexivity.
    + rewrite IH. rewrite decide_False by (unfold nearRay; rewrite Hp; tauto).
      reflexivity.
Qed.

Lemma collectAlongRay_primary (searchRay : Ray) (radius : R)
    (meshes : list Mesh) :
  fst (collectAlongRay searchRay radius meshes)
  = filter (nearRay searchRay radius) meshes.
Proof. unfold collectAlongRay. apply collectAlongRay_from. Qed.

(** What a click leaves in the selector, when a point cloud is present. *)
Lemma selectByClick_result (this : PointSelector) (cloud : PointCloud)
    (intersects : list SceneObject) (clickedRay : Ray)
    (cameraPosition : Vector3) :
  let after := selectByClick this (Some cloud) intersects clickedRay
                             cameraPosition in
  let primary := primariesOf this cloud intersects clickedRay cameraPosition in
  proximityMeshes after = proximityMeshes this
  /\ proximityWeights after = proximityWeights this
  /\ options after = options this
  /\ match primary with
     | [] => manualSelectionState after = None
     | _ :: _ =>
         exists (state : ManualSelectionState) (clickWeights : gmap string R),
           manualSelectionState after = Some state
           /\ primaryMeshes state = primary
           /\ directlyClickedMesh state = clickedOf intersects
           /\ neighborDistances state
              = (if includeHighDimensionalNeighbors (options this)
                 then findHighDimensionalNeighbors
                        (primaryVectorsOf primary)
                        (allVectorsOf (pointMeshes cloud))
                        (neighborRadius (options this))
                 else [])
           /\ selectionWeights state
              = (if includeHighDimensionalNeighbors (options this)
                 then addNeighborsToWeights (options this) (Some cloud)
                        (neighborDistances state) clickWeights
                 else clickWeights)
     end.
Proof.
  unfold selectByClick, primariesOf, searchRayOf, clickedOf.
  destruct intersects as [|[targetMesh|] rest].
  - (* nothing hit: the clicked ray *)
    rewrite <- collectAlongRay_primary.
    destruct (collectAlongRay clickedRay _ _) as [primaryMeshes clickWeights].
    simpl. destruct primaryMeshes as [|mesh primaryMeshes]; simpl.
    + auto.
    + destruct (includeHighDimensionalNeighbors (options this)); simpl;
        repeat split; eexists _, clickWeights; repeat split.
  - (* a point mesh was hit *)
    destruct (parent targetMesh) as [centerPointObject|].
    + rewrite <- collectAlongRay_primary.
      destruct (collectAlongRay _ _ _) as [primaryMeshes clickWeights].
      simpl. destruct primaryMeshes as [|mesh primaryMeshes]; simpl.
      * auto.
      * destruct (includeHighDimensionalNeighbors (options this)); simpl;
          repeat split; eexists _, clickWeights; repeat split.
    + simpl. auto.
  - simpl. auto.
Qed.

Lemma selectByClick_without_cloud (this : PointSelector)
    (intersects : list SceneObject) (clickedRay : Ray)
    (cameraPosition : Vector3) :
  selectByClick this None intersects clickedRay cameraPosition = this.
Proof. reflexivity. Qed.

Lemma filter_nil_none {A : Type} (P : A -> Prop) `{!forall x, Decision (P x)}
    (l : list A) :
  (forall x, x ∈ l -> ~ P x) -> filter P l = [].
Proof.
  induction l as [|x l IH]; intros Hall; [reflexivity|].
  rewrite filter_cons, decide_False by (apply Hall, list_elem_of_here).
  apply IH. intros y Hy. apply Hall, list_elem_of_further, Hy.
Qed.

Lemma nothingNear_no_primaries (this : PointSelector) (cloud : PointCloud)
    (intersects : list SceneObject) (clickedRay : Ray)
    (cameraPosition : Vector3) :
  nothingNear this (Some cloud) intersects clickedRay cameraPosition ->
  primariesOf this cloud intersects clickedRay cameraPosition = [].
Proof.
  unfold nothingNear, primariesOf. intros Hnone.
  destruct (searchRayOf intersects clickedRay cameraPosition) as [searchRay|];
    [|reflexivity].
  apply filter_nil_none. intros mesh Hmesh.
  apply (Hnone searchRay mesh eq_refl Hmesh).
Qed.

(** *** The ray through a point passes at distance 0 from it *)

Lemma distanceSqToPoint_nonneg (ray : Ray) (point : Vector3) :
  0 <= distanceSqToPoint ray point.
Proof.
  unfold distanceSqToPoint.
  destruct (decide _); apply GridFacts.distanceToSquared_nonneg.
Qed.


(** For a radius that is not negative the test of the code is the test
    "the distance to the ray is less than the radius". *)
Lemma nearRay_distance (searchRay : Ray) (radius : R) (mesh : Mesh)
    (pointObject : Object3D) :
  0 <= radius -> parent mesh = Some pointObject ->
  nearRay searchRay radius mesh
  <-> sqrt (distanceSqToPoint searchRay (getWorldPosition pointObject))
      < radius.
Proof.
  intros Hr Hp. unfold nearRay. rewrite Hp.
  set (d := distanceSqToPoint searchRay (getWorldPosition pointObject)).
  assert (Hd : 0 <= d) by apply distanceSqToPoint_nonneg.
  pose proof (sqrt_pos d) as Hs. pose proof (sqrt_sqrt d Hd) as Hss.
  split; intros H; [|nra].
  destruct (Rlt_dec (sqrt d) radius); [assumption | nra].
Qed.

(** C8, as stated, fails when the selector has no point cloud: no item
    is near the ray (there is none), yet the call returns at once and the
    earlier manual selection stays. *)
Lemma click_without_cloud_keeps_selection :
  nothingNear rockClicked None [] farRay (mkVector3 0 0 10)
  /\ hasManualSelection
       (selectByClick rockClicked None [] farRay (mkVector3 0 0 10)) = true.
Proof.
  split; [|reflexivity].
  intros searchRay mesh _ Hmesh. inversion Hmesh.
Qed.

(** C8 (amended).  For every call to [selectByClick] made while a point
    cloud is present and in which no item falls within the click radius of
    the search ray, whether an item was hit or not, the manual selection
    is cleared: the state is none and [hasManualSelection] is false,
    whatever selection was there before. *)
Theorem selectByClick_clears_when_nothing_near (this : PointSelector)
    (cloud : PointCloud) (intersects : list SceneObject) (clickedRay : Ray)
    (cameraPosition : Vector3) :
  nothingNear this (Some cloud) intersects clickedRay cameraPosition ->
  manualSelectionState
    (selectByClick this (Some cloud) intersects clickedRay cameraPosition)
  = None
  /\ hasManualSelection
       (selectByClick this (Some cloud) intersects clickedRay cameraPosition)
     = false.
Proof.
  intros Hnone.
  pose proof (selectByClick_result this cloud intersects clickedRay
                cameraPosition) as (_ & _ & _ & Hstate).
  rewrite (nothingNear_no_primaries _ _ _ _ _ Hnone) in Hstate.
  unfold hasManualSelection. rewrite Hstate. auto.
Qed.

Lemma farRay_nothing_near :
  nothingNear rockClicked (Some twoItems) [] farRay (mkVector3 0 0 10).
Proof.
  intros searchRay mesh [= <-] Hmesh. simpl in Hmesh.
  unfold nearRay, distanceSqToPoint, distanceToSquared, addScaledVector, dot, sub.
  apply elem_of_cons in Hmesh as [->|Hmesh];
    [|apply elem_of_cons in Hmesh as [->|Hmesh]; [|inversion Hmesh]];
    simpl; destruct (decide _); lra.
Qed.

Lemma selectByClick_clears_when_nothing_near_witness :
  manualSelectionState
    (selectByClick rockClicked (Some twoItems) [] farRay (mkVector3 0 0 10))
  = None
  /\ hasManualSelection
       (selectByClick rockClicked (Some twoItems) [] farRay (mkVector3 0 0 10))
     = false.
Proof.
  apply (selectByClick_clears_when_nothing_near rockClicked twoItems [] farRay
           (mkVector3 0 0 10)).
  exact farRay_nothing_near.
Defined.

(** *** The directly clicked mesh is a primary mesh *)


Lemma matchLabels_from (preserved : PreservedManualSelection)
    (meshes : list Mesh) :
  forall (newPrimaryMeshes : list Mesh) (newClickedMesh : option Mesh),
  let result :=
    foldl (fun '(newPrimaryMeshes, newClickedMesh) mesh =>
             let newPrimaryMeshes :=
               if decide (label mesh ∈ primaryLabels preserved)
               then newPrimaryMeshes ++ [mesh] else newPrimaryMeshes in
             let newClickedMesh :=
               if decide (Some (label mesh) = clickedLabel preserved)
               then Some mesh else newClickedMesh in
             (newPrimaryMeshes, newClickedMesh))
          (newPrimaryMeshes, newClickedMesh) meshes in
  fst result
  = newPrimaryMeshes
    ++ filter (fun mesh => label mesh ∈ primaryLabels preserved) meshes
  /\ (forall mesh, snd result = Some mesh ->
        newClickedMesh = Some mesh
        \/ (mesh ∈ meshes /\ Some (label mesh) = clickedLabel preserved)).
Proof.
  induction meshes as [|m meshes IH]; intros newPrimaryMeshes newClickedMesh;
    simpl.
  - rewrite app_nil_r. auto.
  - specialize (IH
      (if decide (label m ∈ primaryLabels preserved)
       then newPrimaryMeshes ++ [m] else newPrimaryMeshes)
      (if decide (Some (label m) = clickedLabel preserved)
       then Some m else newClickedMesh)).
    simpl in IH. destruct IH as [IHp IHc]. split.
    + rewrite IHp, filter_cons.
      destruct (decide (label m ∈ primaryLabels preserved));
        [rewrite <- app_assoc|]; reflexivity.
    + intros mesh Hmesh. destruct (IHc mesh Hmesh) as [Hhere|[Hin Hlab]].
      * destruct (decide (Some (label m) = clickedLabel preserved)) as [Hm|Hm].
        -- injection Hhere as <-. right. split; [apply list_elem_of_here|].
           assumption.
        -- left. assumption.
      * right. split; [apply list_elem_of_further|]; assumption.
Qed.

Lemma matchLabels_spec (preserved : PreservedManualSelection)
    (meshes : list Mesh) :
  fst (matchLabels preserved meshes)
  = filter (fun mesh => label mesh ∈ primaryLabels preserved) meshes
  /\ (forall mesh, snd (matchLabels preserved meshes) = Some mesh ->
        mesh ∈ meshes /\ Some (label mesh) = clickedLabel preserved).
Proof.
  unfold matchLabels.
  destruct (matchLabels_from preserved meshes [] None) as [Hp Hc].
  split; [exact Hp|].
  intros mesh Hmesh. destruct (Hc mesh Hmesh) as [?|?]; [discriminate|auto].
Qed.

(** What a restoration leaves in the selector. *)
Lemma restoreManualSelection_result (this : PointSelector)
    (preserved : PreservedManualSelection) (pointCloud : PointCloud) :
  let after := restoreManualSelection this (Some preserved) pointCloud in
  let matching :=
    filter (fun mesh => label mesh ∈ primaryLabels preserved)
           (pointMeshes pointCloud) in
  match matching with
  | [] => after = this
  | _ :: _ =>
      exists state,
        manualSelectionState after = Some state
        /\ primaryMeshes state = matching
        /\ selectionWeights state = weights preserved
        /\ (forall mesh, directlyClickedMesh state = Some mesh ->
              mesh ∈ pointMeshes pointCloud
              /\ Some (label mesh) = clickedLabel preserved)
  end.
Proof.
  unfold restoreManualSelection.
  destruct (matchLabels_spec preserved (pointMeshes pointCloud)) as [Hp Hc].
  destruct (matchLabels preserved (pointMeshes pointCloud))
    as [newPrimaryMeshes newClickedMesh].
  simpl in Hp, Hc. rewrite <- Hp.
  destruct newPrimaryMeshes as [|m rest]; [reflexivity|].
  eexists. simpl. repeat split; apply Hc; assumption.
Qed.




(** *** Preserving and restoring the manual selection *)

(** When some preserved label is still present, the restored primary
    labels are the labels of the new items that were preserved. *)
Lemma restore_labels_when_some_survive (this : PointSelector)
    (preserved : PreservedManualSelection) (pointCloud : PointCloud) :
  filter (fun l => l ∈ primaryLabels preserved)
         (map label (pointMeshes pointCloud)) <> [] ->
  primaryLabelsOf (restoreManualSelection this (Some preserved) pointCloud)
  = filter (fun l => l ∈ primaryLabels preserved)
           (map label (pointMeshes pointCloud)).
Proof.
  assert (Hmap : forall meshes : list Mesh,
    map label (filter (fun mesh => label mesh ∈ primaryLabels preserved) meshes)
    = filter (fun l => l ∈ primaryLabels preserved) (map label meshes)).
  { induction meshes as [|m meshes IH]; [reflexivity|].
    simpl. rewrite !filter_cons.
    destruct (decide (label m ∈ primaryLabels preserved)); simpl;
      rewrite IH; reflexivity. }
  intros Hsome. rewrite <- Hmap in *.
  pose proof (restoreManualSelection_result this preserved pointCloud) as Hres.
  cbv zeta in Hres.
  destruct (filter _ (pointMeshes pointCloud)) as [|m matching];
    [contradiction|].
  destruct Hres as (state & Hstate & Hp & _).
  unfold primaryLabelsOf, getManualPrimaryMeshes. rewrite Hstate, Hp.
  reflexivity.
Qed.

(** C3 on the code: when re-projection drops every preserved label, the
    restoration does nothing, so the selector keeps the selection it had,
    with the labels (and the meshes) of the old projection. *)
Lemma restore_keeps_stale_selection :
  primaryLabelsOf rockClicked = ["rock"]
  /\ filter (fun l => l ∈ ["rock"]) (map label (pointMeshes onlyJazz)) = []
  /\ restoreManualSelection rockClicked
       (getPreservedManualSelection rockClicked) onlyJazz = rockClicked
  /\ primaryLabelsOf
       (restoreManualSelection rockClicked
          (getPreservedManualSelection rockClicked) onlyJazz) = ["rock"]
  /\ getManualPrimaryMeshes
       (restoreManualSelection rockClicked
          (getPreservedManualSelection rockClicked) onlyJazz) = [itemRock]
  /\ itemRock ∉ pointMeshes onlyJazz.
Proof.
  assert (Hfilter : filter (fun l => l ∈ ["rock"])
                      (map label (pointMeshes onlyJazz)) = []).
  { apply filter_nil_none. intros l Hl Hrock. simpl in Hl.
    apply list_elem_of_singleton in Hl. apply list_elem_of_singleton in Hrock.
    congruence. }
  assert (Hsame : restoreManualSelection rockClicked
            (getPreservedManualSelection rockClicked) onlyJazz = rockClicked).
  { pose proof (restoreManualSelection_result rockClicked
      (mkPreservedManualSelection ["rock"] (Some "rock") {["rock" := 1]})
      onlyJazz) as Hres.
    cbv zeta in Hres.
    rewrite filter_nil_none in Hres; [exact Hres|].
    intros mesh Hmesh Hrock. simpl in Hmesh, Hrock.
    apply list_elem_of_singleton in Hmesh. subst mesh.
    apply list_elem_of_singleton in Hrock. discriminate. }
  split; [reflexivity|]. split; [exact Hfilter|]. split; [exact Hsame|].
  rewrite Hsame. split; [reflexivity|]. split; [reflexivity|].
  simpl. intros Hin. apply list_elem_of_singleton in Hin. discriminate.
Qed.

(** *** [recalculateNeighbors] *)

Lemma map_get_elem_of {V : Type} (k : nat) (v : V) (m : JsMap V) :
  map_get k m = Some v -> (k, v) ∈ m.
Proof.
  induction m as [|[k' v'] m IH]; simpl; [discriminate|].
  destruct (Nat.eqb_spec k k') as [->|Hne].
  - intros [= ->]. apply list_elem_of_here.
  - intros H. apply list_elem_of_further, IH, H.
Qed.

Lemma neighborWeightOf_is_Some (options : Options) (meshes : list Mesh)
    (neighborDistances : JsMap R) (index : nat) (distance : R) (mesh : Mesh) :
  (index, distance) ∈ neighborDistances ->
  meshes !! index = Some mesh ->
  is_Some (neighborWeightOf options meshes neighborDistances (label mesh)).
Proof.
  intros Hin Hmesh.
  induction neighborDistances as [|[index' distance'] rest IH];
    [inversion Hin|].
  simpl. apply elem_of_cons in Hin as [[= <- <-]|Hin].
  - rewrite Hmesh. rewrite decide_True by reflexivity. eauto.
  - destruct (meshes !! index') as [other|]; [|apply IH, Hin].
    destruct (decide (label other = label mesh)); [eauto | apply IH, Hin].
Qed.

Lemma recalculateNeighbors_keeps (this : PointSelector)
    (pointCloud : option PointCloud) :
  let after := recalculateNeighbors this pointCloud in
  proximityMeshes after = proximityMeshes this
  /\ proximityWeights after = proximityWeights this
  /\ options after = options this
  /\ primaryMeshes <$> manualSelectionState after
     = primaryMeshes <$> manualSelectionState this
  /\ directlyClickedMesh <$> manualSelectionState after
     = directlyClickedMesh <$> manualSelectionState this
  /\ selectionWeights <$> manualSelectionState after
     = selectionWeights <$> manualSelectionState this.
Proof.
  unfold recalculateNeighbors.
  destruct (manualSelectionState this) as [state|] eqn:Hstate.
  - destruct (negb _); [simpl; auto 10|].
    destruct pointCloud; simpl; rewrite ?Hstate; auto 10.
  - simpl. rewrite Hstate. auto 10.
Qed.

Lemma recalculateNeighbors_off (this : PointSelector)
    (pointCloud : option PointCloud) (state : ManualSelectionState) :
  includeHighDimensionalNeighbors (options this) = false ->
  manualSelectionState this = Some state ->
  manualSelectionState (recalculateNeighbors this pointCloud)
  = Some (mkManualSelectionState (primaryMeshes state) (selectionWeights state)
            (directlyClickedMesh state) []).
Proof.
  intros Hoff Hstate. unfold recalculateNeighbors. rewrite Hstate, Hoff.
  reflexivity.
Qed.

(** C10.  [recalculateNeighbors] changes nothing but the neighbour
    distances of the manual selection: the proximity selection, the
    options, the primary meshes, the directly clicked mesh and the stored
    selection weights stay.  In particular, after a click made with
    neighbours included, turning the neighbours off and recalculating
    empties the neighbour distances only, and the label of every neighbour
    folded into the selection weights by the click still has an entry in
    every later combined weight map. *)
Theorem recalculateNeighbors_changes_only_neighborDistances :
  (forall (this : PointSelector) (pointCloud : option PointCloud),
     let after := recalculateNeighbors this pointCloud in
     proximityMeshes after = proximityMeshes this
     /\ proximityWeights after = proximityWeights this
     /\ options after = options this
     /\ primaryMeshes <$> manualSelectionState after
        = primaryMeshes <$> manualSelectionState this
     /\ directlyClickedMesh <$> manualSelectionState after
        = directlyClickedMesh <$> manualSelectionState this
     /\ selectionWeights <$> manualSelectionState after
        = selectionWeights <$> manualSelectionState this)
  /\ (forall (this : PointSelector) (cloud : PointCloud)
        (intersects : list SceneObject) (clickedRay : Ray)
        (cameraPosition : Vector3) (laterCloud : option PointCloud)
        (state : ManualSelectionState),
        let clicked := selectByClick this (Some cloud) intersects clickedRay
                                     cameraPosition in
        let after := recalculateNeighbors (updateOptions clicked neighborsOff)
                                          laterCloud in
        includeHighDimensionalNeighbors (options this) = true ->
        manualSelectionState clicked = Some state ->
        manualSelectionState after
        = Some (mkManualSelectionState (primaryMeshes state)
                  (selectionWeights state) (directlyClickedMesh state) [])
        /\ (forall (index : nat) (distance : R) (mesh : Mesh)
              (later : PointSelector) (anyCloud : option PointCloud),
              map_get index (neighborDistances state) = Some distance ->
              pointMeshes cloud !! index = Some mesh ->
              manualSelectionState later = manualSelectionState after ->
              is_Some (getCombinedWeights later anyCloud !! label mesh))).
Proof.
  split; [apply recalculateNeighbors_keeps|].
  intros this cloud intersects clickedRay cameraPosition laterCloud state
    clicked after Hinc Hstate.
  assert (Hafter : manualSelectionState after
    = Some (mkManualSelectionState (primaryMeshes state)
              (selectionWeights state) (directlyClickedMesh state) [])).
  { apply recalculateNeighbors_off; [reflexivity | exact Hstate]. }
  split; [exact Hafter|].
  intros index distance mesh later anyCloud Hget Hmesh Hlater.
  pose proof (selectByClick_result this cloud intersects clickedRay
                cameraPosition) as (_ & _ & _ & Hclick).
  fold clicked in Hclick.
  destruct (primariesOf this cloud intersects clickedRay cameraPosition);
    [congruence|].
  destruct Hclick as (state0 & clickWeights & Hstate0 & _ & _ & _ & Hweights).
  assert (state0 = state) by congruence. subst state0.
  rewrite Hinc in Hweights.
  assert (Hfolded : is_Some (selectionWeights state !! label mesh)).
  { rewrite Hweights, addNeighborsToWeights_lookup by assumption.
    destruct (clickWeights !! label mesh); [eauto|].
    eapply neighborWeightOf_is_Some; [|exact Hmesh].
    apply map_get_elem_of, Hget. }
  rewrite getCombinedWeights_sources.
  unfold manualSource. rewrite Hlater, Hafter. simpl.
  destruct Hfolded as [w Hw]. rewrite Hw.
  unfold strongerOf. destruct (proximitySource later (label mesh)); eauto.
Qed.

(** *** The run that leads to [rockClicked] *)

Lemma collectAlongRay_full (searchRay : Ray) (radius : R) (meshes : list Mesh) :
  collectAlongRay searchRay radius meshes
  = (filter (nearRay searchRay radius) meshes,
     weightsAlongRay searchRay radius
       (filter (nearRay searchRay radius) meshes)).
Proof.
  unfold collectAlongRay, weightsAlongRay. cbv zeta.
  assert (G : forall (meshes primaryMeshes : list Mesh) (selectionWeights : gmap string R),
    foldl (fun '((primaryMeshes, selectionWeights) : list Mesh * gmap string R) mesh =>
           match parent mesh with
           | None => (primaryMeshes, selectionWeights)
           | Some pointObject =>
               if decide (distanceSqToPoint searchRay
                            (getWorldPosition pointObject) < radius * radius)
               then
                 (primaryMeshes ++ [mesh],
                  <[label mesh :=
                      normalizedWeight
                        (sqrt (distanceSqToPoint searchRay
                                 (getWorldPosition pointObject))) radius]>
                    selectionWeights)
               else (primaryMeshes, selectionWeights)
           end)
        (primaryMeshes, selectionWeights) meshes
    = (primaryMeshes ++ filter (nearRay searchRay radius) meshes,
       foldl (fun (selectionWeights : gmap string R) mesh =>
           <[label mesh :=
               normalizedWeight (sqrt (distanceSqToRay searchRay mesh)) radius]>
             selectionWeights)
         selectionWeights (filter (nearRay searchRay radius) meshes))).
  { clear meshes. induction meshes as [|mesh meshes IH];
      intros primaryMeshes selectionWeights; simpl.
    - rewrite app_nil_r. reflexivity.
    - rewrite filter_cons.
      destruct (parent mesh) as [pointObject|] eqn:Hp.
      + destruct (decide (distanceSqToPoint searchRay
                            (getWorldPosition pointObject) < radius * radius))
          as [Hnear|Hfar].
        * rewrite IH.
          rewrite decide_True by (unfold nearRay; rewrite Hp; exact Hnear).
          assert (Hd : distanceSqToRay searchRay mesh
                       = distanceSqToPoint searchRay
                           (getWorldPosition pointObject))
            by (unfold distanceSqToRay; rewrite Hp; reflexivity).
          simpl. rewrite Hd, <- app_assoc. reflexivity.
        * rewrite IH.
          rewrite decide_False by (unfold nearRay; rewrite Hp; exact Hfar).
          reflexivity.
      + rewrite IH.
        rewrite decide_False by (unfold nearRay; rewrite Hp; tauto).
        reflexivity. }
  apply (G meshes [] ∅).
Qed.

Lemma sqrt_of_square (v : R) : 0 <= v -> sqrt (v * v) = v.
Proof. apply sqrt_square. Qed.

Lemma normalize_towards_rock :
  normalize (sub (mkVector3 3 0 0) (mkVector3 3 0 10)) = mkVector3 0 0 (-1).
Proof.
  unfold normalize, Three.length, lengthSq, sub. simpl.
  replace ((3 - 3) * (3 - 3) + (0 - 0) * (0 - 0) + (0 - 10) * (0 - 10))
    with (10 * 10) by lra.
  rewrite sqrt_of_square by lra.
  destruct (decide (10 = 0)); [lra|].
  f_equal; lra.
Qed.

Lemma downRay_jazz : distanceSqToPoint downRay (mkVector3 0 0 0) = 9.
Proof.
  unfold distanceSqToPoint, downRay, dot, sub, distanceToSquared,
    addScaledVector. simpl.
  destruct (decide _); lra.
Qed.

Lemma downRay_rock : distanceSqToPoint downRay (mkVector3 3 0 0) = 0.
Proof.
  unfold distanceSqToPoint, downRay, dot, sub, distanceToSquared,
    addScaledVector. simpl.
  destruct (decide _); lra.
Qed.

(** A click on [itemRock] from (3, 0, 10), for any options with click
    radius 1. *)
Lemma clicked_rock (options : Options) :
  threeDClickRadius options = 1 ->
  selectByClick (newPointSelector options) (Some twoItems)
    [PointMesh itemRock] downRay (mkVector3 3 0 10)
  = mkPointSelector
      (Some (mkManualSelectionState [itemRock]
               (if includeHighDimensionalNeighbors options
                then addNeighborsToWeights options (Some twoItems)
                       (findHighDimensionalNeighbors
                          (primaryVectorsOf [itemRock])
                          (allVectorsOf [itemJazz; itemRock])
                          (neighborRadius options))
                       {["rock" := 1]}
                else {["rock" := 1]})
               (Some itemRock)
               (if includeHighDimensionalNeighbors options
                then findHighDimensionalNeighbors
                       (primaryVectorsOf [itemRock])
                       (allVectorsOf [itemJazz; itemRock])
                       (neighborRadius options)
                else [])))
      [] ∅ options.
Proof.
  intros Hradius.
  unfold selectByClick. cbv beta iota zeta.
  change (parent itemRock) with (Some (mkObject3D (mkVector3 3 0 0))).
  cbv beta iota zeta.
  change (getWorldPosition (mkObject3D (mkVector3 3 0 0)))
    with (mkVector3 3 0 0).
  rewrite normalize_towards_rock. fold downRay.
  rewrite collectAlongRay_full.
  change (Selection.options (newPointSelector options)) with options.
  rewrite Hradius.
  change (pointMeshes twoItems) with [itemJazz; itemRock].
  rewrite !filter_cons, filter_nil.
  rewrite decide_False.
  2: { unfold nearRay. simpl. unfold getWorldPosition. simpl.
       rewrite downRay_jazz. lra. }
  rewrite decide_True.
  2: { unfold nearRay. simpl. unfold getWorldPosition. simpl.
       rewrite downRay_rock. lra. }
  cbv beta iota zeta.
  assert (Hw : weightsAlongRay downRay 1 [itemRock] = {["rock" := 1]}).
  { unfold weightsAlongRay. cbn [foldl].
    change (label itemRock) with "rock".
    assert (Hd : distanceSqToRay downRay itemRock = 0) by apply downRay_rock.
    rewrite Hd, sqrt_0. unfold normalizedWeight.
    rewrite Rmin_left by lra. replace (1 - 0 / 1) with 1 by lra.
    reflexivity. }
  rewrite Hw.
  destruct (includeHighDimensionalNeighbors options); reflexivity.
Qed.

Lemma sqrt_16 : sqrt 16 = 4.
Proof. replace 16 with (4 * 4) by lra. apply sqrt_square. lra. Qed.

Lemma sqrt_25 : sqrt 25 = 5.
Proof. replace 25 with (5 * 5) by lra. apply sqrt_square. lra. Qed.

Lemma nearby_of_ship :
  querySpatialGrid twoItems (mkVector3 0 0 4) 5 = [itemJazz].
Proof.
  unfold querySpatialGrid.
  apply Permutation_length_1_inv. symmetry.
  rewrite query_build_perm by lra.
  change (pointMeshes twoItems) with [itemJazz; itemRock].
  rewrite !filter_cons, filter_nil.
  rewrite decide_True.
  2: { unfold withinRadius, distanceTo, distanceToSquared. simpl.
       replace ((0 - 0) * (0 - 0) + (0 - 0) * (0 - 0) + (4 - 0) * (4 - 0))
         with 16 by lra.
       rewrite sqrt_16. lra. }
  rewrite decide_False.
  2: { unfold withinRadius, distanceTo, distanceToSquared. simpl.
       replace ((0 - 3) * (0 - 3) + (0 - 0) * (0 - 0) + (4 - 0) * (4 - 0))
         with 25 by lra.
       rewrite sqrt_25. lra. }
  reflexivity.
Qed.

Lemma near_state (this : PointSelector) :
  cameraProximityRadius (options this) = 5 ->
  updateProximitySelection this (Some twoItems) (mkVector3 0 0 4)
  = mkPointSelector (manualSelectionState this) [itemJazz]
                    {["jazz" := 1 / 5]} (options this).
Proof.
  intros Hr. unfold updateProximitySelection. rewrite Hr. cbv beta iota zeta.
  rewrite nearby_of_ship.
  cbn [proximityLoop].
  change (parent itemJazz) with (Some (mkObject3D (mkVector3 0 0 0))).
  cbv beta iota zeta.
  change (getWorldPosition (mkObject3D (mkVector3 0 0 0))) with (mkVector3 0 0 0).
  assert (Hd : distanceToSquared (mkVector3 0 0 4) (mkVector3 0 0 0) = 16).
  { unfold distanceToSquared. simpl. lra. }
  rewrite Hd. rewrite decide_True by lra.
  rewrite sqrt_16. unfold normalizedWeight. rewrite Rmin_left by lra.
  change (label itemJazz) with "jazz".
  replace (1 - 4 / 5) with (1 / 5) by lra.
  reflexivity.
Qed.

Lemma neighbors_of_rock :
  findHighDimensionalNeighbors (primaryVectorsOf [itemRock])
    (allVectorsOf [itemJazz; itemRock]) 2
  = [(0%nat, 1); (1%nat, 0)].
Proof.
  unfold findHighDimensionalNeighbors, primaryVectorsOf, allVectorsOf.
  cbn [elems map foldl entries imap vector itemJazz itemRock].
  unfold visitCandidate at 2.
  cbn [same_object ref Nat.eqb andb elems].
  rewrite cosineDistance_unitY_unitX.
  rewrite decide_True by lra.
  cbn [map_get map_set].
  unfold visitCandidate.
  cbn [same_object ref Nat.eqb andb elems].
  unfold compose. cbv beta iota zeta. cbn [elems].
  rewrite cosineDistance_unitY_unitY.
  rewrite decide_True by lra.
  cbn [map_get map_set Nat.eqb].
  reflexivity.
Qed.

Lemma rockClicked_reached : rockClickedRun = rockClicked.
Proof.
  unfold rockClickedRun. cbv zeta.
  rewrite clicked_rock by reflexivity.
  change (includeHighDimensionalNeighbors startOptions) with false.
  cbv beta iota. rewrite near_state by reflexivity.
  unfold recalculateNeighbors, updateOptions, neighborsOn, startOptions.
  cbn [manualSelectionState options includeHighDimensionalNeighbors negb
       neighborRadius default from_option newNeighborRadius
       newIncludeHighDimensionalNeighbors primaryMeshes pointMeshes twoItems
       selectionWeights directlyClickedMesh proximityMeshes proximityWeights
       threeDClickRadius cameraProximityRadius newThreeDClickRadius
       newCameraProximityRadius].
  unfold Datatypes.id. cbn [negb].
  rewrite neighbors_of_rock. reflexivity.
Qed.

Lemma rockClicked_reachable : Reachable rockClicked.
Proof.
  rewrite <- rockClicked_reached. unfold rockClickedRun. cbv zeta.
  apply reach_recalculateNeighbors, reach_updateOptions,
    reach_updateProximitySelection, reach_selectByClick.
  - apply reach_new.
  - intros mesh Hmesh. apply elem_of_cons in Hmesh as [[= ->]|Hmesh].
    + simpl. apply list_elem_of_further, list_elem_of_here.
    + inversion Hmesh.
Qed.

(** A click made with the neighbours on folds "jazz" into the selection
    weights; after the neighbours are turned off and recalculated the
    neighbour distances are empty and "jazz" still has its folded weight
    in the combined map. *)
Example folded_neighbor_survives :
  let clicked :=
    selectByClick (newPointSelector weightsOptions) (Some twoItems)
      [PointMesh itemRock] downRay (mkVector3 3 0 10) in
  let after :=
    recalculateNeighbors (updateOptions clicked neighborsOff)
                         (Some twoItems) in
  (neighborDistances <$> manualSelectionState clicked)
    = Some [(0%nat, 1); (1%nat, 0)]
  /\ (neighborDistances <$> manualSelectionState after) = Some []
  /\ getCombinedWeights after (Some twoItems) !! "jazz" = Some (1 / 2)
  /\ getCombinedWeights after (Some twoItems) !! "rock" = Some 1.
Proof.
  cbv zeta. rewrite clicked_rock by reflexivity.
  change (includeHighDimensionalNeighbors weightsOptions) with true.
  change (neighborRadius weightsOptions) with 2.
  cbv beta iota. rewrite neighbors_of_rock.
  split; [reflexivity|]. split; [reflexivity|].
  assert (Hfold : forall l,
    addNeighborsToWeights weightsOptions (Some twoItems)
      [(0%nat, 1); (1%nat, 0)] {["rock" := 1]} !! l
    = match ({["rock" := 1]} : gmap string R) !! l with
      | Some w => Some w
      | None => neighborWeightOf weightsOptions [itemJazz; itemRock]
                  [(0%nat, 1); (1%nat, 0)] l
      end).
  { intros l. apply addNeighborsToWeights_lookup. reflexivity. }
  split.
  - rewrite getCombinedWeights_sources.
    unfold proximitySource, manualSource. simpl.
    rewrite lookup_empty. simpl. rewrite Hfold.
    rewrite lookup_singleton_ne by discriminate. simpl.
    destruct (decide ("jazz" = "jazz")); [|congruence].
    f_equal. rewrite Rmin_left by lra. lra.
  - rewrite getCombinedWeights_sources.
    unfold proximitySource, manualSource. simpl.
    rewrite lookup_empty. simpl. rewrite Hfold.
    rewrite lookup_singleton_eq. reflexivity.
Qed.

End SelectionFacts.

(** ** The label renderer *)

Module LabelsFacts.
Import Js Three Scene Labels.
Local Open Scope R_scope.

(** *** The candidates *)

Lemma visitMesh_spec (view : View) (highlightedObjects : list Mesh)
    (labelSelectionConeDegrees labelSelectionConeHeight : R)
    (candidates : list Candidate) (mesh : Mesh) :
  visitMesh view highlightedObjects (tan (degToRad labelSelectionConeDegrees))
            labelSelectionConeHeight candidates mesh
  = candidates
    ++ (if decide (isCandidate view highlightedObjects
                     labelSelectionConeDegrees labelSelectionConeHeight mesh)
        then [(mesh, distanceToCamera view mesh)] else []).
Proof.
  unfold visitMesh.
  destruct (includes highlightedObjects mesh) eqn:Hhl.
  { rewrite decide_False by (intros (? & _); congruence).
    rewrite app_nil_r. reflexivity. }
  destruct (parent mesh) as [pointObject|] eqn:Hparent.
  2: { rewrite decide_False
         by (intros (_ & (o & ? & _) & _); congruence).
       rewrite app_nil_r. reflexivity. }
  destruct (frustumContainsPoint view (getWorldPosition pointObject)) eqn:Hfr;
    simpl.
  2: { rewrite decide_False; [rewrite app_nil_r; reflexivity|].
       intros (_ & (o & Ho & Hf) & _). congruence. }
  destruct (decide (_ /\ _)) as [[Hpos Hlt]|Hout].
  2: { rewrite decide_False; [rewrite app_nil_r; reflexivity|].
       intros (_ & _ & (o & Ho & [Hp Hl] & _) & _). apply Hout.
       assert (o = pointObject) by congruence. subst o.
       split; [apply Rlt_gt|]; assumption. }
  destruct (decide (_ < _)) as [Hin|Hfar].
  2: { rewrite decide_False; [rewrite app_nil_r; reflexivity|].
       intros (_ & _ & (o & Ho & _ & Hr) & _).
       assert (o = pointObject) by congruence. subst o. contradiction. }
  destruct (isOccluded view mesh) eqn:Hocc; simpl.
  { rewrite decide_False by (intros (_ & _ & _ & ?); congruence).
    rewrite app_nil_r. reflexivity. }
  rewrite decide_True.
  - unfold distanceToCamera. rewrite Hparent. reflexivity.
  - split; [assumption|]. split; [exists pointObject; auto|].
    split; [|assumption].
    exists pointObject. split; [assumption|]. cbv zeta.
    split; [split; [apply Rgt_lt|]|]; assumption.
Qed.

Lemma collectCandidates_spec (this : LabelRenderer) (view : View)
    (highlightedObjects : list Mesh)
    (labelSelectionConeDegrees labelSelectionConeHeight : R) :
  collectCandidates this view highlightedObjects labelSelectionConeDegrees
                    labelSelectionConeHeight
  = map (fun mesh => (mesh, distanceToCamera view mesh))
        (filter (isCandidate view highlightedObjects labelSelectionConeDegrees
                             labelSelectionConeHeight)
                (pointMeshes this)).
Proof.
  unfold collectCandidates. cbv zeta.
  assert (G : forall meshes candidates,
    foldl (visitMesh view highlightedObjects
             (tan (degToRad labelSelectionConeDegrees))
             labelSelectionConeHeight) candidates meshes
    = candidates
      ++ map (fun mesh => (mesh, distanceToCamera view mesh))
           (filter (isCandidate view highlightedObjects
                      labelSelectionConeDegrees labelSelectionConeHeight)
                   meshes)).
  { induction meshes as [|mesh meshes IH]; intros candidates; simpl.
    - rewrite app_nil_r. reflexivity.
    - rewrite IH, visitMesh_spec, filter_cons.
      destruct (decide (isCandidate _ _ _ _ mesh)); simpl.
      + rewrite <- app_assoc. reflexivity.
      + rewrite app_nil_r. reflexivity. }
  apply (G (pointMeshes this) []).
Qed.

(** *** The ranking *)

Lemma insertByDistance_perm (candidate : Candidate) (sorted : list Candidate) :
  insertByDistance candidate sorted ≡ₚ candidate :: sorted.
Proof.
  induction sorted as [|first rest IH]; simpl; [reflexivity|].
  destruct (decide (snd first < snd candidate)); [|reflexivity].
  rewrite IH. apply perm_swap.
Qed.

Lemma sortByDistance_perm (candidates : list Candidate) :
  sortByDistance candidates ≡ₚ candidates.
Proof.
  induction candidates as [|c candidates IH]; simpl; [reflexivity|].
  rewrite insertByDistance_perm, IH. reflexivity.
Qed.

Lemma insertByDistance_sorted (candidate : Candidate)
    (sorted : list Candidate) :
  StronglySorted (fun a b => snd a <= snd b) sorted ->
  StronglySorted (fun a b => snd a <= snd b)
                 (insertByDistance candidate sorted).
Proof.
  induction sorted as [|first rest IH]; intros Hs; simpl.
  - constructor; constructor.
  - inversion Hs as [|? ? Hrest Hfirst]; subst.
    destruct (decide (snd first < snd candidate)) as [Hlt|Hge].
    + constructor; [apply IH, Hrest|].
      apply Forall_forall. intros c Hc.
      rewrite insertByDistance_perm in Hc.
      apply elem_of_cons in Hc as [->|Hc]; [lra|].
      rewrite Forall_forall in Hfirst. apply Hfirst, Hc.
    + constructor; [assumption|].
      constructor; [lra|].
      apply Forall_forall. intros c Hc.
      rewrite Forall_forall in Hfirst. specialize (Hfirst c Hc). lra.
Qed.

Lemma sortByDistance_sorted (candidates : list Candidate) :
  StronglySorted (fun a b => snd a <= snd b) (sortByDistance candidates).
Proof.
  induction candidates as [|c candidates IH]; simpl; [constructor|].
  apply insertByDistance_sorted, IH.
Qed.

Lemma sorted_by_key (f : Mesh -> R) (l : list Candidate) :
  (forall c, c ∈ l -> snd c = f (fst c)) ->
  StronglySorted (fun a b => snd a <= snd b) l ->
  StronglySorted (fun a b => f a <= f b) (map fst l).
Proof.
  intros Hkey Hs. induction Hs as [|c l Hs IH Hall]; simpl; [constructor|].
  constructor.
  - apply IH. intros c' Hc'. apply Hkey, list_elem_of_further, Hc'.
  - apply Forall_forall. intros m Hm.
    apply list_elem_of_fmap in Hm as (c' & -> & Hc').
    rewrite Forall_forall in Hall. specialize (Hall c' Hc').
    rewrite <- (Hkey c) by apply list_elem_of_here.
    rewrite <- (Hkey c') by (apply list_elem_of_further, Hc').
    exact Hall.
Qed.

(** *** Sets of meshes *)

Lemma includes_app (l k : list Mesh) (mesh : Mesh) :
  includes (l ++ k) mesh = includes l mesh || includes k mesh.
Proof. unfold includes. apply existsb_app. Qed.

Lemma newSet_from (meshes : list Mesh) : forall set : list Mesh,
  let result :=
    foldl (fun set mesh => if includes set mesh then set else set ++ [mesh])
          set meshes in
  (forall mesh, includes result mesh = includes set mesh || includes meshes mesh)
  /\ (forall mesh, mesh ∈ result -> mesh ∈ set \/ mesh ∈ meshes).
Proof.
  induction meshes as [|m meshes IH]; intros set; simpl.
  - split; [intros mesh; rewrite orb_false_r; reflexivity | auto].
  - destruct (IH (if includes set m then set else set ++ [m])) as [IHi IHe].
    split.
    + intros mesh. rewrite IHi.
      destruct (includes set m) eqn:Hm.
      * destruct (sameMesh mesh m) eqn:Hsame; [|reflexivity].
        simpl. unfold sameMesh in Hsame. apply Nat.eqb_eq in Hsame.
        assert (includes set mesh = true) as ->; [|reflexivity].
        unfold includes in *. apply existsb_exists in Hm as (x & Hx & Hmx).
        apply existsb_exists. exists x. split; [assumption|].
        unfold sameMesh in *. apply Nat.eqb_eq in Hmx. apply Nat.eqb_eq.
        congruence.
      * rewrite includes_app. simpl. rewrite orb_false_r.
        rewrite orb_assoc. reflexivity.
    + intros mesh Hmesh. destruct (IHe mesh Hmesh) as [Hset|Htail].
      * destruct (includes set m); [auto|].
        apply elem_of_app in Hset as [Hset|Hhere]; [auto|].
        apply list_elem_of_singleton in Hhere. subst.
        right. apply list_elem_of_here.
      * right. apply list_elem_of_further, Htail.
Qed.

Lemma includes_newSet (meshes : list Mesh) (mesh : Mesh) :
  includes (newSet meshes) mesh = includes meshes mesh.
Proof. unfold newSet. destruct (newSet_from meshes []) as [H _]. apply H. Qed.

Lemma elem_of_newSet (meshes : list Mesh) (mesh : Mesh) :
  mesh ∈ newSet meshes -> mesh ∈ meshes.
Proof.
  unfold newSet. destruct (newSet_from meshes []) as [_ H].
  intros Hm. destruct (H mesh Hm) as [Hnil|?]; [inversion Hnil | assumption].
Qed.

Lemma includes_elem_of (meshes : list Mesh) (mesh : Mesh) :
  mesh ∈ meshes -> includes meshes mesh = true.
Proof.
  intros Hm. unfold includes. apply existsb_exists. exists mesh.
  split; [apply list_elem_of_In, Hm | apply Nat.eqb_refl].
Qed.

(** *** The labels *)

Lemma showVisible_lookup (newVisibleMeshes : list Mesh) :
  forall (labelVisibility : gmap nat bool) (r : nat),
  ((exists mesh, mesh ∈ newVisibleMeshes /\ hasLabel mesh = true
                 /\ mesh_ref mesh = r)
   /\ showVisible newVisibleMeshes labelVisibility !! r = Some true)
  \/ (~ (exists mesh, mesh ∈ newVisibleMeshes /\ hasLabel mesh = true
                      /\ mesh_ref mesh = r)
      /\ showVisible newVisibleMeshes labelVisibility !! r
         = labelVisibility !! r).
Proof.
  unfold showVisible.
  induction newVisibleMeshes as [|m meshes IH]; intros labelVisibility r;
    simpl.
  - right. split; [|reflexivity]. intros (mesh & Hm & _). inversion Hm.
  - destruct (IH (if hasLabel m then <[mesh_ref m := true]> labelVisibility
                  else labelVisibility) r) as [[Hex ->]|[Hnex ->]].
    + left. split; [|reflexivity].
      destruct Hex as (mesh & Hm & Hl & Hr). exists mesh.
      split; [apply list_elem_of_further|]; auto.
    + destruct (hasLabel m) eqn:Hlabel.
      * destruct (decide (mesh_ref m = r)) as [Hr|Hr].
        -- left. split; [|subst r; apply lookup_insert_eq].
           exists m. split; [apply list_elem_of_here | auto].
        -- right. split; [|apply lookup_insert_ne; assumption].
           intros (mesh & Hm & Hl & Hmr).
           apply elem_of_cons in Hm as [->|Hm]; [contradiction|].
           apply Hnex. eauto.
      * right. split; [|reflexivity].
        intros (mesh & Hm & Hl & Hmr).
        apply elem_of_cons in Hm as [->|Hm]; [congruence|].
        apply Hnex. eauto.
Qed.

Lemma hideLeaving_lookup (newVisibleMeshes visibleBefore : list Mesh) :
  forall (labelVisibility : gmap nat bool) (r : nat),
  ((exists mesh, mesh ∈ visibleBefore
                 /\ includes newVisibleMeshes mesh = false
                 /\ hasLabel mesh = true /\ mesh_ref mesh = r)
   /\ hideLeaving newVisibleMeshes visibleBefore labelVisibility !! r
      = Some false)
  \/ (~ (exists mesh, mesh ∈ visibleBefore
                      /\ includes newVisibleMeshes mesh = false
                      /\ hasLabel mesh = true /\ mesh_ref mesh = r)
      /\ hideLeaving newVisibleMeshes visibleBefore labelVisibility !! r
         = labelVisibility !! r).
Proof.
  unfold hideLeaving.
  induction visibleBefore as [|m meshes IH]; intros labelVisibility r; simpl.
  - right. split; [|reflexivity]. intros (mesh & Hm & _). inversion Hm.
  - destruct (IH (if negb (includes newVisibleMeshes m) && hasLabel m
                  then <[mesh_ref m := false]> labelVisibility
                  else labelVisibility) r) as [[Hex ->]|[Hnex ->]].
    + left. split; [|reflexivity].
      destruct Hex as (mesh & Hm & H). exists mesh.
      split; [apply list_elem_of_further|]; auto.
    + destruct (includes newVisibleMeshes m) eqn:Hinc; simpl.
      * right. split; [|reflexivity].
        intros (mesh & Hm & Hi & Hl & Hmr).
        apply elem_of_cons in Hm as [->|Hm]; [congruence|].
        apply Hnex. eauto.
      * destruct (hasLabel m) eqn:Hlabel; simpl.
        -- destruct (decide (mesh_ref m = r)) as [Hr|Hr].
           ++ left. split; [|subst r; apply lookup_insert_eq].
              exists m. split; [apply list_elem_of_here | auto].
           ++ right. split; [|apply lookup_insert_ne; assumption].
              intros (mesh & Hm & Hi & Hl & Hmr).
              apply elem_of_cons in Hm as [->|Hm]; [contradiction|].
              apply Hnex. eauto.
        -- right. split; [|reflexivity].
           intros (mesh & Hm & Hi & Hl & Hmr).
           apply elem_of_cons in Hm as [->|Hm]; [congruence|].
           apply Hnex. eauto.
Qed.

Lemma runs_not_throttled (frameCount labelUpdateThrottle : nat) (force : bool) :
  runs frameCount labelUpdateThrottle force ->
  throttled frameCount labelUpdateThrottle force = false.
Proof.
  unfold runs, throttled. intros [->|[Hne Hmod]]; [reflexivity|].
  rewrite Hmod. destruct (Nat.eqb_spec labelUpdateThrottle 0); [contradiction|].
  simpl. apply andb_false_r.
Qed.

(** C7.  In a run that is not throttled, the meshes that are not
    highlighted and pass the frustum, cone and occlusion tests are ranked
    by distance to the camera, ascending, and the first [maxInViewLabels]
    of the ranking are shown; the highlighted meshes skip the frustum and
    cone tests, and every highlighted mesh that is not occluded is shown,
    whatever their number.  The labels of the shown meshes are made
    visible, the labels of the meshes that leave the shown set are hidden,
    and no other label is made visible. *)
Theorem updateLabelVisibilities_nearest_and_highlighted
    (this : LabelRenderer) (view : View) (highlightedObjects : list Mesh)
    (frameCount labelUpdateThrottle : nat)
    (labelSelectionConeDegrees labelSelectionConeHeight : R)
    (maxInViewLabels : nat) (force : bool) :
  runs frameCount labelUpdateThrottle force ->
  let after :=
    updateLabelVisibilities this view highlightedObjects frameCount
      labelUpdateThrottle labelSelectionConeDegrees labelSelectionConeHeight
      maxInViewLabels force in
  let candidates :=
    filter (isCandidate view highlightedObjects labelSelectionConeDegrees
                        labelSelectionConeHeight) (pointMeshes this) in
  let shownHighlighted :=
    filter (fun mesh => isOccluded view mesh = false) highlightedObjects in
  exists ranked : list Mesh,
    ranked ≡ₚ candidates
    /\ StronglySorted
         (fun a b => distanceToCamera view a <= distanceToCamera view b) ranked
    /\ pointsWithVisibleLabels after
       = newSet (newSet (take maxInViewLabels ranked) ++ shownHighlighted)
    /\ (forall mesh,
          includes (pointsWithVisibleLabels after) mesh
          = includes (take maxInViewLabels ranked) mesh
            || includes shownHighlighted mesh)
    /\ (forall mesh,
          mesh ∈ pointsWithVisibleLabels after -> hasLabel mesh = true ->
          labelVisibility after !! mesh_ref mesh = Some true)
    /\ (forall mesh,
          mesh ∈ pointsWithVisibleLabels this ->
          includes (pointsWithVisibleLabels after) mesh = false ->
          hasLabel mesh = true ->
          labelVisibility after !! mesh_ref mesh = Some false)
    /\ (forall r,
          labelVisibility after !! r = Some true ->
          labelVisibility this !! r = Some true
          \/ exists mesh,
               mesh ∈ pointsWithVisibleLabels after /\ mesh_ref mesh = r).
Proof.
  intros Hruns. cbv zeta. unfold updateLabelVisibilities.
  rewrite (runs_not_throttled _ _ _ Hruns). cbv zeta.
  rewrite collectCandidates_spec.
  set (candidates := filter (isCandidate view highlightedObjects
         labelSelectionConeDegrees labelSelectionConeHeight) (pointMeshes this)).
  set (sorted := sortByDistance
         (map (fun mesh => (mesh, distanceToCamera view mesh)) candidates)).
  set (shownHighlighted :=
         filter (fun mesh => isOccluded view mesh = false) highlightedObjects).
  exists (map fst sorted).
  assert (Hperm : sorted
            ≡ₚ map (fun mesh => (mesh, distanceToCamera view mesh)) candidates)
    by apply sortByDistance_perm.
  rewrite (firstn_map fst maxInViewLabels sorted).
  set (newVisible := newSet (newSet (map fst (take maxInViewLabels sorted))
                             ++ shownHighlighted)).
  simpl pointsWithVisibleLabels. simpl labelVisibility.
  split; [|split; [|split; [|split; [|split; [|split]]]]].
  - rewrite Hperm. rewrite map_map. simpl. rewrite map_id. reflexivity.
  - apply sorted_by_key; [|apply sortByDistance_sorted].
    intros c Hc. rewrite Hperm in Hc.
    apply list_elem_of_fmap in Hc as (mesh & -> & _). reflexivity.
  - reflexivity.
  - intros mesh. unfold newVisible.
    rewrite includes_newSet, includes_app, includes_newSet. reflexivity.
  - intros mesh Hmesh Hlabel.
    destruct (showVisible_lookup newVisible
                (hideLeaving newVisible (pointsWithVisibleLabels this)
                             (labelVisibility this)) (mesh_ref mesh))
      as [[_ Hshow]|[Hnone _]]; [exact Hshow|].
    exfalso. apply Hnone. eauto.
  - intros mesh Hmesh Hout Hlabel.
    destruct (showVisible_lookup newVisible
                (hideLeaving newVisible (pointsWithVisibleLabels this)
                             (labelVisibility this)) (mesh_ref mesh))
      as [[(other & Hother & _ & Href) _]|[_ ->]].
    + exfalso. apply includes_elem_of in Hother.
      unfold includes in Hother, Hout.
      apply existsb_exists in Hother as (x & Hx & Hsame).
      assert (existsb (sameMesh mesh) newVisible = true); [|congruence].
      apply existsb_exists. exists x. split; [assumption|].
      unfold sameMesh in *. apply Nat.eqb_eq in Hsame. apply Nat.eqb_eq.
      congruence.
    + destruct (hideLeaving_lookup newVisible (pointsWithVisibleLabels this)
                  (labelVisibility this) (mesh_ref mesh))
        as [[_ Hhide]|[Hnone _]]; [exact Hhide|].
      exfalso. apply Hnone. exists mesh. auto.
  - intros r Hvisible.
    destruct (showVisible_lookup newVisible
                (hideLeaving newVisible (pointsWithVisibleLabels this)
                             (labelVisibility this)) r)
      as [[(mesh & Hmesh & _ & Href) _]|[_ Hsame]]; [right; eauto|].
    rewrite Hsame in Hvisible.
    destruct (hideLeaving_lookup newVisible (pointsWithVisibleLabels this)
                (labelVisibility this) r) as [[_ Hhide]|[_ Hkeep]].
    + congruence.
    + left. congruence.
Qed.

Lemma updateLabelVisibilities_nearest_and_highlighted_witness :
  let this := newLabelRenderer [itemJazzLabel; itemRockLabel] in
  let after := updateLabelVisibilities this openView [itemRockLabel] 7 5 25 40 5
                 true in
  let candidates :=
    filter (isCandidate openView [itemRockLabel] 25 40) (pointMeshes this) in
  let shownHighlighted :=
    filter (fun mesh => isOccluded openView mesh = false) [itemRockLabel] in
  exists ranked : list Mesh,
    ranked ≡ₚ candidates
    /\ StronglySorted
         (fun a b => distanceToCamera openView a <= distanceToCamera openView b)
         ranked
    /\ pointsWithVisibleLabels after
       = newSet (newSet (take 5 ranked) ++ shownHighlighted)
    /\ (forall mesh,
          includes (pointsWithVisibleLabels after) mesh
          = includes (take 5 ranked) mesh || includes shownHighlighted mesh)
    /\ (forall mesh,
          mesh ∈ pointsWithVisibleLabels after -> hasLabel mesh = true ->
          labelVisibility after !! mesh_ref mesh = Some true)
    /\ (forall mesh,
          mesh ∈ pointsWithVisibleLabels this ->
          includes (pointsWithVisibleLabels after) mesh = false ->
          hasLabel mesh = true ->
          labelVisibility after !! mesh_ref mesh = Some false)
    /\ (forall r,
          labelVisibility after !! r = Some true ->
          labelVisibility this !! r = Some true
          \/ exists mesh,
               mesh ∈ pointsWithVisibleLabels after /\ mesh_ref mesh = r).
Proof.
  apply (updateLabelVisibilities_nearest_and_highlighted
           (newLabelRenderer [itemJazzLabel; itemRockLabel]) openView
           [itemRockLabel] 7 5 25 40 5 true).
  left. reflexivity.
Defined.

End LabelsFacts.

(** ** The shuffle, and the selected embeddings: how many, and which *)

Module GeneratorMoreFacts.
Import Js Points GeneratorFacts.

Lemma unusedPool_nil (embeddingsCache : list Embedding) :
  unusedPool embeddingsCache [] = embeddingsCache.
Proof.
  unfold unusedPool. induction embeddingsCache as [|e l IH]; [reflexivity|].
  rewrite filter_cons, decide_True by (simpl; apply not_elem_of_nil).
  f_equal. exact IH.
Qed.

Lemma shuffleEmbeddings_length {A : Type} (seed : Z) (l : list A) :
  length (snd (shuffleEmbeddings seed l)) = length l.
Proof. apply Permutation_length, shuffleEmbeddings_perm. Qed.

(** X7.  The number of embeddings [generatePointCloudData] selects: the
    smaller of [pointCount] and the number of the current embeddings plus
    that of the cache entries whose label is not among them; never more
    than [pointCount]. *)
Theorem selection_size (seed : Z) (embeddingsCache : list Embedding)
    (pointCount : nat) (current : list Embedding) :
  let selected :=
    snd (generatePointCloudData_selectedEmbeddings seed embeddingsCache
           pointCount current) in
  length selected
  = Nat.min pointCount
      (length current + length (unusedPool embeddingsCache current))
  /\ (length selected <= pointCount)%nat.
Proof.
  cbv zeta.
  assert (Hlen : length (snd (generatePointCloudData_selectedEmbeddings seed
                               embeddingsCache pointCount current))
    = Nat.min pointCount
        (length current + length (unusedPool embeddingsCache current))).
  { destruct current as [|e current].
    - rewrite selection_from_scratch, unusedPool_nil. simpl.
      rewrite length_take, shuffleEmbeddings_length. reflexivity.
    - rewrite selection_from_previous by discriminate.
      destruct (decide (pointCount < length (e :: current))%nat) as [Hlt|Hge].
      + simpl snd. rewrite length_take. lia.
      + destruct (decide (length (e :: current) < pointCount)%nat) as [Hlt|Heq].
        * cbv zeta. cbn [snd].
          rewrite length_app, shuffleEmbeddings_length, length_take. lia.
        * simpl snd. lia. }
  split; [exact Hlen | rewrite Hlen; lia].
Qed.

Lemma labels_of_taken (n : nat) (l : list Embedding) :
  NoDup (map fst l) -> NoDup (map fst (take n l)).
Proof.
  intros Hl. apply (sublist_NoDup _ (map fst l)); [assumption|].
  apply (fmap_sublist fst), sublist_take.
Qed.

Lemma labels_of_unusedPool (embeddingsCache current : list Embedding) :
  NoDup (map fst embeddingsCache) ->
  NoDup (map fst (unusedPool embeddingsCache current)).
Proof.
  intros Hl. apply (sublist_NoDup _ (map fst embeddingsCache)); [assumption|].
  apply (fmap_sublist fst). unfold unusedPool. apply sublist_filter.
Qed.

(** X8.  No label is selected twice: when the labels of the cache are
    distinct and those of the current embeddings are, the labels of the
    selected embeddings are distinct, and every selected embedding is a
    current embedding or an entry of the cache. *)
Theorem selection_labels_distinct (seed : Z) (embeddingsCache : list Embedding)
    (pointCount : nat) (current : list Embedding) :
  NoDup (map fst embeddingsCache) ->
  NoDup (map fst current) ->
  let selected :=
    snd (generatePointCloudData_selectedEmbeddings seed embeddingsCache
           pointCount current) in
  NoDup (map fst selected)
  /\ (forall entry, entry ∈ selected ->
        entry ∈ current \/ entry ∈ embeddingsCache).
Proof.
  intros Hcache Hcurrent. cbv zeta.
  destruct current as [|e current].
  - rewrite selection_from_scratch. cbn [snd]. split.
    + apply labels_of_taken.
      apply (NoDup_Permutation_proper (map fst embeddingsCache));
        [|exact Hcache].
      symmetry. apply (fmap_Permutation fst), shuffleEmbeddings_perm.
    + intros entry Hentry. right.
      apply elem_of_take in Hentry as (i & Hentry & _).
      apply list_elem_of_lookup_2 in Hentry.
      rewrite shuffleEmbeddings_perm in Hentry. exact Hentry.
  - rewrite selection_from_previous by discriminate.
    destruct (decide (pointCount < length (e :: current))%nat) as [Hlt|Hge].
    + cbn [snd]. split; [apply labels_of_taken; assumption|].
      intros entry Hentry. left.
      apply elem_of_take in Hentry as (i & Hentry & _).
      apply list_elem_of_lookup_2 in Hentry. exact Hentry.
    + destruct (decide (length (e :: current) < pointCount)%nat) as [Hlt|Heq];
        [|cbn [snd]; auto].
      cbv zeta. cbn [snd].
      set (drawn := take (pointCount - length (e :: current))
                         (unusedPool embeddingsCache (e :: current))).
      pose proof (shuffleEmbeddings_perm seed drawn) as Hperm.
      assert (Hdrawn : forall entry, entry ∈ drawn ->
                entry ∈ embeddingsCache /\ fst entry ∉ map fst (e :: current)).
      { intros entry Hentry.
        apply elem_of_take in Hentry as (i & Hentry & _).
        apply list_elem_of_lookup_2 in Hentry.
        unfold unusedPool in Hentry.
        apply list_elem_of_filter in Hentry as [Hunused Hin]. auto. }
      split.
      * rewrite map_app. apply NoDup_app. split; [assumption|]. split.
        -- intros l Hl Hl'.
           apply list_elem_of_fmap in Hl' as (entry & -> & Hentry).
           rewrite Hperm in Hentry. apply Hdrawn in Hentry as [_ Hnew].
           contradiction.
        -- apply (NoDup_Permutation_proper (map fst drawn)).
           ++ symmetry. apply (fmap_Permutation fst), Hperm.
           ++ apply labels_of_taken, labels_of_unusedPool, Hcache.
      * intros entry Hentry. apply elem_of_app in Hentry as [Hold|Hnew];
          [left; assumption|].
        right. rewrite Hperm in Hnew. apply Hdrawn, Hnew.
Qed.




End GeneratorMoreFacts.

(** ** Cosine distance between vectors of different dimensions *)

Module DimensionFacts.
Import Js Utils UtilsFacts.
Local Open Scope R_scope.





End DimensionFacts.

(** ** Clicks and proximity: the weights *)

Module WeightFacts.
Import Js Three Scene Grid Utils Points Selection.
Import JsFacts UtilsFacts PointsFacts GridFacts SelectionFacts.
Local Open Scope R_scope.

(** The selector a click leaves, written out. *)
Lemma selectByClick_explicit (this : PointSelector) (cloud : PointCloud)
    (intersects : list SceneObject) (clickedRay : Ray)
    (cameraPosition : Vector3) :
  selectByClick this (Some cloud) intersects clickedRay cameraPosition
  = let radius := threeDClickRadius (options this) in
    let cleared :=
      mkPointSelector None (proximityMeshes this) (proximityWeights this)
                      (options this) in
    match searchRayOf intersects clickedRay cameraPosition with
    | None => cleared
    | Some searchRay =>
        match filter (nearRay searchRay radius) (pointMeshes cloud) with
        | [] => cleared
        | primary =>
            let clickWeights := weightsAlongRay searchRay radius primary in
            let neighborDistances :=
              if includeHighDimensionalNeighbors (options this)
              then findHighDimensionalNeighbors
                     (primaryVectorsOf primary)
                     (allVectorsOf (pointMeshes cloud))
                     (neighborRadius (options this))
              else [] in
            let selectionWeights :=
              if includeHighDimensionalNeighbors (options this)
              then addNeighborsToWeights (options this) (Some cloud)
                     neighborDistances clickWeights
              else clickWeights in
            mkPointSelector
              (Some (mkManualSelectionState primary selectionWeights
                       (clickedOf intersects) neighborDistances))
              (proximityMeshes this) (proximityWeights this) (options this)
        end
    end.
Proof.
  unfold selectByClick, searchRayOf, clickedOf. cbv zeta.
  destruct intersects as [|[targetMesh|] rest]; [| |reflexivity].
  - rewrite collectAlongRay_full.
    destruct (filter _ _) as [|mesh primary]; [reflexivity|].
    destruct (includeHighDimensionalNeighbors (options this)); reflexivity.
  - destruct (parent targetMesh) as [centerPointObject|]; [|reflexivity].
    rewrite collectAlongRay_full.
    destruct (filter _ _) as [|mesh primary]; [reflexivity|].
    destruct (includeHighDimensionalNeighbors (options this)); reflexivity.
Qed.










(** *** All weights of a click lie in [0, 1] *)






End WeightFacts.

Module RoundTripFacts.
Import Js Three Scene Grid Utils Points Selection.
Import JsFacts UtilsFacts PointsFacts GridFacts SelectionFacts WeightFacts.
Local Open Scope R_scope.

(** With distinct labels a mesh of the list is known by its label. *)
Lemma same_label_same_mesh (meshes : list Mesh) (a b : Mesh) :
  NoDup (map label meshes) -> a ∈ meshes -> b ∈ meshes ->
  label a = label b -> a = b.
Proof.
  induction meshes as [|m meshes IH]; intros Hnd Ha Hb Hl; [inversion Ha|].
  simpl in Hnd. apply NoDup_cons in Hnd as [Hm Hnd].
  apply elem_of_cons in Ha as [->|Ha]; apply elem_of_cons in Hb as [->|Hb].
  - reflexivity.
  - exfalso. apply Hm. rewrite Hl. apply list_elem_of_fmap. eauto.
  - exfalso. apply Hm. rewrite <- Hl. apply list_elem_of_fmap. eauto.
  - apply IH; assumption.
Qed.

Lemma filter_agree {A : Type} (P Q : A -> Prop)
    `{!forall x, Decision (P x)} `{!forall x, Decision (Q x)} (l : list A) :
  (forall x, x ∈ l -> P x <-> Q x) -> filter P l = filter Q l.
Proof.
  induction l as [|x l IH]; intros Hall; [reflexivity|].
  rewrite !filter_cons.
  assert (Hx : P x <-> Q x) by (apply Hall, list_elem_of_here).
  assert (Hl : filter P l = filter Q l).
  { apply IH. intros y Hy. apply Hall, list_elem_of_further, Hy. }
  destruct (decide (P x)), (decide (Q x)); try tauto; rewrite Hl; reflexivity.
Qed.

(** The meshes whose label is the label of a chosen mesh are the chosen
    meshes. *)
Lemma labels_select_back (P : Mesh -> Prop) `{!forall m, Decision (P m)}
    (meshes : list Mesh) :
  NoDup (map label meshes) ->
  filter (fun mesh => label mesh ∈ map label (filter P meshes)) meshes
  = filter P meshes.
Proof.
  intros Hnd. apply filter_agree. intros mesh Hmesh. split.
  - intros Hl. apply list_elem_of_fmap in Hl as (other & Hl & Hother).
    apply list_elem_of_filter in Hother as [HP Hother].
    rewrite (same_label_same_mesh meshes mesh other); assumption.
  - intros HP. apply list_elem_of_fmap. exists mesh.
    split; [reflexivity|]. apply list_elem_of_filter. auto.
Qed.

Lemma matchLabels_finds (preserved : PreservedManualSelection)
    (meshes : list Mesh) (clicked : Mesh) :
  clicked ∈ meshes -> Some (label clicked) = clickedLabel preserved ->
  is_Some (snd (matchLabels preserved meshes)).
Proof.
  intros Hin Hl. unfold matchLabels.
  assert (G : forall (meshes newPrimaryMeshes : list Mesh)
                     (newClickedMesh : option Mesh),
    is_Some newClickedMesh
    \/ (exists mesh, mesh ∈ meshes
                     /\ Some (label mesh) = clickedLabel preserved) ->
    is_Some (snd (foldl (fun '(newPrimaryMeshes, newClickedMesh) mesh =>
             let newPrimaryMeshes :=
               if decide (label mesh ∈ primaryLabels preserved)
               then newPrimaryMeshes ++ [mesh] else newPrimaryMeshes in
             let newClickedMesh :=
               if decide (Some (label mesh) = clickedLabel preserved)
               then Some mesh else newClickedMesh in
             (newPrimaryMeshes, newClickedMesh))
          (newPrimaryMeshes, newClickedMesh) meshes))).
  { clear. induction meshes as [|m meshes IH];
      intros newPrimaryMeshes newClickedMesh Hsome.
    - destruct Hsome as [Hsome|(mesh & Hin & _)]; [exact Hsome | inversion Hin].
    - simpl. apply IH.
      destruct (decide (Some (label m) = clickedLabel preserved)) as [Hm|Hm];
        [left; eauto|].
      destruct Hsome as [Hsome|(mesh & Hin & Hl)]; [left; exact Hsome|].
      apply elem_of_cons in Hin as [->|Hin]; [contradiction|].
      right. eauto. }
  apply G. right. eauto.
Qed.

(** X14.  Preserving a selection and restoring it into the same point
    cloud gives the selector back as it was. *)
Theorem restore_after_preserve_same_cloud (this : PointSelector)
    (cloud : PointCloud) (intersects : list SceneObject) (clickedRay : Ray)
    (cameraPosition : Vector3) :
  NoDup (map label (pointMeshes cloud)) ->
  hitsAreItems (Some cloud) intersects ->
  let selected :=
    selectByClick this (Some cloud) intersects clickedRay cameraPosition in
  restoreManualSelection selected (getPreservedManualSelection selected) cloud
  = selected.
Proof.
  intros Hlabels Hhits. cbv zeta. rewrite selectByClick_explicit. cbv zeta.
  destruct (searchRayOf intersects clickedRay cameraPosition)
    as [searchRay|] eqn:Hray; [|reflexivity].
  set (radius := threeDClickRadius (options this)).
  destruct (filter (nearRay searchRay radius) (pointMeshes cloud))
    as [|first rest] eqn:Hprimary; [reflexivity|].
  rewrite <- Hprimary.
  set (primary := filter (nearRay searchRay radius) (pointMeshes cloud)) in *.
  unfold restoreManualSelection, getPreservedManualSelection.
  cbn [manualSelectionState primaryMeshes selectionWeights directlyClickedMesh
       options weights].
  set (preserved := mkPreservedManualSelection (map label primary)
                      (label <$> clickedOf intersects) _).
  destruct (matchLabels_spec preserved (pointMeshes cloud)) as [Hp Hc].
  pose proof (matchLabels_finds preserved (pointMeshes cloud)) as Hfinds.
  destruct (matchLabels preserved (pointMeshes cloud))
    as [newPrimaryMeshes newClickedMesh].
  cbn [fst snd] in Hp, Hc, Hfinds.
  assert (Hsame : newPrimaryMeshes = primary).
  { rewrite Hp. unfold preserved. cbn [primaryLabels].
    apply labels_select_back, Hlabels. }
  assert (Hclicked : newClickedMesh = clickedOf intersects).
  { destruct (clickedOf intersects) as [clicked|] eqn:Hclick.
    - assert (Hin : clicked ∈ pointMeshes cloud).
      { unfold clickedOf in Hclick.
        destruct intersects as [|[targetMesh|] others]; try discriminate.
        injection Hclick as ->. apply (Hhits clicked), list_elem_of_here. }
      destruct (Hfinds clicked Hin eq_refl) as [found Hfound].
      subst newClickedMesh. destruct (Hc found eq_refl) as [Hfin Hfl].
      f_equal. apply (same_label_same_mesh (pointMeshes cloud));
        try assumption.
      unfold preserved in Hfl. cbn in Hfl. congruence.
    - destruct newClickedMesh as [found|]; [|reflexivity].
      destruct (Hc found eq_refl) as [_ Hfl]. discriminate. }
  rewrite Hsame, Hclicked. fold primary. rewrite Hprimary.
  rewrite <- Hprimary.
  destruct (includeHighDimensionalNeighbors (options this)); reflexivity.
Qed.

End RoundTripFacts.

Module ProximityFacts.
Import Js Three Scene Grid Utils Points Selection Getters.
Import JsFacts UtilsFacts PointsFacts GridFacts SelectionFacts WeightFacts.
Local Open Scope R_scope.




End ProximityFacts.

Module NeighborFacts.
Import Js Three Scene Grid Utils Points Selection.
Import JsFacts UtilsFacts PointsFacts GridFacts SelectionFacts WeightFacts.
Local Open Scope R_scope.



End NeighborFacts.

Module CellFacts.
Import Js Three Scene Grid GridFacts.
Local Open Scope R_scope.

Lemma floor_fifth (v : R) (i : Z) :
  floor (v / GRID_SIZE) = i <-> 5 * IZR i <= v < 5 * IZR i + 5.
Proof.
  unfold floor, GRID_SIZE. split.
  - intros <-. pose proof (Zfloor_bound (v / 5)) as [Hlo Hhi]. lra.
  - intros [Hlo Hhi]. apply Zfloor_eq. lra.
Qed.

(** X6.  The key of a position names one cell of side 5: a position has
    the key of the cell (i, j, k) exactly when it lies in the box
    [5i, 5i + 5) x [5j, 5j + 5) x [5k, 5k + 5); two positions have the
    same key exactly when they lie in the same cell. *)
Theorem getKey_names_the_cell (p : Vector3) :
  (forall i j k : Z,
     getKey p = keyOf i j k
     <-> 5 * IZR i <= x p < 5 * IZR i + 5
         /\ 5 * IZR j <= y p < 5 * IZR j + 5
         /\ 5 * IZR k <= z p < 5 * IZR k + 5)
  /\ (forall q : Vector3,
        getKey p = getKey q
        <-> floor (x p / GRID_SIZE) = floor (x q / GRID_SIZE)
            /\ floor (y p / GRID_SIZE) = floor (y q / GRID_SIZE)
            /\ floor (z p / GRID_SIZE) = floor (z q / GRID_SIZE)).
Proof.
  unfold getKey. cbv zeta. split.
  - intros i j k. rewrite <- !floor_fifth. split.
    + apply keyOf_inj.
    + intros (-> & -> & ->). reflexivity.
  - intros q. split.
    + apply keyOf_inj.
    + intros (-> & -> & ->). reflexivity.
Qed.

End CellFacts.

(** ** Base64: what [encode] writes, [decode] reads back *)

Module Base64Facts.
Import Js Base64.
Local Open Scope N_scope.

Ltac divmod := zify; Z.to_euclidean_division_equations; lia.

(** Induction over a byte sequence, three bytes at a time. *)
Lemma groups_ind (P : list N -> Prop) :
  P [] -> (forall a, P [a]) -> (forall a b, P [a; b]) ->
  (forall a b c rest, P rest -> P (a :: b :: c :: rest)) ->
  forall bytes, P bytes.
Proof.
  intros H0 H1 H2 H3.
  assert (G : forall n (bytes : list N), (length bytes <= n)%nat -> P bytes).
  { induction n as [|n IH]; intros bytes Hlen.
    - destruct bytes; [exact H0 | simpl in Hlen; lia].
    - destruct bytes as [|a [|b [|c rest]]]; auto.
      apply H3, IH. simpl in Hlen. lia. }
  intros bytes. apply (G (length bytes)). lia.
Qed.

Lemma char_in_alphabet (i : N) : In (char i) alphabet.
Proof.
  unfold char. destruct (Nat.lt_ge_cases (N.to_nat i) (length alphabet)).
  - apply nth_In. assumption.
  - rewrite nth_overflow by assumption. vm_compute. auto.
Qed.

Lemma alphabet_plain :
  Forall (fun c => isWhitespace c = false /\ isEquals c = false) alphabet.
Proof. vm_compute. repeat constructor. Qed.

Lemma char_plain (i : N) :
  isWhitespace (char i) = false /\ isEquals (char i) = false.
Proof.
  pose proof alphabet_plain as H. rewrite List.Forall_forall in H.
  apply H, char_in_alphabet.
Qed.

Lemma sextet_char (i : N) : i < 64 -> sextet (char i) = Some i.
Proof.
  intros Hi. rewrite <- (N2Nat.id i).
  assert (Hn : (N.to_nat i < 64)%nat) by lia.
  clear Hi. revert Hn. generalize (N.to_nat i). clear i. intros n Hn.
  do 64 (destruct n as [|n]; [reflexivity|]). lia.
Qed.

Lemma removeTrailingEquals_char (i : N) (rest : list ascii) :
  removeTrailingEquals (char i :: rest)
  = char i :: removeTrailingEquals rest.
Proof.
  simpl. destruct (char_plain i) as [_ ->]. reflexivity.
Qed.

Lemma filter_char (i : N) (rest : list ascii) :
  filter (fun c => isWhitespace c = false) (char i :: rest)
  = char i :: filter (fun c => isWhitespace c = false) rest.
Proof.
  rewrite filter_cons. destruct (char_plain i) as [Hw _].
  rewrite decide_True by exact Hw. reflexivity.
Qed.

Lemma filter_equals (rest : list ascii) :
  filter (fun c => isWhitespace c = false) ("="%char :: rest)
  = "="%char :: filter (fun c => isWhitespace c = false) rest.
Proof. rewrite filter_cons. reflexivity. Qed.

(** The text of an encoding holds no whitespace. *)
Lemma encodeGroups_no_whitespace (bytes : list N) :
  filter (fun c => isWhitespace c = false) (encodeGroups bytes)
  = encodeGroups bytes.
Proof.
  induction bytes as [|a|a b|a b c rest IH] using groups_ind;
    cbn [encodeGroups];
    rewrite ?filter_char, ?filter_equals, ?IH; reflexivity.
Qed.

Lemma encodeGroups_length (bytes : list N) :
  length (encodeGroups bytes) = (4 * ((length bytes + 2) / 3))%nat.
Proof.
  induction bytes as [|a|a b|a b c rest IH] using groups_ind;
    cbn [encodeGroups length]; try reflexivity.
  rewrite IH.
  replace (S (S (S (length rest))) + 2)%nat
    with (1 * 3 + (length rest + 2))%nat by lia.
  rewrite Nat.div_add_l by lia. lia.
Qed.

(** Removing the padding leaves the characters of the 6-bit numbers. *)
Lemma encodeGroups_without_padding (bytes : list N) :
  removeTrailingEquals (encodeGroups bytes) = map char (sextetsOf bytes).
Proof.
  induction bytes as [|a|a b|a b c rest IH] using groups_ind;
    cbn [encodeGroups sextetsOf map];
    rewrite ?removeTrailingEquals_char, ?IH; reflexivity.
Qed.

Lemma sextetsOf_length (bytes : list N) :
  N.of_nat (length (sextetsOf bytes)) mod 4 <> 1.
Proof.
  induction bytes as [|a|a b|a b c rest IH] using groups_ind;
    cbn [sextetsOf length]; try (vm_compute; discriminate).
  replace (N.of_nat (S (S (S (S (length (sextetsOf rest)))))))
    with (N.of_nat (length (sextetsOf rest)) + 1 * 4) by lia.
  rewrite N.Div0.mod_add. exact IH.
Qed.

Lemma toSextets_chars (sextets : list N) :
  Forall (fun s => s < 64) sextets ->
  toSextets (map char sextets) = Some sextets.
Proof.
  induction 1 as [|s sextets Hs _ IH]; [reflexivity|].
  simpl. rewrite sextet_char by assumption. simpl. rewrite IH. reflexivity.
Qed.

Lemma sextetsOf_small (bytes : list N) :
  Forall (fun b => b <= 255) bytes ->
  Forall (fun s => s < 64) (sextetsOf bytes).
Proof.
  induction bytes as [|a|a b|a b c rest IH] using groups_ind; intros Hb;
    cbn [sextetsOf]; repeat (apply Forall_cons in Hb as [? Hb]);
    repeat (apply Forall_cons; split); try apply Forall_nil; try divmod.
  apply IH, Hb.
Qed.

Lemma decodeGroups_sextetsOf (bytes : list N) :
  Forall (fun b => b <= 255) bytes ->
  decodeGroups (sextetsOf bytes) = bytes.
Proof.
  induction bytes as [|a|a b|a b c rest IH] using groups_ind; intros Hb;
    cbn [sextetsOf decodeGroups]; repeat (apply Forall_cons in Hb as [? Hb]).
  - reflexivity.
  - f_equal. divmod.
  - f_equal; [divmod|]. f_equal. divmod.
  - rewrite IH by exact Hb.
    f_equal; [divmod|]. f_equal; [divmod|]. f_equal. divmod.
Qed.

(** [atob] reads back what [btoa] wrote. *)
Lemma atob_btoa (binary : list N) :
  Forall (fun c => c <= 255) binary ->
  exists text,
    btoa binary = Some text
    /\ atob text = Some binary
    /\ String.length text = (4 * ((length binary + 2) / 3))%nat.
Proof.
  intros Hb. exists (String.string_of_list_ascii (encodeGroups binary)).
  split; [|split].
  - unfold btoa.
    rewrite (proj2 (forallb_forall _ _)); [reflexivity|].
    intros c Hc. apply N.leb_le.
    rewrite List.Forall_forall in Hb. apply Hb, Hc.
  - unfold atob. cbv zeta.
    rewrite String.list_ascii_of_string_of_list_ascii.
    rewrite encodeGroups_no_whitespace.
    assert (Hfour : N.of_nat (length (encodeGroups binary)) mod 4 = 0).
    { rewrite encodeGroups_length, Nat2N.inj_mul. simpl N.of_nat.
      rewrite N.mul_comm. apply N.Div0.mod_mul. }
    rewrite Hfour. cbn [N.eqb].
    rewrite encodeGroups_without_padding, length_map.
    destruct (N.eqb_spec (N.of_nat (length (sextetsOf binary)) mod 4) 1)
      as [Hone|_]; [exfalso; exact (sextetsOf_length binary Hone)|].
    rewrite toSextets_chars by (apply sextetsOf_small, Hb).
    simpl. rewrite decodeGroups_sextetsOf by exact Hb. reflexivity.
  - rewrite <- encodeGroups_length.
    generalize (encodeGroups binary). intros l.
    induction l as [|c l IH]; simpl; [reflexivity | rewrite IH; reflexivity].
Qed.

End Base64Facts.

Module CodecFacts.
Import Js Base64 Codec Base64Facts.

Lemma binary_of_bytes (bytes : Uint8Array) :
  foldl (fun binary byte => binary ++ [Byte.to_N byte]) [] bytes
  = map Byte.to_N bytes.
Proof.
  assert (G : forall binary,
    foldl (fun binary byte => binary ++ [Byte.to_N byte]) binary bytes
    = binary ++ map Byte.to_N bytes).
  { induction bytes as [|b bytes IH]; intros binary; simpl.
    - rewrite app_nil_r. reflexivity.
    - rewrite IH, <- app_assoc. reflexivity. }
  apply (G []).
Qed.

Lemma toUint8_to_N (byte : Byte.byte) : toUint8 (Byte.to_N byte) = byte.
Proof.
  unfold toUint8. pose proof (Byte.to_N_bounded byte).
  rewrite N.mod_small by lia. rewrite Byte.of_to_N. reflexivity.
Qed.

Lemma decode_encode_text (bytes : Uint8Array) :
  exists text : string,
    encode bytes = Some text
    /\ decode text = Some bytes.
Proof.
  unfold encode, decode. cbv zeta. rewrite binary_of_bytes.
  destruct (atob_btoa (map Byte.to_N bytes)) as (text & Hbtoa & Hatob & Hlen).
  { apply List.Forall_forall. intros c Hc.
    apply in_map_iff in Hc as (byte & <- & _). apply Byte.to_N_bounded. }
  exists text. rewrite Hbtoa, Hatob. simpl.
  split; [reflexivity|].
  f_equal. rewrite map_map. clear.
  induction bytes as [|b bytes IH]; simpl; [reflexivity|].
  rewrite toUint8_to_N, IH. reflexivity.
Qed.

(** X1.  [decode] reads back what [encode] wrote: for every byte array,
    [encode] returns a text (it does not throw), of 4 characters for
    every 3 bytes begun, and [decode] of that text is the byte array. *)
Theorem decode_encode (bytes : Uint8Array) :
  exists text : string,
    encode bytes = Some text
    /\ decode text = Some bytes
    /\ String.length text = (4 * ((length bytes + 2) / 3))%nat.
Proof.
  destruct (decode_encode_text bytes) as (text & Hencode & Hdecode).
  exists text. split; [exact Hencode|]. split; [exact Hdecode|].
  unfold encode in Hencode. cbv zeta in Hencode.
  rewrite binary_of_bytes in Hencode.
  destruct (atob_btoa (map Byte.to_N bytes)) as (text' & Hbtoa & _ & Hlen).
  { apply List.Forall_forall. intros c Hc.
    apply in_map_iff in Hc as (byte & <- & _). apply Byte.to_N_bounded. }
  rewrite Hbtoa in Hencode. injection Hencode as <-.
  rewrite Hlen, length_map. reflexivity.
Qed.

End CodecFacts.

Module BlobFacts.
Import Js Base64 Codec Base64Facts CodecFacts.

Lemma to_N_toUint8 (n : N) : Byte.to_N (toUint8 n) = (n mod 256)%N.
Proof.
  unfold toUint8.
  destruct (Byte.of_N (n mod 256)%N) as [byte|] eqn:Hbyte.
  - apply Byte.to_of_N, Hbyte.
  - apply Byte.of_N_None_iff in Hbyte.
    pose proof (N.mod_upper_bound n 256). lia.
Qed.

Lemma toInt16_range (v : num) : (- 2 ^ 15 <= toInt16 v < 2 ^ 15)%Z.
Proof.
  unfold toInt16. destruct v as [r|]; [|lia].
  pose proof (Z.mod_pos_bound (truncate r + 2 ^ 15) (2 ^ 16)). lia.
Qed.

(** The two bytes of a sample hold the sample. *)
Lemma int16OfBytes_bytesOfInt16 (sample : Z) :
  (- 2 ^ 15 <= sample < 2 ^ 15)%Z ->
  exists low high,
    bytesOfInt16 sample = [low; high] /\ int16OfBytes low high = sample.
Proof.
  intros Hrange. unfold bytesOfInt16. cbv zeta.
  eexists _, _. split; [reflexivity|].
  unfold int16OfBytes. cbv zeta. rewrite !to_N_toUint8.
  set (u := Z.to_N (sample mod 2 ^ 16)).
  assert (Hu : Z.of_N u = (sample mod 2 ^ 16)%Z).
  { unfold u. apply Z2N.id. apply Z.mod_pos_bound. lia. }
  assert (Hb : (0 <= Z.of_N u < 2 ^ 16)%Z).
  { rewrite Hu. apply Z.mod_pos_bound. lia. }
  assert (Hsum : (Z.of_N ((u mod 256) mod 256)
                  + 256 * Z.of_N ((u / 256) mod 256))%Z
                 = Z.of_N u).
  { zify. Z.to_euclidean_division_equations. lia. }
  rewrite Hsum, Hu.
  destruct (decide (sample mod 2 ^ 16 < 2 ^ 15)%Z) as [Hsmall|Hbig].
  - destruct (Z.le_gt_cases 0 sample) as [Hpos|Hneg].
    + apply Z.mod_small. lia.
    + exfalso. revert Hsmall.
      replace sample with (sample + 2 ^ 16 + (-1) * 2 ^ 16)%Z by lia.
      rewrite Z.mod_add by lia. rewrite Z.mod_small by lia. lia.
  - destruct (Z.le_gt_cases 0 sample) as [Hpos|Hneg].
    + exfalso. apply Hbig. rewrite Z.mod_small by lia. lia.
    + replace sample with (sample + 2 ^ 16 + (-1) * 2 ^ 16)%Z at 1 by lia.
      rewrite Z.mod_add by lia. rewrite Z.mod_small by lia. lia.
Qed.

Lemma pairs_lookup (samples : list Z) (i : nat) (sample : Z) :
  samples !! i = Some sample ->
  flat_map bytesOfInt16 samples !! (2 * i)%nat
    = bytesOfInt16 sample !! 0%nat
  /\ flat_map bytesOfInt16 samples !! (2 * i + 1)%nat
     = bytesOfInt16 sample !! 1%nat.
Proof.
  revert i. induction samples as [|s samples IH]; intros i Hi;
    [discriminate|].
  destruct i as [|i].
  - injection Hi as ->. split; reflexivity.
  - simpl in Hi. destruct (IH i Hi) as [H0 H1].
    replace (2 * S i)%nat with (S (S (2 * i))) by lia.
    replace (S (S (2 * i)) + 1)%nat with (S (S (2 * i + 1))) by lia.
    split; [exact H0 | exact H1].
Qed.

(** X2.  The blob of [createBlob]: it is always made, its type is
    'audio/pcm;rate=16000', and its text decodes to two bytes for every
    sample, low byte first, that hold the 16-bit number stored for the
    sample. *)
Theorem createBlob_holds_the_samples (samples : list num) :
  exists (blob : Blob) (bytes : Uint8Array),
    createBlob samples = Some blob
    /\ mimeType blob = "audio/pcm;rate=16000"
    /\ decode (data blob) = Some bytes
    /\ length bytes = (2 * length samples)%nat
    /\ (forall (i : nat) (sample : Z),
          createBlob_int16 samples !! i = Some sample ->
          exists low high,
            bytes !! (2 * i)%nat = Some low
            /\ bytes !! (2 * i + 1)%nat = Some high
            /\ int16OfBytes low high = sample).
Proof.
  unfold createBlob. cbv zeta.
  set (int16 := createBlob_int16 samples).
  destruct (decode_encode_text (flat_map bytesOfInt16 int16))
    as (text & Hencode & Hdecode).
  exists (mkBlob text "audio/pcm;rate=16000"), (flat_map bytesOfInt16 int16).
  rewrite Hencode. simpl.
  split; [reflexivity|]. split; [reflexivity|]. split; [exact Hdecode|].
  split.
  - unfold int16, createBlob_int16. clear.
    induction samples as [|s samples IH]; simpl; [reflexivity|].
    simpl in IH. rewrite IH. lia.
  - intros i sample Hi.
    assert (Hrange : (- 2 ^ 15 <= sample < 2 ^ 15)%Z).
    { unfold int16, createBlob_int16 in Hi.
      rewrite list_lookup_fmap in Hi.
      destruct (samples !! i) as [v|]; [|discriminate].
      injection Hi as <-. apply toInt16_range. }
    destruct (int16OfBytes_bytesOfInt16 sample Hrange)
      as (low & high & Hbytes & Hback).
    destruct (pairs_lookup int16 i sample Hi) as [H0 H1].
    rewrite Hbytes in H0, H1.
    exists low, high. split; [exact H0|]. split; [exact H1 | exact Hback].
Qed.

Lemma truncate_floor (v : R) : (0 <= v)%R -> truncate v = Zfloor v.
Proof. intros Hv. unfold truncate. rewrite decide_True by exact Hv. reflexivity. Qed.

Lemma truncate_close (v : R) : (Rabs (IZR (truncate v) - v) < 1)%R.
Proof.
  unfold truncate. destruct (decide (0 <= v)%R).
  - pose proof (Zfloor_bound v). apply Rabs_def1; lra.
  - pose proof (Zceil_bound v). apply Rabs_def1; lra.
Qed.

Lemma truncate_within (v : R) (lo hi : Z) :
  (lo <= 0 <= hi)%Z -> (IZR lo <= v <= IZR hi)%R ->
  (lo <= truncate v <= hi)%Z.
Proof.
  intros [Hlo Hhi] [Hvlo Hvhi]. unfold truncate.
  destruct (decide (0 <= v)%R) as [Hpos|Hneg].
  - split.
    + apply Z.le_trans with 0%Z; [exact Hlo|].
      apply Zfloor_lub. simpl. exact Hpos.
    + apply le_IZR. pose proof (Zfloor_bound v). lra.
  - split.
    + apply le_IZR. pose proof (Zceil_bound v). lra.
    + apply Z.le_trans with 0%Z; [|exact Hhi].
      apply le_IZR. pose proof (Zceil_bound v).
      assert (IZR (Zceil v) < 1)%R by lra.
      apply lt_IZR in H0. apply IZR_le. lia.
Qed.

(** X3.  The 16-bit number [createBlob] stores for a sample [x]: for
    [-1 <= x < 1] it is [x * 32768] rounded towards zero, a number
    between -32768 and 32767 that gives [x] back within 1/32768; for
    [1 <= x < 2] the number does not fit in 16 bits and wraps to
    [x * 32768] rounded down minus 65536, a negative number: the sample 1
    is stored as -32768. *)
Theorem createBlob_sample (samples : list num) (i : nat) (x : R) :
  samples !! i = Some (Some x) ->
  exists sample : Z,
    createBlob_int16 samples !! i = Some sample
    /\ ((-1 <= x < 1)%R ->
        sample = truncate (x * 32768)
        /\ (-32768 <= sample <= 32767)%Z
        /\ (Rabs (IZR sample / 32768 - x) < 1 / 32768)%R)
    /\ ((1 <= x < 2)%R ->
        sample = (Zfloor (x * 32768) - 65536)%Z
        /\ (-32768 <= sample < 0)%Z)
    /\ (x = 1%R -> sample = (-32768)%Z).
Proof.
  intros Hi. unfold createBlob_int16. rewrite list_lookup_fmap.
  unfold num in *. rewrite Hi. simpl.
  eexists. split; [reflexivity|].
  set (t := truncate (x * 32768)).
  assert (Hin : (-1 <= x < 1)%R ->
    ((t + 2 ^ 15) mod 2 ^ 16 - 2 ^ 15)%Z = t /\ (-32768 <= t <= 32767)%Z).
  { intros [Hlo Hhi].
    assert (Ht : (-32768 <= t <= 32767)%Z).
    { assert (H1 : (-32768 <= t <= 32768)%Z).
      { apply truncate_within; [lia|]. lra. }
      destruct (Z.eq_dec t 32768%Z) as [Heq|Hne]; [|lia].
      exfalso. unfold t, truncate in Heq.
      destruct (decide (0 <= x * 32768)%R).
      - pose proof (Zfloor_bound (x * 32768)) as Hb.
        rewrite Heq in Hb. lra.
      - pose proof (Zceil_bound (x * 32768)) as Hb.
        rewrite Heq in Hb. lra. }
    split; [|exact Ht]. rewrite Z.mod_small by lia. lia. }
  assert (Hwrap : (1 <= x < 2)%R ->
    ((t + 2 ^ 15) mod 2 ^ 16 - 2 ^ 15)%Z = (Zfloor (x * 32768) - 65536)%Z
    /\ (32768 <= Zfloor (x * 32768) < 65536)%Z).
  { intros [Hlo Hhi].
    assert (Ht : t = Zfloor (x * 32768)) by (apply truncate_floor; lra).
    assert (Hf : (32768 <= Zfloor (x * 32768) < 65536)%Z).
    { split.
      - apply Zfloor_lub. lra.
      - apply lt_IZR. pose proof (Zfloor_bound (x * 32768)). lra. }
    split; [|exact Hf]. rewrite Ht.
    replace (Zfloor (x * 32768) + 2 ^ 15)%Z
      with (Zfloor (x * 32768) - 32768 + 1 * 2 ^ 16)%Z by lia.
    rewrite Z.mod_add by lia. rewrite Z.mod_small by lia. lia. }
  split; [|split].
  - intros Hx. destruct (Hin Hx) as [-> Ht].
    split; [reflexivity|]. split; [exact Ht|].
    pose proof (truncate_close (x * 32768)) as Hc. fold t in Hc.
    replace (IZR t / 32768 - x)%R with ((IZR t - x * 32768) / 32768)%R
      by (field; lra).
    unfold Rdiv. rewrite Rabs_mult, (Rabs_right (/ 32768)) by lra.
    lra.
  - intros Hx. destruct (Hwrap Hx) as [-> Hf]. split; [reflexivity | lia].
  - intros ->. destruct (Hwrap ltac:(lra)) as [-> _].
    replace (1 * 32768)%R with (IZR 32768) by (simpl; lra).
    rewrite ZfloorZ. reflexivity.
Qed.

End BlobFacts.

(** ** Throttled calls *)

Module ThrottleFacts.
Import Throttle.
Local Open Scope R_scope.

Lemma run_one_call (delay last now : R) (rest : list Event) :
  run delay (mkThrottled last []) (Call now :: Resolved 0 :: rest)
  = if decide (now - last >= delay)
    then (fst (run delay (mkThrottled now []) rest),
          now :: snd (run delay (mkThrottled now []) rest))
    else run delay (mkThrottled last []) rest.
Proof.
  simpl. destruct (decide (now - last >= delay)); simpl.
  - destruct (run delay (mkThrottled now []) rest). reflexivity.
  - destruct (run delay (mkThrottled last []) rest). reflexivity.
Qed.

Lemma one_at_a_time (delay : R) (times : list R) :
  forall last : R,
  let called := snd (run delay (mkThrottled last []) (oneAtATime times)) in
  spaced delay called
  /\ (forall first, head called = Some first -> first - last >= delay).
Proof.
  induction times as [|now times IH]; intros last; cbv zeta.
  - simpl. split; [exact I | discriminate].
  - cbn [oneAtATime]. rewrite run_one_call.
    destruct (decide (now - last >= delay)) as [Hrun|Hskip]; [|apply IH].
    cbn [snd]. specialize (IH now). cbv zeta in IH.
    destruct IH as [Hspaced Hhead]. split.
    + destruct (snd (run delay (mkThrottled now []) (oneAtATime times)))
        as [|second called]; [exact I|].
      split; [apply Hhead; reflexivity | exact Hspaced].
    + intros first [= <-]. exact Hrun.
Qed.

(** X5.  The throttled function.  When every call of [func] has resolved
    before the next call of the throttled function, [func] runs at times
    that are at least [delay] apart, the first not before [delay].  A
    call of [func] that is still awaited, or that was rejected, does not
    hold back the next call: called twice at a time [now] that is late
    enough, the throttled function calls [func] twice. *)
Theorem throttle_spacing (delay : R) :
  (forall times : list R,
     let called := snd (run delay throttle (oneAtATime times)) in
     spaced delay called
     /\ (forall first, head called = Some first -> first >= delay))
  /\ (forall (this : Throttled) (now : R),
        now - lastCall this >= delay ->
        snd (run delay this [Call now; Call now]) = [now; now]
        /\ snd (run delay this [Call now; Rejected 0; Call now]) = [now; now]).
Proof.
  split.
  - intros times. cbv zeta. unfold throttle.
    destruct (one_at_a_time delay times 0) as [Hspaced Hhead].
    split; [exact Hspaced|].
    intros first Hfirst. specialize (Hhead first Hfirst). lra.
  - intros this now Hlate. split.
    + simpl. rewrite !decide_True by exact Hlate. reflexivity.
    + simpl. rewrite !decide_True by exact Hlate. reflexivity.
Qed.

End ThrottleFacts.

(** ** The meshes of a new point cloud *)

Module CloudFacts.
Import Js Three Scene Grid Points Selection Cloud.
Local Open Scope R_scope.

Lemma createMeshes_lookup (firstRef : nat)
    (pointCloudData : list PointCloudData) (i : nat) (mesh : Mesh) :
  createMeshes firstRef pointCloudData !! i = Some mesh
  <-> exists pointData,
        pointCloudData !! i = Some pointData
        /\ mesh = mkMesh (firstRef + i)
                    (Some (mkObject3D (Cloud.position pointData)))
                    (Cloud.label pointData) (highDimVector pointData) i.
Proof. unfold createMeshes. apply list_lookup_imap_Some. Qed.

Lemma lookup_determines {A B : Type} (f : A -> B) (l : list A) :
  (forall i j a b, l !! i = Some a -> l !! j = Some b -> f a = f b -> i = j) ->
  NoDup (map f l).
Proof.
  intros Hinj. apply NoDup_alt. intros i j y Hi Hj.
  rewrite list_lookup_fmap in Hi, Hj.
  destruct (l !! i) as [a|] eqn:Ha; [|discriminate].
  destruct (l !! j) as [b|] eqn:Hb; [|discriminate].
  simpl in Hi, Hj. apply (Hinj i j a b); congruence.
Qed.

(** With a label and a vector for every row, every row gives an entry:
    entry [k] has label and vector number [i + k] and index [i + k]. *)
Lemma pointsFrom_rows (labels : list string) (highDimData : list Vector)
    (embeddings3D : list (R * R * R)) : forall i : nat,
  (i + List.length embeddings3D <= List.length labels)%nat ->
  (i + List.length embeddings3D <= List.length highDimData)%nat ->
  exists data,
    pointsFrom labels highDimData i embeddings3D = Some data
    /\ List.length data = List.length embeddings3D
    /\ (forall k pointData,
          data !! k = Some pointData ->
          labels !! (i + k)%nat = Some (Cloud.label pointData)
          /\ highDimData !! (i + k)%nat = Some (highDimVector pointData)
          /\ Cloud.index pointData = (i + k)%nat).
Proof.
  induction embeddings3D as [|pos rest IH]; intros i Hl Hv.
  - exists []. split; [reflexivity|]. split; [reflexivity|].
    intros k pointData Hk. discriminate.
  - simpl in Hl, Hv. cbn [pointsFrom]. unfold pointAt.
    destruct (lookup_lt_is_Some_2 labels i ltac:(lia)) as [label Hlabel].
    destruct (lookup_lt_is_Some_2 highDimData i ltac:(lia)) as [v Hvec].
    destruct (IH (S i) ltac:(lia) ltac:(lia)) as (data & Hdata & Hlen & Hrows).
    unfold Vector in *. rewrite Hlabel, Hvec. cbn.
    destruct pos as [[p0 p1] p2]. cbn. rewrite Hdata. cbn.
    eexists. split; [reflexivity|]. split; [simpl; lia|].
    intros [|k] pointData Hk.
    + injection Hk as <-. cbn. rewrite Nat.add_0_r. auto.
    + cbn in Hk. destruct (Hrows k pointData Hk) as (H1 & H2 & H3).
      replace (i + S k)%nat with (S i + k)%nat by lia. auto.
Qed.

(** X9.  The point cloud made from the selected embeddings, when
    [umap.fit] returns one row for every vector it is given: the data is
    made, and the cloud has one mesh for every selected embedding, in
    their order and with their labels; the mesh at position [i] of
    [getPointMeshes()] has [userData.index] [i] and hangs under a point
    object; the meshes are distinct objects; distinct selected labels
    give distinct mesh labels; without [randomizeEmbeddings] the vector
    of a mesh is the array of the selected embedding. *)
Theorem new_cloud_follows_selection
    (fit : list Vector -> list (R * R * R))
    (randomEmbedding : nat -> nat -> Vector)
    (embeddingDimensions : nat) (randomizeEmbeddings : bool)
    (selectedEmbeddings : list Embedding) (firstRef : nat) :
  (forall highDimData,
     List.length (fit highDimData) = List.length highDimData) ->
  exists data,
    pointCloudDataOf fit randomEmbedding embeddingDimensions
                     randomizeEmbeddings selectedEmbeddings
    = Some data
    /\ let pointCloud := newPointCloud firstRef data in
       map Scene.label (pointMeshes pointCloud) = map fst selectedEmbeddings
       /\ (forall (i : nat) (mesh : Mesh),
             pointMeshes pointCloud !! i = Some mesh ->
             Scene.index mesh = i /\ is_Some (parent mesh))
       /\ NoDup (map mesh_ref (pointMeshes pointCloud))
       /\ (NoDup (map fst selectedEmbeddings) ->
           NoDup (map Scene.label (pointMeshes pointCloud)))
       /\ (randomizeEmbeddings = false ->
           map vector (pointMeshes pointCloud) = map snd selectedEmbeddings).
Proof.
  intros Hfit. unfold pointCloudDataOf. cbv zeta.
  set (highDimData :=
         imap (fun k (selected : Embedding) =>
                 if randomizeEmbeddings
                 then randomEmbedding k embeddingDimensions
                 else snd selected)
              selectedEmbeddings).
  assert (Hhigh : List.length highDimData = List.length selectedEmbeddings).
  { unfold highDimData. apply length_imap. }
  destruct (pointsFrom_rows (map fst selectedEmbeddings) highDimData
              (fit highDimData) 0) as (data & Hdata & Hlen & Hrows).
  { rewrite Hfit, Hhigh. simpl. rewrite length_map. apply Nat.le_refl. }
  { rewrite Hfit. simpl. lia. }
  exists data. split; [exact Hdata|].
  rewrite Hfit, Hhigh in Hlen.
  unfold newPointCloud. cbn [pointMeshes].
  assert (Hmesh : forall i mesh,
    createMeshes firstRef data !! i = Some mesh ->
    Scene.index mesh = i /\ mesh_ref mesh = (firstRef + i)%nat
    /\ is_Some (parent mesh)
    /\ exists selected,
         selectedEmbeddings !! i = Some selected
         /\ Scene.label mesh = fst selected
         /\ (randomizeEmbeddings = false -> vector mesh = snd selected)).
  { intros i mesh Hi.
    apply createMeshes_lookup in Hi as (pointData & Hd & ->). cbn.
    split; [reflexivity|]. split; [reflexivity|]. split; [eauto|].
    destruct (Hrows i pointData Hd) as (Hl & Hv & _). simpl in Hl, Hv.
    rewrite list_lookup_fmap in Hl.
    unfold Embedding, Vector in *.
    destruct (selectedEmbeddings !! i) as [selected|] eqn:Hs; [|discriminate].
    exists selected. split; [reflexivity|].
    simpl in Hl. injection Hl as Hl. split; [symmetry; exact Hl|].
    intros ->. unfold highDimData in Hv.
    apply list_lookup_imap_Some in Hv as (selected' & Hs' & Hv).
    rewrite Hs in Hs'. injection Hs' as <-. exact Hv. }
  assert (Hlabels : map Scene.label (createMeshes firstRef data)
                    = map fst selectedEmbeddings).
  { apply list_eq. intros i. rewrite !list_lookup_fmap.
    destruct (createMeshes firstRef data !! i) as [mesh|] eqn:Hi.
    - destruct (Hmesh i mesh Hi) as (_ & _ & _ & selected & Hs & Hl & _).
      unfold Embedding, Vector in *. rewrite Hs. simpl. rewrite Hl.
      reflexivity.
    - apply lookup_ge_None in Hi.
      unfold createMeshes in Hi. rewrite length_imap, Hlen in Hi.
      apply lookup_ge_None in Hi.
      unfold Embedding, Vector in *. rewrite Hi. reflexivity. }
  split; [exact Hlabels|]. split; [|split; [|split]].
  - intros i mesh Hi. destruct (Hmesh i mesh Hi) as (? & ? & ? & _). auto.
  - apply lookup_determines. intros i j a b Ha Hb Href.
    destruct (Hmesh i a Ha) as (_ & Hra & _).
    destruct (Hmesh j b Hb) as (_ & Hrb & _). lia.
  - intros Hnd. rewrite Hlabels. exact Hnd.
  - intros Hplain. apply list_eq. intros i. rewrite !list_lookup_fmap.
    destruct (createMeshes firstRef data !! i) as [mesh|] eqn:Hi.
    + destruct (Hmesh i mesh Hi) as (_ & _ & _ & selected & Hs & _ & Hv).
      unfold Embedding, Vector in *. rewrite Hs. simpl.
      rewrite (Hv Hplain). reflexivity.
    + apply lookup_ge_None in Hi.
      unfold createMeshes in Hi. rewrite length_imap, Hlen in Hi.
      apply lookup_ge_None in Hi.
      unfold Embedding, Vector in *. rewrite Hi. reflexivity.
Qed.

End CloudFacts.

(** ** The labels over the life of the renderer *)

Module LabelRunsFacts.
Import Js Three Scene Labels LabelRuns LabelsFacts.
Local Open Scope R_scope.

(** Where the values of a function on a list are distinct, an element is
    known by its value. *)
Lemma known_by_value {A B : Type} (f : A -> B) (l : list A) (a b : A) :
  NoDup (map f l) -> a ∈ l -> b ∈ l -> f a = f b -> a = b.
Proof.
  induction l as [|x l IH]; intros Hnd Ha Hb Hf; [inversion Ha|].
  simpl in Hnd. apply NoDup_cons in Hnd as [Hx Hnd].
  apply elem_of_cons in Ha as [->|Ha]; apply elem_of_cons in Hb as [->|Hb].
  - reflexivity.
  - exfalso. apply Hx. rewrite Hf. apply list_elem_of_fmap. eauto.
  - exfalso. apply Hx. rewrite <- Hf. apply list_elem_of_fmap. eauto.
  - apply IH; assumption.
Qed.

Lemma includes_true (meshes : list Mesh) (mesh : Mesh) :
  includes meshes mesh = true ->
  exists other, other ∈ meshes /\ mesh_ref other = mesh_ref mesh.
Proof.
  unfold includes. intros H. apply existsb_exists in H as (other & Hin & Hs).
  exists other. split; [apply list_elem_of_In, Hin|].
  unfold sameMesh in Hs. apply Nat.eqb_eq in Hs. congruence.
Qed.

(** The meshes an update shows are meshes of the renderer. *)
Lemma shown_are_point_meshes (this : LabelRenderer) (view : View)
    (highlightedObjects : list Mesh)
    (labelSelectionConeDegrees labelSelectionConeHeight : R)
    (maxInViewLabels : nat) (mesh : Mesh) :
  (forall mesh, mesh ∈ highlightedObjects -> mesh ∈ pointMeshes this) ->
  mesh ∈ newSet
           (newSet (map fst
                      (take maxInViewLabels
                         (sortByDistance
                            (collectCandidates this view highlightedObjects
                               labelSelectionConeDegrees
                               labelSelectionConeHeight))))
            ++ filter (fun mesh => isOccluded view mesh = false)
                      highlightedObjects) ->
  mesh ∈ pointMeshes this.
Proof.
  intros Hhl Hmesh. apply elem_of_newSet, elem_of_app in Hmesh as [Hm|Hm].
  - apply elem_of_newSet, list_elem_of_fmap in Hm as ([m d] & -> & Hm).
    apply (subseteq_take maxInViewLabels) in Hm.
    rewrite sortByDistance_perm, collectCandidates_spec in Hm.
    apply list_elem_of_fmap in Hm as (m' & [= <- _] & Hm').
    apply list_elem_of_filter in Hm' as [_ Hm']. exact Hm'.
  - apply list_elem_of_filter in Hm as [_ Hm]. apply Hhl, Hm.
Qed.

(** X17.  Over the life of a renderer, the label of a point mesh is
    visible exactly when the mesh is in [pointsWithVisibleLabels] (and
    has a label): no label stays visible behind the set, no shown mesh
    lacks its label. *)
Theorem visible_labels_are_the_listed (this : LabelRenderer) :
  Rendered this ->
  forall mesh : Mesh,
    mesh ∈ pointMeshes this ->
    (labelVisibility this !! mesh_ref mesh = Some true
     <-> mesh ∈ pointsWithVisibleLabels this /\ hasLabel mesh = true).
Proof.
  intros Hrendered.
  assert (Hinv : NoDup (map mesh_ref (pointMeshes this))
    /\ (forall mesh, mesh ∈ pointsWithVisibleLabels this ->
          mesh ∈ pointMeshes this)
    /\ (forall mesh, mesh ∈ pointMeshes this ->
          (labelVisibility this !! mesh_ref mesh = Some true
           <-> mesh ∈ pointsWithVisibleLabels this /\ hasLabel mesh = true))).
  2: { apply Hinv. }
  induction Hrendered
    as [meshes Hnd
       |this view highlightedObjects frameCount labelUpdateThrottle
          labelSelectionConeDegrees labelSelectionConeHeight maxInViewLabels
          force Hrendered IH Hhl].
  - split; [exact Hnd|]. split.
    + intros mesh Hmesh. inversion Hmesh.
    + intros mesh _. simpl. rewrite lookup_empty. split; [discriminate|].
      intros [Hmesh _]. inversion Hmesh.
  - destruct IH as (Hnd & Hsub & Hvis).
    unfold updateLabelVisibilities.
    destruct (throttled frameCount labelUpdateThrottle force);
      [auto|].
    cbv zeta. cbn [pointMeshes pointsWithVisibleLabels labelVisibility].
    set (newVisible := newSet (newSet _ ++ _)).
    assert (Hshown : forall mesh, mesh ∈ newVisible -> mesh ∈ pointMeshes this).
    { intros mesh Hmesh.
      apply (shown_are_point_meshes this view highlightedObjects
               labelSelectionConeDegrees labelSelectionConeHeight
               maxInViewLabels mesh Hhl Hmesh). }
    split; [exact Hnd|]. split; [exact Hshown|].
    intros mesh Hmesh.
    destruct (showVisible_lookup newVisible
                (hideLeaving newVisible (pointsWithVisibleLabels this)
                             (labelVisibility this)) (mesh_ref mesh))
      as [[(other & Hother & Hlabel & Href) Hshow]|[Hnone Hsame]].
    + assert (other = mesh) as ->.
      { apply (known_by_value mesh_ref (pointMeshes this)); auto. }
      rewrite Hshow. tauto.
    + rewrite Hsame. split.
      * intros Hvisible.
        destruct (hideLeaving_lookup newVisible (pointsWithVisibleLabels this)
                    (labelVisibility this) (mesh_ref mesh))
          as [[_ Hhide]|[Hstays Hkeep]]; [congruence|].
        rewrite Hkeep in Hvisible.
        apply (Hvis mesh Hmesh) in Hvisible as [Hold Hlabel].
        split; [|exact Hlabel].
        destruct (includes newVisible mesh) eqn:Hinc.
        -- apply includes_true in Hinc as (other & Hother & Href).
           assert (other = mesh) as ->; [|exact Hother].
           apply (known_by_value mesh_ref (pointMeshes this)); auto.
        -- exfalso. apply Hstays. exists mesh. auto.
      * intros [Hin Hlabel]. exfalso. apply Hnone. exists mesh. auto.
Qed.

End LabelRunsFacts.

(** ** The highlighter *)

Module HighlightFacts.
Import Js Three Scene Grid Points Selection Labels Getters Highlight.
Import LabelsFacts.
Local Open Scope R_scope.

(** A loop that paints every mesh of a list and adds it to the
    highlighted objects. *)
Lemma painting_loop (lookOf : Mesh -> Z * num) (meshes : list Mesh) :
  forall this : PointHighlighter,
  let after :=
    foldl (fun this mesh =>
             let '(color, intensity) := lookOf mesh in
             mkPointHighlighter (highlightedObjects this ++ [mesh])
                                (paint mesh color intensity (materials this)))
          this meshes in
  highlightedObjects after = highlightedObjects this ++ meshes
  /\ (forall r material,
        materials after !! r = Some material ->
        materials this !! r = Some material
        \/ exists mesh, mesh ∈ meshes /\ mesh_ref mesh = r
                        /\ material = look (lookOf mesh))
  /\ (forall r,
        (forall mesh, mesh ∈ meshes -> mesh_ref mesh <> r) ->
        materials after !! r = materials this !! r)
  /\ (NoDup (map mesh_ref meshes) ->
      forall mesh, mesh ∈ meshes ->
        materials after !! mesh_ref mesh = Some (look (lookOf mesh)))
  /\ (forall mesh, mesh ∈ meshes ->
        exists other,
          other ∈ meshes /\ mesh_ref other = mesh_ref mesh
          /\ materials after !! mesh_ref mesh = Some (look (lookOf other))).
Proof.
  induction meshes as [|m meshes IH]; intros this; cbn [foldl].
  - cbv zeta. rewrite app_nil_r. split; [reflexivity|].
    split; [auto|]. split; [auto|].
    split; intros; match goal with H : _ ∈ [] |- _ => inversion H end.
  - destruct (lookOf m) as [c i] eqn:Hlook.
    specialize (IH (mkPointHighlighter (highlightedObjects this ++ [m])
                      (paint m c i (materials this)))).
    cbv zeta in IH. cbn [highlightedObjects materials] in IH.
    destruct IH as (Hlist & Horigin & Hother & Hset & Hlast).
    cbv zeta. split; [|split; [|split; [|split]]].
    + rewrite Hlist, <- app_assoc. reflexivity.
    + intros r material Hr.
      destruct (Horigin r material Hr) as [Hhere|(mesh & Hin & Href & Hmat)].
      * unfold paint in Hhere.
        destruct (decide (mesh_ref m = r)) as [Hm|Hm].
        -- rewrite Hm, lookup_insert_eq in Hhere. injection Hhere as <-.
           right. exists m. split; [apply list_elem_of_here|].
           split; [exact Hm|]. rewrite Hlook. reflexivity.
        -- rewrite lookup_insert_ne in Hhere by exact Hm. left. exact Hhere.
      * right. exists mesh. split; [apply list_elem_of_further, Hin | auto].
    + intros r Hnone. rewrite Hother.
      * unfold paint. apply lookup_insert_ne.
        apply Hnone, list_elem_of_here.
      * intros mesh Hmesh. apply Hnone, list_elem_of_further, Hmesh.
    + intros Hnd mesh Hmesh. simpl in Hnd.
      apply NoDup_cons in Hnd as [Hm Hnd].
      apply elem_of_cons in Hmesh as [->|Hmesh].
      * rewrite Hother.
        -- unfold paint. rewrite lookup_insert_eq, Hlook. reflexivity.
        -- intros mesh Hmesh Href. apply Hm. rewrite <- Href.
           apply list_elem_of_fmap. eauto.
      * apply Hset; assumption.
    + intros mesh Hmesh.
      destruct (decide (mesh_ref mesh ∈ map mesh_ref meshes)) as [Hlater|Hnot].
      * apply list_elem_of_fmap in Hlater as (later & Href & Hin).
        destruct (Hlast later Hin) as (other & Hother_in & Hother_ref & Hm).
        exists other. split; [apply list_elem_of_further, Hother_in|].
        split; [congruence|]. rewrite Href. exact Hm.
      * apply elem_of_cons in Hmesh as [->|Hmesh].
        -- exists m. split; [apply list_elem_of_here|].
           split; [reflexivity|]. rewrite Hother.
           ++ unfold paint. rewrite lookup_insert_eq, Hlook. reflexivity.
           ++ intros other Hother_in Href. apply Hnot. rewrite <- Href.
              apply list_elem_of_fmap. eauto.
        -- exfalso. apply Hnot. apply list_elem_of_fmap. eauto.
Qed.

Lemma highlightNeighbors_paints (pointCloud : PointCloud)
    (neighborIndices primaryGroupIndices : list nat) :
  forall this : PointHighlighter,
  highlightNeighbors pointCloud neighborIndices primaryGroupIndices this
  = foldl (fun this mesh =>
             let '(color, intensity) :=
               (NEIGHBOR_COLOR, Some NEIGHBOR_INTENSITY) in
             mkPointHighlighter (highlightedObjects this ++ [mesh])
                                (paint mesh color intensity (materials this)))
          this
          (neighborMeshesOf pointCloud neighborIndices primaryGroupIndices).
Proof.
  unfold highlightNeighbors, neighborMeshesOf.
  induction neighborIndices as [|index neighborIndices IH]; intros this;
    [reflexivity|].
  cbn [foldl omap list_omap].
  destruct (decide (index ∈ primaryGroupIndices)); [apply IH|].
  destruct (Selection.pointMeshes pointCloud !! index) as [neighborMesh|];
    [|apply IH].
  cbn [foldl]. apply IH.
Qed.

(** The materials after the loop of [resetHighlights]. *)
Lemma reset_lookup (highlighted : list Mesh) (r : nat) :
  forall store : gmap nat Material,
  foldl (fun materials mesh =>
           paint mesh DEFAULT_COLOR (Some DEFAULT_INTENSITY) materials)
        store highlighted !! r
  = if decide (r ∈ map mesh_ref highlighted) then Some defaultMaterial
    else store !! r.
Proof.
  induction highlighted as [|m highlighted IH]; intros store.
  - cbn [foldl map].
    destruct (decide (r ∈ [])) as [Hin|]; [inversion Hin | reflexivity].
  - cbn [foldl]. rewrite IH. cbn [map].
    destruct (decide (r ∈ map mesh_ref highlighted)) as [Hin|Hout].
    + rewrite decide_True by (apply list_elem_of_further, Hin). reflexivity.
    + unfold paint. destruct (decide (mesh_ref m = r)) as [Hm|Hm].
      * rewrite Hm, lookup_insert_eq.
        rewrite decide_True by (rewrite <- Hm; apply list_elem_of_here).
        reflexivity.
      * rewrite lookup_insert_ne by exact Hm.
        rewrite decide_False; [reflexivity|].
        intros Hin. apply elem_of_cons in Hin as [Heq|Hin]; auto.
Qed.

(** After [resetHighlights] no material differs from the default. *)
Lemma resetHighlights_materials (this : PointHighlighter) (r : nat)
    (material : Material) :
  changedAreListed this ->
  materials (resetHighlights this) !! r = Some material ->
  material = defaultMaterial.
Proof.
  intros Hlisted. unfold resetHighlights. cbn [materials].
  rewrite reset_lookup.
  destruct (decide (r ∈ map mesh_ref (highlightedObjects this)))
    as [Hin|Hout]; [congruence|].
  intros Hr.
  destruct (decide (material = defaultMaterial)) as [|Hne]; [assumption|].
  exfalso. destruct (Hlisted r material Hr Hne) as (mesh & Hmesh & Href).
  apply Hout. rewrite <- Href. apply list_elem_of_fmap. eauto.
Qed.

(** A loop that paints and lists keeps every changed material listed. *)
Lemma painting_keeps_listed (lookOf : Mesh -> Z * num) (meshes : list Mesh)
    (this : PointHighlighter) :
  changedAreListed this ->
  changedAreListed
    (foldl (fun this mesh =>
              let '(color, intensity) := lookOf mesh in
              mkPointHighlighter (highlightedObjects this ++ [mesh])
                                 (paint mesh color intensity (materials this)))
           this meshes).
Proof.
  intros Hlisted r material Hr Hne.
  destruct (painting_loop lookOf meshes this)
    as (Hlist & Horigin & _ & _ & _).
  rewrite Hlist.
  destruct (Horigin r material Hr) as [Hbefore|(mesh & Hin & Href & _)].
  - destruct (Hlisted r material Hbefore Hne) as (mesh & Hin & Href).
    exists mesh. split; [apply elem_of_app; auto | exact Href].
  - exists mesh. split; [apply elem_of_app; auto | exact Href].
Qed.

(** X15.  The bookkeeping of the highlighter: if every mesh whose
    material was changed is in the list of highlighted objects, then
    [resetHighlights] gives every mesh its default material back, and
    after [highlightSelection] every mesh whose material differs from the
    default is again in the list. *)
Theorem highlighter_bookkeeping (this : PointHighlighter)
    (pointCloud : option PointCloud)
    (proximityMeshes manualPrimaryMeshes : list Mesh)
    (neighborIndices : list nat) (directlyClickedMesh : option Mesh)
    (proximityWeights manualSelectionWeights : gmap string R) :
  changedAreListed this ->
  allDefault (resetHighlights this)
  /\ highlightedObjects (resetHighlights this) = []
  /\ changedAreListed
       (highlightSelection pointCloud proximityMeshes manualPrimaryMeshes
          neighborIndices directlyClickedMesh proximityWeights
          manualSelectionWeights this).
Proof.
  intros Hlisted. split; [|split; [reflexivity|]].
  - intros mesh. unfold materialOf.
    destruct (materials (resetHighlights this) !! mesh_ref mesh)
      as [material|] eqn:Hm; [|reflexivity].
    simpl. apply (resetHighlights_materials this (mesh_ref mesh)); assumption.
  - unfold highlightSelection.
    destruct pointCloud as [cloud|]; [|exact Hlisted].
    cbv zeta. unfold highlightPrimary. cbv zeta.
    apply painting_keeps_listed.
    rewrite highlightNeighbors_paints.
    apply (painting_keeps_listed
             (fun _ => (NEIGHBOR_COLOR, Some NEIGHBOR_INTENSITY))).
    intros r material Hr Hne. exfalso. apply Hne.
    apply (resetHighlights_materials this r); assumption.
Qed.


Lemma includes_false_refs (meshes : list Mesh) (mesh : Mesh) :
  includes meshes mesh = false <-> mesh_ref mesh ∉ map mesh_ref meshes.
Proof.
  unfold includes. induction meshes as [|m meshes IH]; simpl.
  - split; [intros _; apply not_elem_of_nil | reflexivity].
  - rewrite orb_false_iff, IH. unfold sameMesh.
    rewrite Nat.eqb_neq, not_elem_of_cons. tauto.
Qed.

Lemma newSet_distinct (meshes : list Mesh) :
  NoDup (map mesh_ref (newSet meshes)).
Proof.
  unfold newSet.
  assert (G : forall set : list Mesh,
    NoDup (map mesh_ref set) ->
    NoDup (map mesh_ref
             (foldl (fun set mesh =>
                       if includes set mesh then set else set ++ [mesh])
                    set meshes))).
  { induction meshes as [|m meshes IH]; intros set Hset; [exact Hset|].
    simpl. apply IH.
    destruct (includes set m) eqn:Hm; [exact Hset|].
    rewrite map_app. apply NoDup_app. split; [exact Hset|].
    split; [|apply NoDup_singleton].
    intros r Hr Hr'. apply list_elem_of_singleton in Hr'. subst r.
    apply includes_false_refs in Hm. contradiction. }
  apply G. apply NoDup_nil_2.
Qed.

(** X16.  What [highlightSelection] leaves, with a point cloud: the
    highlighted objects are the neighbour meshes that are not primary
    followed by the primary meshes (proximity and manual, each once);
    every primary mesh has the colour and the intensity computed for it,
    also when it was painted as a neighbour first; a neighbour mesh that
    is not primary has the neighbour colour. *)
Theorem highlightSelection_paints (this : PointHighlighter)
    (pointCloud : PointCloud)
    (proximityMeshes manualPrimaryMeshes : list Mesh)
    (neighborIndices : list nat) (directlyClickedMesh : option Mesh)
    (proximityWeights manualSelectionWeights : gmap string R) :
  let after :=
    highlightSelection (Some pointCloud) proximityMeshes manualPrimaryMeshes
      neighborIndices directlyClickedMesh proximityWeights
      manualSelectionWeights this in
  let allPrimaryMeshes := newSet (proximityMeshes ++ manualPrimaryMeshes) in
  let neighborMeshes :=
    neighborMeshesOf pointCloud neighborIndices
                     (map index allPrimaryMeshes) in
  getHighlightedObjects after = neighborMeshes ++ allPrimaryMeshes
  /\ (forall mesh, mesh ∈ allPrimaryMeshes ->
        materialOf after mesh
        = look (primaryLook proximityMeshes manualPrimaryMeshes
                  directlyClickedMesh proximityWeights manualSelectionWeights
                  mesh))
  /\ (forall mesh, mesh ∈ neighborMeshes ->
        includes allPrimaryMeshes mesh = false ->
        materialOf after mesh = look (NEIGHBOR_COLOR, Some NEIGHBOR_INTENSITY)).
Proof.
  cbv zeta. unfold highlightSelection, highlightPrimary, getHighlightedObjects.
  cbv zeta. rewrite highlightNeighbors_paints.
  set (allPrimaryMeshes := newSet (proximityMeshes ++ manualPrimaryMeshes)).
  set (neighborMeshes :=
         neighborMeshesOf pointCloud neighborIndices
                          (map index allPrimaryMeshes)).
  pose proof (painting_loop
    (fun _ => (NEIGHBOR_COLOR, Some NEIGHBOR_INTENSITY)) neighborMeshes
    (resetHighlights this)) as Hn.
  cbv zeta in Hn.
  set (neighborsDone := foldl _ (resetHighlights this) neighborMeshes) in *.
  destruct Hn as (Hnlist & _ & _ & _ & Hnlast).
  pose proof (painting_loop
    (primaryLook proximityMeshes manualPrimaryMeshes directlyClickedMesh
                 proximityWeights manualSelectionWeights)
    allPrimaryMeshes neighborsDone) as Hp.
  cbv zeta in Hp.
  set (primaryDone := foldl _ neighborsDone allPrimaryMeshes) in *.
  destruct Hp as (Hplist & _ & Hpother & Hpset & _).
  split; [|split].
  - rewrite Hplist, Hnlist. reflexivity.
  - intros mesh Hmesh. unfold materialOf.
    rewrite Hpset; [reflexivity | apply newSet_distinct | exact Hmesh].
  - intros mesh Hmesh Hnot. unfold materialOf.
    rewrite Hpother.
    + destruct (Hnlast mesh Hmesh) as (other & _ & _ & ->). reflexivity.
    + intros primary Hprimary Href.
      apply includes_false_refs in Hnot. apply Hnot. rewrite <- Href.
      apply list_elem_of_fmap. eauto.
Qed.

End HighlightFacts.

(** ** The weights the component dispatches *)

Module SpaceFacts.
Import Js Three Scene Grid Points Selection Labels Getters Highlight Space.
Local Open Scope R_scope.

(** *** The prompts that are kept *)

Lemma insertByWeight_perm (entry : string * R) (sorted : list (string * R)) :
  insertByWeight entry sorted ≡ₚ entry :: sorted.
Proof.
  induction sorted as [|first rest IH]; simpl; [reflexivity|].
  destruct (decide (snd first > snd entry)); [|reflexivity].
  rewrite IH. apply perm_swap.
Qed.

Lemma sortByWeight_perm (entries : list (string * R)) :
  sortByWeight entries ≡ₚ entries.
Proof.
  induction entries as [|entry entries IH]; simpl; [reflexivity|].
  rewrite insertByWeight_perm, IH. reflexivity.
Qed.

Lemma insertByWeight_sorted (entry : string * R)
    (sorted : list (string * R)) :
  StronglySorted (fun a b => snd a >= snd b) sorted ->
  StronglySorted (fun a b => snd a >= snd b) (insertByWeight entry sorted).
Proof.
  induction 1 as [|first rest Hrest IH Hfirst]; simpl.
  - repeat constructor.
  - destruct (decide (snd first > snd entry)) as [Hgt|Hle].
    + constructor; [exact IH|].
      apply List.Forall_forall. intros e He.
      apply list_elem_of_In in He. rewrite insertByWeight_perm in He.
      apply elem_of_cons in He as [->|He]; [lra|].
      rewrite List.Forall_forall in Hfirst.
      apply Hfirst, list_elem_of_In, He.
    + constructor; [constructor; assumption|].
      constructor; [lra|].
      apply List.Forall_forall. intros e He.
      rewrite List.Forall_forall in Hfirst. specialize (Hfirst e He). lra.
Qed.

Lemma sortByWeight_sorted (entries : list (string * R)) :
  StronglySorted (fun a b => snd a >= snd b) (sortByWeight entries).
Proof.
  induction entries as [|entry entries IH]; simpl; [constructor|].
  apply insertByWeight_sorted, IH.
Qed.

(** In a sorted list, what is taken from the front is not lighter than
    what is left. *)
Lemma front_is_heavier (sorted : list (string * R)) :
  StronglySorted (fun a b => snd a >= snd b) sorted ->
  forall (n : nat) (a b : string * R),
    a ∈ take n sorted -> b ∈ drop n sorted -> snd a >= snd b.
Proof.
  induction 1 as [|first rest Hrest IH Hfirst]; intros n a b Ha Hb.
  - rewrite take_nil in Ha. inversion Ha.
  - destruct n as [|n]; [inversion Ha|]. simpl in Ha, Hb.
    apply elem_of_cons in Ha as [->|Ha]; [|exact (IH n a b Ha Hb)].
    rewrite List.Forall_forall in Hfirst.
    apply Hfirst, list_elem_of_In.
    apply (subseteq_drop n rest), Hb.
Qed.

(** The entries that are kept, of entries with distinct keys. *)
Lemma filteredEntries_spec (entries : list (string * R)) :
  NoDup (map fst entries) ->
  let kept := filteredEntries entries in
  (List.length kept <= MAX_PROMPTS)%nat
  /\ NoDup (map fst kept)
  /\ (forall entry, entry ∈ kept ->
        entry ∈ entries /\ MIN_PROMPT_WEIGHT <= snd entry)
  /\ (forall entry, entry ∈ entries -> MIN_PROMPT_WEIGHT <= snd entry ->
        entry ∉ kept ->
        List.length kept = MAX_PROMPTS
        /\ forall other, other ∈ kept -> snd entry <= snd other).
Proof.
  intros Hnd. cbv zeta. unfold filteredEntries.
  set (passing := filter (fun entry : string * R =>
                            snd entry >= MIN_PROMPT_WEIGHT) entries).
  set (sorted := sortByWeight passing).
  assert (Hperm : sorted ≡ₚ passing) by apply sortByWeight_perm.
  assert (Hsorted : StronglySorted (fun a b => snd a >= snd b) sorted)
    by apply sortByWeight_sorted.
  assert (Hin : forall entry, entry ∈ sorted <->
            entry ∈ entries /\ MIN_PROMPT_WEIGHT <= snd entry).
  { intros entry. rewrite Hperm. unfold passing.
    rewrite list_elem_of_filter. split; intros [? ?]; split; auto; lra. }
  split; [|split; [|split]].
  - rewrite length_take. lia.
  - apply (sublist_NoDup _ (map fst sorted)).
    + apply (NoDup_Permutation_proper (map fst passing)).
      * symmetry. apply (fmap_Permutation fst), Hperm.
      * apply (sublist_NoDup _ (map fst entries)); [assumption|].
        apply (fmap_sublist fst), sublist_filter.
    + apply (fmap_sublist fst), sublist_take.
  - intros entry Hentry. apply Hin.
    apply (subseteq_take MAX_PROMPTS sorted), Hentry.
  - intros entry Hentry Hweight Hout.
    assert (Hs : entry ∈ sorted) by (apply Hin; auto).
    rewrite <- (take_drop MAX_PROMPTS sorted) in Hs.
    apply elem_of_app in Hs as [Hs|Hs]; [contradiction|].
    split.
    + rewrite length_take. apply Nat.min_l.
      destruct (Nat.le_gt_cases MAX_PROMPTS (List.length sorted)) as [?|Hshort];
        [assumption|].
      rewrite drop_ge in Hs by lia. inversion Hs.
    + intros other Hother.
      pose proof (front_is_heavier sorted Hsorted MAX_PROMPTS other entry
                    Hother Hs). lra.
Qed.

(** Setting the entries one after the other: of two entries with one
    key the later one stays. *)
Lemma fromEntries_reverse (entries : list (string * R)) :
  fromEntries entries = list_to_map (reverse entries).
Proof.
  unfold fromEntries.
  assert (G : forall object : gmap string R,
    foldl (fun object entry => <[fst entry := snd entry]> object) object
          entries
    = foldr (fun entry object => <[fst entry := snd entry]> object) object
            (reverse entries)).
  { induction entries as [|entry entries IH]; intros object; [reflexivity|].
    rewrite reverse_cons, foldr_app. cbn [foldl foldr]. apply IH. }
  apply (G ∅).
Qed.

Section Order.
Variable objectEntries : gmap string R -> list (string * R).
Hypothesis objectEntries_lists : forall weights,
  objectEntries weights ≡ₚ map_to_list weights.

Lemma objectEntries_keys (weights : gmap string R) :
  NoDup (map fst (objectEntries weights)).
Proof.
  apply (NoDup_Permutation_proper (map fst (map_to_list weights))).
  - symmetry. apply (fmap_Permutation fst), objectEntries_lists.
  - apply NoDup_fst_map_to_list.
Qed.

Lemma filteredEntries_keys (combinedWeights : gmap string R) :
  NoDup (map fst (reverse (filteredEntries (objectEntries combinedWeights)))).
Proof.
  apply (NoDup_Permutation_proper
           (map fst (filteredEntries (objectEntries combinedWeights)))).
  - apply (fmap_Permutation fst). symmetry. apply reverse_Permutation.
  - apply (filteredEntries_spec (objectEntries combinedWeights)),
      objectEntries_keys.
Qed.

Lemma filteredWeights_lookup (combinedWeights : gmap string R)
    (l : string) (w : R) :
  filteredWeights objectEntries combinedWeights !! l = Some w
  <-> (l, w) ∈ filteredEntries (objectEntries combinedWeights).
Proof.
  unfold filteredWeights. rewrite fromEntries_reverse.
  rewrite <- (elem_of_list_to_map _ _ _ (filteredEntries_keys combinedWeights)).
  rewrite elem_of_reverse. reflexivity.
Qed.

Lemma filteredWeights_size (combinedWeights : gmap string R) :
  size (filteredWeights objectEntries combinedWeights)
  = List.length (filteredEntries (objectEntries combinedWeights)).
Proof.
  unfold filteredWeights. rewrite fromEntries_reverse.
  rewrite (map_size_list_to_map _ (filteredEntries_keys combinedWeights)).
  apply length_reverse.
Qed.

(** X18.  The weights that are dispatched as prompts: at most
    [MAX_PROMPTS] of the combined weights, none below
    [MIN_PROMPT_WEIGHT], with their weights unchanged; a combined weight
    of at least [MIN_PROMPT_WEIGHT] is left out only when [MAX_PROMPTS]
    prompts are kept, none of them lighter. *)
Theorem filteredWeights_heaviest (combinedWeights : gmap string R) :
  let kept := filteredWeights objectEntries combinedWeights in
  (size kept <= MAX_PROMPTS)%nat
  /\ (forall (l : string) (w : R),
        kept !! l = Some w ->
        combinedWeights !! l = Some w /\ MIN_PROMPT_WEIGHT <= w)
  /\ (forall (l : string) (w : R),
        combinedWeights !! l = Some w -> MIN_PROMPT_WEIGHT <= w ->
        kept !! l = None ->
        size kept = MAX_PROMPTS
        /\ forall (l' : string) (w' : R), kept !! l' = Some w' -> w <= w').
Proof.
  cbv zeta.
  destruct (filteredEntries_spec (objectEntries combinedWeights)
              (objectEntries_keys combinedWeights))
    as (Hlen & _ & Hkept & Htop).
  rewrite filteredWeights_size.
  split; [exact Hlen|]. split.
  - intros l w Hl. apply filteredWeights_lookup, Hkept in Hl as [Hin Hw].
    split; [|exact Hw].
    rewrite objectEntries_lists in Hin. apply elem_of_map_to_list, Hin.
  - intros l w Hl Hw Hout.
    assert (Hin : (l, w) ∈ objectEntries combinedWeights).
    { rewrite objectEntries_lists. apply elem_of_map_to_list, Hl. }
    destruct (Htop (l, w) Hin Hw) as [Hfull Hheavier].
    { intros Hk. apply filteredWeights_lookup in Hk. congruence. }
    split; [exact Hfull|].
    intros l' w' Hl'. apply filteredWeights_lookup in Hl'.
    apply (Hheavier (l', w') Hl').
Qed.

End Order.

(** *** The test for a change *)

(** X19.  [haveWeightsChanged] is false exactly when the new weights are
    the weights dispatched last, or are empty when nothing was
    dispatched yet. *)
Theorem haveWeightsChanged_false_iff (oldWeights : option (gmap string R))
    (newWeights : gmap string R) :
  haveWeightsChanged oldWeights newWeights = false
  <-> match oldWeights with
      | Some weights => weights = newWeights
      | None => newWeights = ∅
      end.
Proof.
  unfold haveWeightsChanged. destruct oldWeights as [oldWeights|].
  - destruct (bool_decide (size oldWeights <> size newWeights)) eqn:Hsize.
    + apply bool_decide_eq_true in Hsize.
      split; [discriminate | intros ->; contradiction].
    + apply bool_decide_eq_false in Hsize.
      assert (Hsame : size oldWeights = size newWeights)
        by (destruct (decide (size oldWeights = size newWeights)); tauto).
      rewrite negb_false_iff, bool_decide_eq_true, map_Forall_lookup.
      split.
      * intros Hall. symmetry. apply map_subseteq_size_eq; [|lia].
        apply map_subseteq_spec. exact Hall.
      * intros -> key weight Hkey. exact Hkey.
  - rewrite bool_decide_eq_false, <- map_size_empty_iff. lia.
Qed.

(** *** No event repeats the one before *)

Lemma noRepeat_snoc (events : list (gmap string R)) (next : gmap string R) :
  noRepeat events ->
  (forall previous, last events = Some previous -> previous <> next) ->
  noRepeat (events ++ [next]).
Proof.
  induction events as [|first [|second rest] IH]; intros Hnr Hlast.
  - exact I.
  - simpl. split; [|exact I]. apply Hlast. reflexivity.
  - destruct Hnr as [Hne Hnr]. split; [exact Hne|].
    apply IH; [exact Hnr|]. intros previous Hp. apply Hlast. exact Hp.
Qed.

(** What one run of [updateAndRenderHighlights] dispatches. *)
Lemma updateAndRenderHighlights_events
    (objectEntries : gmap string R -> list (string * R))
    (this : SpaceComponent) (force : bool) :
  let after := fst (updateAndRenderHighlights objectEntries this force) in
  match snd (updateAndRenderHighlights objectEntries this force) with
  | [] => lastDispatchedWeights after = lastDispatchedWeights this
  | [weights] =>
      lastDispatchedWeights after = Some weights
      /\ match lastDispatchedWeights this with
         | Some previous => previous <> weights
         | None => weights <> ∅
         end
  | _ => False
  end.
Proof.
  unfold updateAndRenderHighlights. cbv zeta.
  destruct (negb (sceneReady this)); [reflexivity|].
  destruct (negb force && _); [reflexivity|].
  set (selector := updateProximitySelection _ _ _).
  set (combined := getCombinedWeights selector (pointCloud this)).
  destruct (Nat.eqb (size combined) 0 && negb (hasManualSelection selector)).
  - destruct (lastDispatchedWeights this) as [weights|] eqn:Hlast;
      [|reflexivity].
    destruct (Nat.ltb_spec 0 (size weights)) as [Hpos|Hzero];
      [|reflexivity].
    simpl. split; [reflexivity|]. intros ->.
    rewrite map_size_empty in Hpos. lia.
  - destruct (haveWeightsChanged (lastDispatchedWeights this)
                (filteredWeights objectEntries combined)) eqn:Hchanged;
      [|reflexivity].
    simpl. split; [reflexivity|].
    destruct (lastDispatchedWeights this) as [previous|].
    + intros ->.
      assert (Hno : haveWeightsChanged
                (Some (filteredWeights objectEntries combined))
                (filteredWeights objectEntries combined) = false).
      { unfold haveWeightsChanged.
        rewrite bool_decide_eq_false_2 by tauto.
        rewrite negb_false_iff, bool_decide_eq_true, map_Forall_lookup.
        auto. }
      congruence.
    + intros Hempty. rewrite Hempty in Hchanged. simpl in Hchanged.
      rewrite bool_decide_eq_true, map_size_empty in Hchanged. lia.
Qed.

(** X20.  Over the life of the component no 'prompts-selected' event
    carries the same weights as the event before it, the first event
    carries weights that are not empty, and [lastDispatchedWeights] is
    what the last event carried. *)
Theorem dispatched_without_repeat
    (objectEntries : gmap string R -> list (string * R))
    (this : SpaceComponent) (events : list (gmap string R)) :
  Dispatched objectEntries this events ->
  noRepeat events
  /\ (forall first, head events = Some first -> first <> ∅)
  /\ lastDispatchedWeights this = last events.
Proof.
  induction 1 as [this Hnone|this events force Hd IH|this other events Hd IH Hsame].
  - split; [exact I|]. split; [discriminate | exact Hnone].
  - destruct IH as (Hnr & Hhead & Hlast).
    pose proof (updateAndRenderHighlights_events objectEntries this force)
      as Hev. cbv zeta in Hev.
    destruct (snd (updateAndRenderHighlights objectEntries this force))
      as [|weights [|more rest]]; [| |contradiction].
    + rewrite app_nil_r. rewrite Hev. auto.
    + destruct Hev as [Hafter Hnew]. rewrite Hlast in Hnew.
      split; [|split].
      * apply noRepeat_snoc; [exact Hnr|].
        intros previous Hp. rewrite Hp in Hnew. exact Hnew.
      * destruct events as [|e events]; simpl.
        -- intros first [= <-]. exact Hnew.
        -- exact Hhead.
      * rewrite Hafter, last_snoc. reflexivity.
  - rewrite Hsame. exact IH.
Qed.

End SpaceFacts.

(** ** The properties above on the inputs of [Examples] *)

Module ExampleFacts.
Import Js Three Scene Grid Utils Points Selection Labels.
Import Getters Highlight Space LabelRuns Codec Examples.
Import JsFacts UtilsFacts PointsFacts GridFacts SelectionFacts LabelsFacts.
Import GeneratorMoreFacts WeightFacts RoundTripFacts ProximityFacts NeighborFacts
  BlobFacts SpaceFacts HighlightFacts LabelRunsFacts.
Local Open Scope R_scope.

Lemma twoItems_labels : NoDup (map label (Selection.pointMeshes twoItems)).
Proof. apply (bool_decide_unpack _). vm_compute. exact I. Qed.

Lemma rock_hit_is_item : hitsAreItems (Some twoItems) [PointMesh itemRock].
Proof.
  intros mesh Hmesh. apply elem_of_cons in Hmesh as [[= ->]|Hmesh].
  - simpl. apply list_elem_of_further, list_elem_of_here.
  - inversion Hmesh.
Qed.

Lemma selection_labels_distinct_witness :
  let selected :=
    snd (generatePointCloudData_selectedEmbeddings 1 smallCache 2
           [("rock", unitY)]) in
  NoDup (map fst selected)
  /\ (forall entry, entry ∈ selected ->
        entry ∈ [("rock", unitY)] \/ entry ∈ smallCache).
Proof.
  apply (selection_labels_distinct 1 smallCache 2 [("rock", unitY)]).
  - apply (bool_decide_unpack _). vm_compute. exact I.
  - apply (bool_decide_unpack _). vm_compute. exact I.
Defined.



Lemma restore_after_preserve_same_cloud_witness :
  let selected :=
    selectByClick (newPointSelector startOptions) (Some twoItems)
      [PointMesh itemRock] downRay (mkVector3 3 0 10) in
  restoreManualSelection selected (getPreservedManualSelection selected)
    twoItems
  = selected.
Proof.
  apply (restore_after_preserve_same_cloud (newPointSelector startOptions)
           twoItems [PointMesh itemRock] downRay (mkVector3 3 0 10)).
  - exact twoItems_labels.
  - exact rock_hit_is_item.
Defined.



Lemma createBlob_sample_witness :
  exists sample : Z,
    createBlob_int16 [Some (1 / 2); Some 1] !! 1%nat = Some sample
    /\ ((-1 <= 1 < 1)%R ->
        sample = truncate (1 * 32768)
        /\ (-32768 <= sample <= 32767)%Z
        /\ (Rabs (IZR sample / 32768 - 1) < 1 / 32768)%R)
    /\ ((1 <= 1 < 2)%R ->
        sample = (Zfloor (1 * 32768) - 65536)%Z
        /\ (-32768 <= sample < 0)%Z)
    /\ (1 = 1%R -> sample = (-32768)%Z).
Proof.
  apply (createBlob_sample [Some (1 / 2); Some 1] 1 1). reflexivity.
Defined.

Lemma filteredWeights_heaviest_witness :
  let kept := filteredWeights map_to_list {["jazz" := 1 / 5]} in
  (size kept <= MAX_PROMPTS)%nat
  /\ (forall (l : string) (w : R),
        kept !! l = Some w ->
        ({["jazz" := 1 / 5]} : gmap string R) !! l = Some w
        /\ MIN_PROMPT_WEIGHT <= w)
  /\ (forall (l : string) (w : R),
        ({["jazz" := 1 / 5]} : gmap string R) !! l = Some w ->
        MIN_PROMPT_WEIGHT <= w ->
        kept !! l = None ->
        size kept = MAX_PROMPTS
        /\ forall (l' : string) (w' : R), kept !! l' = Some w' -> w <= w').
Proof.
  apply (filteredWeights_heaviest map_to_list).
  intros weights. reflexivity.
Defined.

Lemma dispatched_without_repeat_witness :
  let run := updateAndRenderHighlights map_to_list shipNearJazz true in
  noRepeat ([] ++ snd run)
  /\ (forall first, head ([] ++ snd run) = Some first -> first <> ∅)
  /\ lastDispatchedWeights (fst run) = last ([] ++ snd run).
Proof.
  apply (dispatched_without_repeat map_to_list
           (fst (updateAndRenderHighlights map_to_list shipNearJazz true))
           ([] ++ snd (updateAndRenderHighlights map_to_list shipNearJazz true))).
  apply dispatched_update, dispatched_start. reflexivity.
Defined.

Lemma highlighter_bookkeeping_witness :
  allDefault (resetHighlights newPointHighlighter)
  /\ highlightedObjects (resetHighlights newPointHighlighter) = []
  /\ changedAreListed
       (highlightSelection (Some twoItems) [itemJazz] [itemRock] [0%nat; 1%nat]
          (Some itemRock) {["jazz" := 1 / 5]} {["rock" := 1]}
          newPointHighlighter).
Proof.
  apply (highlighter_bookkeeping newPointHighlighter (Some twoItems)
           [itemJazz] [itemRock] [0%nat; 1%nat] (Some itemRock)
           {["jazz" := 1 / 5]} {["rock" := 1]}).
  intros r material Hr. simpl in Hr. rewrite lookup_empty in Hr.
  discriminate.
Defined.

Lemma visible_labels_are_the_listed_witness :
  let this :=
    updateLabelVisibilities (newLabelRenderer [itemJazzLabel; itemRockLabel])
      openView [itemRockLabel] 7 5 25 40 5 true in
  labelVisibility this !! mesh_ref itemRockLabel = Some true
  <-> itemRockLabel ∈ pointsWithVisibleLabels this
      /\ hasLabel itemRockLabel = true.
Proof.
  apply (visible_labels_are_the_listed
           (updateLabelVisibilities
              (newLabelRenderer [itemJazzLabel; itemRockLabel])
              openView [itemRockLabel] 7 5 25 40 5 true)).
  - apply rendered_update.
    + apply rendered_new. apply (bool_decide_unpack _). vm_compute. exact I.
    + intros mesh Hmesh. apply list_elem_of_singleton in Hmesh as ->.
      apply list_elem_of_further, list_elem_of_here.
  - apply list_elem_of_further, list_elem_of_here.
Defined.

Lemma new_cloud_follows_selection_witness :
  exists data,
    Cloud.pointCloudDataOf flatFit (fun _ _ => unitX) 2 false smallCache
    = Some data
    /\ let pointCloud := Cloud.newPointCloud 0 data in
       map Scene.label (Selection.pointMeshes pointCloud) = map fst smallCache
       /\ (forall (i : nat) (mesh : Mesh),
             Selection.pointMeshes pointCloud !! i = Some mesh ->
             Scene.index mesh = i /\ is_Some (parent mesh))
       /\ NoDup (map mesh_ref (Selection.pointMeshes pointCloud))
       /\ (NoDup (map fst smallCache) ->
           NoDup (map Scene.label (Selection.pointMeshes pointCloud)))
       /\ (false = false ->
           map vector (Selection.pointMeshes pointCloud) = map snd smallCache).
Proof.
  apply (CloudFacts.new_cloud_follows_selection flatFit (fun _ _ => unitX) 2
           false smallCache 0).
  intros highDimData. apply length_map.
Defined.

End ExampleFacts.
